(** * Usage accounting of the cagent sidebar

    A shallow embedding of the usage ledger kept by the TUI sidebar
    (package [sidebar]) and of the functions that read it, followed by the
    properties of the ledger that the design document states and by
    further properties of the code: the invariants of the ledger, what a
    sequence of events does to it, the breakdown and the totals, the
    working directory shown and the height of the vertical view.

    Two revisions of [sidebar.go] are embedded, each in a module of its own:

    - [SidebarGo]: [src/pkg/tui/components/sidebar/sidebar.go], the revision
      that derives the root agent's exclusive usage by subtraction
      ([computeRootExclusiveUsage], [subtractUsage]);
    - [Part001]: [src/unnamed/part_001], the revision with the legacy
      fallback in [SetTokenUsage], the per-session [inclusive] map and
      [aggregateSelfUsage].

    The third file, [src/unnamed/part_000], is a revision with less in it:
    its [SetTokenUsage] is the one of [sidebar.go] without the
    [sessionAgents] map, and its [computeTeamTotals], [currentSessionUsage]
    and [mergeUsageTotals] are those of [sidebar.go] word for word; it has
    no breakdown.

    Conventions of the embedding:

    - Go's [int] is a 64-bit two's complement integer: a [Z] together with
      the wrap-around of [+] and [-] written out ([GoInt.add], [GoInt.sub]);
    - Go's [float64] is Rocq's primitive binary64 [float];
    - a pointer [*runtime.Usage] is an [option Usage] ([None] is [nil]);
      every pointer the ledger stores comes out of [cloneUsage], which
      allocates a fresh struct, and the only in-place updates
      ([mergeUsageTotals], [subtractUsage]) are applied to such fresh clones,
      so that passing the struct by value loses nothing; for [SetTokenUsage]
      of [part_001] the pointers are written out as well
      ([Part001Pointers]) and the two readings are proved to agree;
    - a Go map is a [gmap]; a [range] loop over a map visits its entries in
      an order the runtime chooses, so every function with such a loop takes
      the order of the visit as an argument, constrained by [range_order];
    - methods on [*model] read and write its [usageState] only, so they are
      functions on [usageState]. *)

From Stdlib Require Import ZArith Lia Floats.
From Stdlib Require OrderedTypeEx.
From stdpp Require Import gmap strings list sorting.

#[local] Set Warnings "-clear-no-such-hyp".

Open Scope Z_scope.

(** ** Go's [int] *)

Module GoInt.

Definition minInt : Z := - 2 ^ 63.
Definition maxInt : Z := 2 ^ 63 - 1.

(** The value an [int] register holds after an operation whose exact
    result is [z]. *)
Definition wrap (z : Z) : Z := (z - minInt) mod 2 ^ 64 + minInt.

Definition add (a b : Z) : Z := wrap (a + b).
Definition sub (a b : Z) : Z := wrap (a - b).

Definition in_range (z : Z) : Prop := minInt <= z <= maxInt.

End GoInt.

(** ** Package [runtime]: the types of the events *)

Module runtime.

(** Modelled from the spec: [runtime.Usage] is declared in [pkg/runtime],
    which is not among the sources.  The fields are the ones [sidebar.go]
    reads and writes; the counters are passed to [formatTokenCount(count int)]
    and [Cost] is printed with [%.2f]. *)
Record Usage : Type := mkUsage {
  InputTokens : Z;
  OutputTokens : Z;
  ContextLength : Z;
  ContextLimit : Z;
  Cost : float
}.

(** The zero value [runtime.Usage{}]. *)
Definition zeroUsage : Usage := mkUsage 0 0 0 0 0%float.

(** Modelled from the spec: [runtime.TokenUsageEvent], declared in
    [pkg/runtime] as well.  [AgentName] stands for
    [event.AgentContext.AgentName]; [LegacyUsage] is the field [Usage]. *)
Record TokenUsageEvent : Type := mkEvent {
  SessionID : string;
  AgentName : string;
  SelfUsage : option Usage;
  InclusiveUsage : option Usage;
  LegacyUsage : option Usage
}.

End runtime.

Export runtime.

(** The counters of a snapshot as the design document types them:
    non-negative, and representable as a Go [int]. *)
Definition counter (z : Z) : Prop := 0 <= z <= GoInt.maxInt.

Record snapshot_ok (u : Usage) : Prop := mkSnapshotOk {
  ok_input : counter (InputTokens u);
  ok_output : counter (OutputTokens u);
  ok_length : counter (ContextLength u);
  ok_limit : counter (ContextLimit u)
}.

(** ** Maps and their iteration *)

(** [m[k]] on a [map[string]*runtime.Usage]: [nil] when the key is missing. *)
Definition usageAt (m : gmap string (option Usage)) (k : string) : option Usage :=
  default None (m !! k).

(** [m[k]] on a [map[string]string]: the empty string when the key is missing. *)
Definition nameAt (m : gmap string string) (k : string) : string :=
  default "" (m !! k).

(** [order] is one of the orders in which [for k, v := range m] may visit
    the entries of [m]: each entry once, in any order. *)
Definition range_order {V : Type} (m : gmap string V) (order : list (string * V)) : Prop :=
  order ≡ₚ map_to_list m.

(** The snapshots stored in a map (the non-nil values), in the canonical
    order of the map. *)
Definition stored (m : gmap string (option Usage)) : list Usage :=
  omap snd (map_to_list m).

(** ** [sort.Strings] *)

(** Go compares strings byte by byte; so does [String.leb]. *)
Definition string_le (a b : string) : Prop := String.leb a b = true.

Definition string_lt (a b : string) : Prop := String.ltb a b = true.

#[global] Instance string_le_dec : RelDecision string_le.
Proof. intros a b. unfold string_le. apply _. Defined.

(** [sort.Strings(ids)]: the slice in ascending order.  Equal strings are
    indistinguishable, so every sorting algorithm returns the same slice. *)
Definition sortStrings (ids : list string) : list string :=
  merge_sort string_le ids.

(** ** Helpers shared by both revisions *)

(** [cloneUsage]: a fresh copy of the struct, or [nil]. *)
Definition cloneUsage (u : option Usage) : option Usage :=
  match u with
  | None => None
  | Some c => Some c
  end.

(** One rendered block of the breakdown.  The text is produced by
    [fmt.Sprintf], [humanize.Comma] and a lipgloss style; a block is kept as
    the three values it is rendered from. *)
Record block : Type := mkBlock {
  blockName : string;
  blockUsage : Usage;
  blockActive : bool
}.

(** [formatSessionBlock]: [None] is the empty string returned for a [nil]
    usage; every other block is a non-empty string. *)
Definition formatSessionBlock (agentName : string) (usage : option Usage)
    (isActive : bool) : option block :=
  match usage with
  | None => None
  | Some u => Some (mkBlock agentName u isActive)
  end.

(** ** Revision [src/pkg/tui/components/sidebar/sidebar.go] *)

Module SidebarGo.

Record usageState : Type := mkState {
  sessions : gmap string (option Usage);
  sessionAgents : gmap string string;
  rootInclusive : option Usage;
  rootSessionID : string;
  rootAgentName : string;
  activeSessionID : string
}.

(** The [usageState] built by [New]. *)
Definition New : usageState := mkState ∅ ∅ None "" "" "".

Definition set_sessions (v : gmap string (option Usage)) (m : usageState) : usageState :=
  mkState v (sessionAgents m) (rootInclusive m) (rootSessionID m)
    (rootAgentName m) (activeSessionID m).

Definition set_sessionAgents (v : gmap string string) (m : usageState) : usageState :=
  mkState (sessions m) v (rootInclusive m) (rootSessionID m)
    (rootAgentName m) (activeSessionID m).

Definition set_rootInclusive (v : option Usage) (m : usageState) : usageState :=
  mkState (sessions m) (sessionAgents m) v (rootSessionID m)
    (rootAgentName m) (activeSessionID m).

Definition set_rootSessionID (v : string) (m : usageState) : usageState :=
  mkState (sessions m) (sessionAgents m) (rootInclusive m) v
    (rootAgentName m) (activeSessionID m).

Definition set_rootAgentName (v : string) (m : usageState) : usageState :=
  mkState (sessions m) (sessionAgents m) (rootInclusive m) (rootSessionID m)
    v (activeSessionID m).

Definition set_activeSessionID (v : string) (m : usageState) : usageState :=
  mkState (sessions m) (sessionAgents m) (rootInclusive m) (rootSessionID m)
    (rootAgentName m) v.

(** [SetTokenUsage], lines 80-107: the five [if] statements in order, each
    reading the state the previous ones left. *)
Definition SetTokenUsage (m : usageState) (event : option TokenUsageEvent) : usageState :=
  match event with
  | None => m
  | Some event =>
    let m :=
      if decide (AgentName event ≠ "" ∧ rootAgentName m = "")
      then set_rootAgentName (AgentName event) m else m in
    let m :=
      if decide (SessionID event ≠ "")
      then set_activeSessionID (SessionID event) m else m in
    let m :=
      if decide (SelfUsage event ≠ None ∧ SessionID event ≠ "")
      then set_sessions (<[SessionID event := cloneUsage (SelfUsage event)]> (sessions m)) m
      else m in
    let m :=
      if decide (AgentName event ≠ "" ∧ SessionID event ≠ "")
      then set_sessionAgents (<[SessionID event := AgentName event]> (sessionAgents m)) m
      else m in
    if decide (AgentName event = rootAgentName m ∧ InclusiveUsage event ≠ None)
    then
      let m := set_rootInclusive (cloneUsage (InclusiveUsage event)) m in
      if decide (SessionID event ≠ "")
      then set_rootSessionID (SessionID event) m else m
    else m
  end.

(** [currentSessionUsage], lines 316-321. *)
Definition currentSessionUsage (m : usageState) : option Usage :=
  if decide (activeSessionID m = "") then None
  else usageAt (sessions m) (activeSessionID m).

(** [mergeUsageTotals], lines 323-338. *)
Definition mergeUsageTotals (base delta : option Usage) : option Usage :=
  match base, delta with
  | None, _ => cloneUsage delta
  | Some b, None => Some b
  | Some b, Some d =>
    Some (mkUsage
      (GoInt.add (InputTokens b) (InputTokens d))
      (GoInt.add (OutputTokens b) (OutputTokens d))
      (GoInt.add (ContextLength b) (ContextLength d))
      (if ContextLimit d >? ContextLimit b then ContextLimit d else ContextLimit b)
      (Cost b + Cost d)%float)
  end.

(** [computeTeamTotals], lines 301-314. *)
Definition computeTeamTotals (m : usageState) : option Usage :=
  let base := cloneUsage (rootInclusive m) in
  let active := currentSessionUsage m in
  match base with
  | None => cloneUsage active
  | Some _ =>
    if decide (active ≠ None ∧ activeSessionID m ≠ "" ∧ activeSessionID m ≠ rootSessionID m)
    then mergeUsageTotals base active
    else base
  end.

(** [renderTotals], lines 284-299: the label and the totals handed to the
    rendering code. *)
Definition renderTotals (m : usageState) : string * Usage :=
  let totals := computeTeamTotals m in
  let totals := match totals with None => zeroUsage | Some t => t end in
  let label :=
    match rootInclusive m with
    | None => "Session Total"
    | Some _ =>
      if decide (activeSessionID m ≠ "" ∧ activeSessionID m ≠ rootSessionID m)
      then "Team Total (incl. active child)"
      else "Team Total"
    end%string in
  (label, totals).

(** [subtractUsage], lines 408-428.  The three updates of [base] in the
    order of the source; [ContextLength] reads the fields just written. *)
Definition subtractUsage (base delta : option Usage) : option Usage :=
  match base, delta with
  | Some b, Some d =>
    let input := GoInt.sub (InputTokens b) (InputTokens d) in
    let input := if input <? 0 then 0 else input in
    let output := GoInt.sub (OutputTokens b) (OutputTokens d) in
    let output := if output <? 0 then 0 else output in
    let length := GoInt.add input output in
    let cost := (Cost b - Cost d)%float in
    let cost := if (cost <? 0)%float then 0%float else cost in
    Some (mkUsage input output length (ContextLimit b) cost)
  | _, _ => base
  end.

(** [computeRootExclusiveUsage], lines 392-406.  [order] is the order in
    which the [range] loop visits [m.usageState.sessions]. *)
Definition computeRootExclusiveUsage (m : usageState)
    (order : list (string * option Usage)) : option Usage :=
  match rootInclusive m with
  | None => None
  | Some _ =>
    fold_left
      (λ exclusive '(id, usage),
         if decide (id = rootSessionID m ∨ usage = None) then exclusive
         else subtractUsage exclusive usage)
      order (cloneUsage (rootInclusive m))
  end.

(** [rootSessionBlock], lines 378-390. *)
Definition rootSessionBlock (m : usageState)
    (order : list (string * option Usage)) : option block :=
  let exclusive := computeRootExclusiveUsage m order in
  match exclusive with
  | None => None
  | Some _ =>
    let name := rootAgentName m in
    let name := if decide (name = "") then "Root"%string else name in
    formatSessionBlock name exclusive
      (bool_decide (activeSessionID m = rootSessionID m))
  end.

(** The body of the loop of [sessionBreakdownLines] over the sorted ids,
    lines 357-373: the block of one session, or nothing. *)
Definition sessionBlock (m : usageState) (id : string) : option block :=
  if decide (id = rootSessionID m) then None
  else
    match usageAt (sessions m) id with
    | None => None
    | Some usage =>
      let agentName := nameAt (sessionAgents m) id in
      let agentName := if decide (agentName = "") then id else agentName in
      formatSessionBlock agentName (Some usage)
        (bool_decide (id = activeSessionID m))
    end.

(** [sessionBreakdownLines], lines 340-376.  [order] is the visit of the
    loop that gathers the ids, [order'] the visit inside
    [computeRootExclusiveUsage]; the [nil] slice and the empty slice are
    both the empty list. *)
Definition sessionBreakdownLines (m : usageState)
    (order order' : list (string * option Usage)) : list block :=
  if decide (sessions m = ∅) then []
  else
    let ids := fold_left (λ ids '(id, _), ids ++ [id]) order [] in
    let ids := sortStrings ids in
    let lines :=
      match rootSessionBlock m order' with
      | Some rootBlock => [rootBlock]
      | None => []
      end in
    fold_left
      (λ lines id,
         match sessionBlock m id with
         | Some b => lines ++ [b]
         | None => lines
         end)
      ids lines.

End SidebarGo.

(** ** Revision [src/unnamed/part_001] *)

Module Part001.

Record usageState : Type := mkState {
  sessions : gmap string (option Usage);
  inclusive : gmap string (option Usage);
  sessionAgents : gmap string string;
  rootInclusive : option Usage;
  rootSessionID : string;
  rootAgentName : string;
  activeSessionID : string
}.

(** The [usageState] built by [New]. *)
Definition New : usageState := mkState ∅ ∅ ∅ None "" "" "".

Definition set_sessions (v : gmap string (option Usage)) (m : usageState) : usageState :=
  mkState v (inclusive m) (sessionAgents m) (rootInclusive m) (rootSessionID m)
    (rootAgentName m) (activeSessionID m).

Definition set_inclusive (v : gmap string (option Usage)) (m : usageState) : usageState :=
  mkState (sessions m) v (sessionAgents m) (rootInclusive m) (rootSessionID m)
    (rootAgentName m) (activeSessionID m).

Definition set_sessionAgents (v : gmap string string) (m : usageState) : usageState :=
  mkState (sessions m) (inclusive m) v (rootInclusive m) (rootSessionID m)
    (rootAgentName m) (activeSessionID m).

Definition set_rootInclusive (v : option Usage) (m : usageState) : usageState :=
  mkState (sessions m) (inclusive m) (sessionAgents m) v (rootSessionID m)
    (rootAgentName m) (activeSessionID m).

Definition set_rootSessionID (v : string) (m : usageState) : usageState :=
  mkState (sessions m) (inclusive m) (sessionAgents m) (rootInclusive m) v
    (rootAgentName m) (activeSessionID m).

Definition set_rootAgentName (v : string) (m : usageState) : usageState :=
  mkState (sessions m) (inclusive m) (sessionAgents m) (rootInclusive m)
    (rootSessionID m) v (activeSessionID m).

Definition set_activeSessionID (v : string) (m : usageState) : usageState :=
  mkState (sessions m) (inclusive m) (sessionAgents m) (rootInclusive m)
    (rootSessionID m) (rootAgentName m) v.

(** The legacy fallback at the head of [SetTokenUsage], lines 88-97: the
    values of the locals [selfUsage] and [inclusiveUsage] once it has run. *)
Definition legacyFallback (event : TokenUsageEvent) : option Usage * option Usage :=
  let selfUsage := SelfUsage event in
  let inclusiveUsage := InclusiveUsage event in
  if decide ((selfUsage = None ∨ inclusiveUsage = None) ∧ LegacyUsage event ≠ None)
  then
    let selfUsage :=
      match selfUsage with None => LegacyUsage event | Some _ => selfUsage end in
    let inclusiveUsage :=
      match inclusiveUsage with None => LegacyUsage event | Some _ => inclusiveUsage end in
    (selfUsage, inclusiveUsage)
  else (selfUsage, inclusiveUsage).

(** [SetTokenUsage], lines 82-131. *)
Definition SetTokenUsage (m : usageState) (event : option TokenUsageEvent) : usageState :=
  match event with
  | None => m
  | Some event =>
    let '(selfUsage, inclusiveUsage) := legacyFallback event in
    let m :=
      if decide (AgentName event ≠ "" ∧ rootAgentName m = "")
      then set_rootAgentName (AgentName event) m else m in
    let m :=
      if decide (SessionID event ≠ "")
      then set_activeSessionID (SessionID event) m else m in
    let m :=
      if decide (SessionID event ≠ "")
      then
        let snapshot := cloneUsage selfUsage in
        let snapshot :=
          match snapshot with None => cloneUsage inclusiveUsage | Some _ => snapshot end in
        let m :=
          match snapshot with
          | Some _ => set_sessions (<[SessionID event := snapshot]> (sessions m)) m
          | None => m
          end in
        match inclusiveUsage with
        | Some _ =>
          set_inclusive (<[SessionID event := cloneUsage inclusiveUsage]> (inclusive m)) m
        | None => m
        end
      else m in
    let m :=
      if decide (AgentName event ≠ "" ∧ SessionID event ≠ "")
      then set_sessionAgents (<[SessionID event := AgentName event]> (sessionAgents m)) m
      else m in
    if decide (AgentName event = rootAgentName m ∧ inclusiveUsage ≠ None)
    then
      let m := set_rootInclusive (cloneUsage inclusiveUsage) m in
      if decide (SessionID event ≠ "")
      then set_rootSessionID (SessionID event) m else m
    else m
  end.

(** [aggregateSelfUsage], lines 425-443.  [order] is the order in which the
    [range] loop visits [usages]. *)
Definition aggregateSelfUsage (usages : gmap string (option Usage))
    (order : list (string * option Usage)) : option Usage :=
  if decide (usages = ∅) then None
  else
    Some (fold_left
      (λ total '(_, usage),
         match usage with
         | None => total
         | Some usage =>
           mkUsage
             (GoInt.add (InputTokens total) (InputTokens usage))
             (GoInt.add (OutputTokens total) (OutputTokens usage))
             (GoInt.add (ContextLength total) (ContextLength usage))
             (if ContextLimit usage >? ContextLimit total
              then ContextLimit usage else ContextLimit total)
             (Cost total + Cost usage)%float
         end)
      order zeroUsage).

(** [computeTeamTotals], lines 335-342. *)
Definition computeTeamTotals (m : usageState)
    (order : list (string * option Usage)) : option Usage :=
  match aggregateSelfUsage (sessions m) order with
  | Some totals => Some totals
  | None => cloneUsage (rootInclusive m)
  end.

(** [renderTotals], lines 324-333. *)
Definition renderTotals (m : usageState)
    (order : list (string * option Usage)) : string * Usage :=
  let totals := computeTeamTotals m order in
  let totals := match totals with None => zeroUsage | Some t => t end in
  ("Team Total"%string, totals).

(** [rootSessionBlock], lines 396-412. *)
Definition rootSessionBlock (m : usageState) : option block :=
  let rootUsage := usageAt (sessions m) (rootSessionID m) in
  let rootUsage := match rootUsage with None => rootInclusive m | Some _ => rootUsage end in
  match rootUsage with
  | None => None
  | Some _ =>
    let name := rootAgentName m in
    let name := if decide (name = "") then "Root"%string else name in
    formatSessionBlock name (cloneUsage rootUsage)
      (bool_decide (activeSessionID m = rootSessionID m))
  end.

(** The body of the loop of [sessionBreakdownLines] over the sorted ids,
    lines 371-391: the block of one session, or nothing. *)
Definition sessionBlock (m : usageState) (id : string) : option block :=
  if decide (id = rootSessionID m) then None
  else
    let usage := usageAt (sessions m) id in
    let usage := match usage with None => usageAt (inclusive m) id | Some _ => usage end in
    match usage with
    | None => None
    | Some _ =>
      let agentName := nameAt (sessionAgents m) id in
      let agentName := if decide (agentName = "") then id else agentName in
      formatSessionBlock agentName usage (bool_decide (id = activeSessionID m))
    end.

(** The two loops that gather the ids, lines 345-356: the set [idSet] and
    the slice [ids] after both. *)
Definition gatherIDs (order order' : list (string * option Usage))
    : gset string * list string :=
  let acc :=
    fold_left (λ '(idSet, ids) '(id, _), ({[id]} ∪ idSet, ids ++ [id]))
      order (∅, []) in
  fold_left
    (λ '(idSet, ids) '(id, _),
       if decide (id ∈ idSet) then (idSet, ids)
       else ({[id]} ∪ idSet, ids ++ [id]))
    order' acc.

(** [sessionBreakdownLines], lines 344-394.  [order] is the visit of
    [sessions], [order'] the visit of [inclusive]. *)
Definition sessionBreakdownLines (m : usageState)
    (order order' : list (string * option Usage)) : list block :=
  let ids := snd (gatherIDs order order') in
  if decide (ids = []) then
    match rootSessionBlock m with
    | Some rootBlock => [rootBlock]
    | None => []
    end
  else
    let ids := sortStrings ids in
    let lines :=
      match rootSessionBlock m with
      | Some rootBlock => [rootBlock]
      | None => []
      end in
    fold_left
      (λ lines id,
         match sessionBlock m id with
         | Some b => lines ++ [b]
         | None => lines
         end)
      ids lines.

End Part001.

(** ** [SetTokenUsage] of [part_001] with the pointers written out *)

(** The same function once more, this time with [*runtime.Usage] as an
    address into a heap of structs, to follow which struct the ledger ends
    up pointing to.  [Part001.SetTokenUsage] is what is left of it when
    every pointer is replaced by the struct it points to
    ([SetTokenUsage_values] below). *)
Module Part001Pointers.

(** A pointer [*runtime.Usage] is an [option positive]: [nil] or the address
    of a struct; the heap, a [gmap positive Usage], holds the structs
    allocated so far. *)

Record TokenUsageEvent : Type := mkEvent {
  SessionID : string;
  AgentName : string;
  SelfUsage : option positive;
  InclusiveUsage : option positive;
  LegacyUsage : option positive
}.

Record usageState : Type := mkState {
  sessions : gmap string (option positive);
  inclusive : gmap string (option positive);
  sessionAgents : gmap string string;
  rootInclusive : option positive;
  rootSessionID : string;
  rootAgentName : string;
  activeSessionID : string
}.

Definition set_sessions (v : gmap string (option positive)) (m : usageState) : usageState :=
  mkState v (inclusive m) (sessionAgents m) (rootInclusive m) (rootSessionID m)
    (rootAgentName m) (activeSessionID m).

Definition set_inclusive (v : gmap string (option positive)) (m : usageState) : usageState :=
  mkState (sessions m) v (sessionAgents m) (rootInclusive m) (rootSessionID m)
    (rootAgentName m) (activeSessionID m).

Definition set_sessionAgents (v : gmap string string) (m : usageState) : usageState :=
  mkState (sessions m) (inclusive m) v (rootInclusive m) (rootSessionID m)
    (rootAgentName m) (activeSessionID m).

Definition set_rootInclusive (v : option positive) (m : usageState) : usageState :=
  mkState (sessions m) (inclusive m) (sessionAgents m) v (rootSessionID m)
    (rootAgentName m) (activeSessionID m).

Definition set_rootSessionID (v : string) (m : usageState) : usageState :=
  mkState (sessions m) (inclusive m) (sessionAgents m) (rootInclusive m) v
    (rootAgentName m) (activeSessionID m).

Definition set_rootAgentName (v : string) (m : usageState) : usageState :=
  mkState (sessions m) (inclusive m) (sessionAgents m) (rootInclusive m)
    (rootSessionID m) v (activeSessionID m).

Definition set_activeSessionID (v : string) (m : usageState) : usageState :=
  mkState (sessions m) (inclusive m) (sessionAgents m) (rootInclusive m)
    (rootSessionID m) (rootAgentName m) v.

(** [cloneUsage], lines 316-322: [clone := *u] allocates a struct at an
    address not in use and copies [*u] into it; [&clone] is that address.
    A non-nil pointer of a Go program always points to a struct, so the
    last case does not arise. *)
Definition cloneUsage (h : gmap positive Usage) (u : option positive) : gmap positive Usage * option positive :=
  match u with
  | None => (h, None)
  | Some a =>
    match h !! a with
    | Some c => let clone := fresh (dom h) in (<[clone := c]> h, Some clone)
    | None => (h, None)
    end
  end.

(** Lines 88-97: the locals alias the struct of [event.Usage]. *)
Definition legacyFallback (event : TokenUsageEvent) : option positive * option positive :=
  let selfUsage := SelfUsage event in
  let inclusiveUsage := InclusiveUsage event in
  if decide ((selfUsage = None ∨ inclusiveUsage = None) ∧ LegacyUsage event ≠ None)
  then
    let selfUsage :=
      match selfUsage with None => LegacyUsage event | Some _ => selfUsage end in
    let inclusiveUsage :=
      match inclusiveUsage with None => LegacyUsage event | Some _ => inclusiveUsage end in
    (selfUsage, inclusiveUsage)
  else (selfUsage, inclusiveUsage).

(** Lines 108-118, the body of the second [if event.SessionID != ""]: the
    snapshot filed under the session, and the inclusive snapshot filed
    under it in [inclusive]. *)
Definition storeSession (h : gmap positive Usage) (m : usageState) (sessionID : string)
    (selfUsage inclusiveUsage : option positive) : gmap positive Usage * usageState :=
  let '(h, snapshot) := cloneUsage h selfUsage in
  let '(h, snapshot) :=
    match snapshot with
    | None => cloneUsage h inclusiveUsage
    | Some _ => (h, snapshot)
    end in
  let m :=
    match snapshot with
    | Some _ => set_sessions (<[sessionID := snapshot]> (sessions m)) m
    | None => m
    end in
  match inclusiveUsage with
  | Some _ =>
    let '(h, clone) := cloneUsage h inclusiveUsage in
    (h, set_inclusive (<[sessionID := clone]> (inclusive m)) m)
  | None => (h, m)
  end.

(** Lines 126-129, the body of the last [if]. *)
Definition storeRoot (h : gmap positive Usage) (m : usageState) (sessionID : string)
    (inclusiveUsage : option positive) : gmap positive Usage * usageState :=
  let '(h, clone) := cloneUsage h inclusiveUsage in
  let m := set_rootInclusive clone m in
  (h, if decide (sessionID ≠ "") then set_rootSessionID sessionID m else m).

(** [SetTokenUsage], lines 82-131, on a heap and a ledger of pointers. *)
Definition SetTokenUsage (h : gmap positive Usage) (m : usageState)
    (event : option TokenUsageEvent) : gmap positive Usage * usageState :=
  match event with
  | None => (h, m)
  | Some event =>
    let '(selfUsage, inclusiveUsage) := legacyFallback event in
    let m :=
      if decide (AgentName event ≠ "" ∧ rootAgentName m = "")
      then set_rootAgentName (AgentName event) m else m in
    let m :=
      if decide (SessionID event ≠ "")
      then set_activeSessionID (SessionID event) m else m in
    let '(h, m) :=
      if decide (SessionID event ≠ "")
      then storeSession h m (SessionID event) selfUsage inclusiveUsage
      else (h, m) in
    let m :=
      if decide (AgentName event ≠ "" ∧ SessionID event ≠ "")
      then set_sessionAgents (<[SessionID event := AgentName event]> (sessionAgents m)) m
      else m in
    if decide (AgentName event = rootAgentName m ∧ inclusiveUsage ≠ None)
    then storeRoot h m (SessionID event) inclusiveUsage
    else (h, m)
  end.

(** The [usageState] built by [New]. *)
Definition New : usageState := mkState ∅ ∅ ∅ None "" "" "".

(** The pointer whose struct is filed under the event's session: the first
    one present among the self-usage, the legacy usage and the inclusive
    usage. *)
Definition filedPointer (event : TokenUsageEvent) : option positive :=
  match SelfUsage event, LegacyUsage event, InclusiveUsage event with
  | Some a, _, _ => Some a
  | None, Some a, _ => Some a
  | None, None, u => u
  end.

(** The struct a pointer points to. *)
Definition load (h : gmap positive Usage) (u : option positive) : option Usage :=
  match u with
  | None => None
  | Some a => h !! a
  end.

(** A pointer is [nil] or points to a struct. *)
Definition allocated (h : gmap positive Usage) (u : option positive) : Prop :=
  ∀ a, u = Some a → is_Some (h !! a).

(** The event and the ledger with every pointer replaced by its struct. *)
Definition eventValues (h : gmap positive Usage) (event : TokenUsageEvent) : runtime.TokenUsageEvent :=
  runtime.mkEvent (SessionID event) (AgentName event)
    (load h (SelfUsage event)) (load h (InclusiveUsage event))
    (load h (LegacyUsage event)).

Definition stateValues (h : gmap positive Usage) (m : usageState) : Part001.usageState :=
  Part001.mkState (load h <$> sessions m) (load h <$> inclusive m) (sessionAgents m)
    (load h (rootInclusive m)) (rootSessionID m) (rootAgentName m)
    (activeSessionID m).

(** No pointer of the event or of the ledger dangles. *)
Record eventAllocated (h : gmap positive Usage) (event : TokenUsageEvent) : Prop := mkEventAllocated {
  self_allocated : allocated h (SelfUsage event);
  inclusive_allocated : allocated h (InclusiveUsage event);
  legacy_allocated : allocated h (LegacyUsage event)
}.

Record stateAllocated (h : gmap positive Usage) (m : usageState) : Prop := mkStateAllocated {
  sessions_allocated : ∀ id u, sessions m !! id = Some u → allocated h u;
  inclusives_allocated : ∀ id u, inclusive m !! id = Some u → allocated h u;
  root_allocated : allocated h (rootInclusive m)
}.

End Part001Pointers.

(** ** Notions used by the statements *)

Fixpoint sumZ (l : list Z) : Z :=
  match l with
  | [] => 0
  | x :: l => x + sumZ l
  end.

(** The largest element of a list of limits, counted from zero. *)
Fixpoint maxFromZero (l : list Z) : Z :=
  match l with
  | [] => 0
  | x :: l => Z.max x (maxFromZero l)
  end.

(** The sum of a list of costs, added from left to right as a loop does. *)
Definition sumCost (l : list float) : float := fold_left PrimFloat.add l 0%float.

(** [x] below zero is replaced by zero. *)
Definition clampCost (x : float) : float := if (x <? 0)%float then 0%float else x.

(** The snapshots of a visit of a map, in the order of the visit. *)
Definition visited (order : list (string * option Usage)) : list Usage :=
  omap snd order.

(** The stored snapshots of the entries other than the one of [root], for
    the entries of a visit and for the map itself. *)
Definition childrenOf (root : string) (order : list (string * option Usage)) : list Usage :=
  omap (λ '(id, usage), if decide (id = root) then None else usage) order.

Definition children (root : string) (m : gmap string (option Usage)) : list Usage :=
  childrenOf root (map_to_list m).

(** A list with an optional head. *)
Definition optionalHead {A : Type} (x : option A) : list A :=
  match x with
  | Some a => [a]
  | None => []
  end.

(** The root agent name once an event has been recorded: the first
    non-empty agent name seen. *)
Definition rootAfter (root : string) (event : TokenUsageEvent) : string :=
  if decide (AgentName event ≠ "" ∧ root = "") then AgentName event else root.

(** The locals [selfUsage] and [inclusiveUsage] of [SetTokenUsage] in
    [part_001], after the legacy fallback. *)
Definition selfUsageOf (event : TokenUsageEvent) : option Usage :=
  fst (Part001.legacyFallback event).

Definition inclusiveUsageOf (event : TokenUsageEvent) : option Usage :=
  snd (Part001.legacyFallback event).

(** The events of a sequence, recorded one after the other. *)
Definition SidebarGo_record (m : SidebarGo.usageState)
    (events : list (option TokenUsageEvent)) : SidebarGo.usageState :=
  fold_left SidebarGo.SetTokenUsage events m.

Definition Part001_record (m : Part001.usageState)
    (events : list (option TokenUsageEvent)) : Part001.usageState :=
  fold_left Part001.SetTokenUsage events m.

(** A report of the root agent that names its session: the events on which
    [SetTokenUsage] writes [rootSessionID].  [inclusiveUsage] is the
    inclusive snapshot the revision reads from the event. *)
Definition rootReport (root : string)
    (inclusiveUsage : TokenUsageEvent → option Usage) (event : TokenUsageEvent) : Prop :=
  AgentName event = root ∧ inclusiveUsage event ≠ None ∧ SessionID event ≠ "".


(** What every ledger built by [SetTokenUsage] satisfies: a map entry is
    never [nil] and never filed under the empty session ID, and no root
    session is recorded before a root inclusive snapshot. *)
Record SidebarGo_wf (m : SidebarGo.usageState) : Prop := mkSidebarGoWf {
  SidebarGo_wf_sessions :
    ∀ id v, SidebarGo.sessions m !! id = Some v → v ≠ None ∧ id ≠ "";
  SidebarGo_wf_root :
    SidebarGo.rootInclusive m = None → SidebarGo.rootSessionID m = ""
}.

Record Part001_wf (m : Part001.usageState) : Prop := mkPart001Wf {
  Part001_wf_sessions :
    ∀ id v, Part001.sessions m !! id = Some v → v ≠ None ∧ id ≠ "";
  Part001_wf_inclusive :
    ∀ id v, Part001.inclusive m !! id = Some v → v ≠ None ∧ id ≠ "";
  Part001_wf_root :
    Part001.rootInclusive m = None → Part001.rootSessionID m = ""
}.

(** ** Ledgers used as examples *)

Module Examples.

Definition rootUsage : Usage := mkUsage 1000 500 1500 8000 1.
Definition childUsage : Usage := mkUsage 200 100 300 4000 0.25.
Definition legacyUsage : Usage := mkUsage 10 5 15 100 0.5.

(** The root agent reports its inclusive usage, then a worker its own. *)
Definition rootEvent : TokenUsageEvent :=
  mkEvent "s1" "root" None (Some rootUsage) None.

Definition childEvent : TokenUsageEvent :=
  mkEvent "child1" "worker" (Some childUsage) None None.

(** The root agent reports again, from another session. *)
Definition rootEvent' : TokenUsageEvent :=
  mkEvent "s2" "root" None (Some rootUsage) None.

(** An event without an agent name, recorded before any root is known. *)
Definition anonymousEvent : TokenUsageEvent :=
  mkEvent "s1" "" (Some rootUsage) (Some rootUsage) None.



(** An event of the older shape: the legacy field only. *)
Definition legacyEvent : TokenUsageEvent :=
  mkEvent "s1" "root" None None (Some legacyUsage).

(** An event with an inclusive snapshot, the legacy field, and no
    self-usage. *)
Definition mixedEvent : TokenUsageEvent :=
  mkEvent "s1" "root" None (Some rootUsage) (Some legacyUsage).

Definition sidebarGoLedger : SidebarGo.usageState :=
  SidebarGo_record SidebarGo.New [Some rootEvent; Some childEvent].

Definition part001Ledger : Part001.usageState :=
  Part001_record Part001.New [Some rootEvent; Some childEvent].

End Examples.

(** A root that costs 1 and two workers that cost (the [float64] nearest
    to) 0.1 and 0.2, written in hexadecimal so that the literals are
    exact. *)
Module CostExample.

Definition rootEvent : TokenUsageEvent :=
  mkEvent "s1" "root" None (Some (mkUsage 1000 500 1500 8000 1)) None.

Definition workerA : TokenUsageEvent :=
  mkEvent "a" "alice" (Some (mkUsage 100 50 150 4000 0x1.999999999999ap-4)) None None.

Definition workerB : TokenUsageEvent :=
  mkEvent "b" "bob" (Some (mkUsage 200 100 300 4000 0x1.999999999999ap-3)) None None.

Definition ledger : SidebarGo.usageState :=
  SidebarGo_record SidebarGo.New [Some rootEvent; Some workerA; Some workerB].

End CostExample.

(** A root whose inclusive cost is (the [float64] nearest to) 0.135 and two
    workers that cost 0.05 and 0.01, in hexadecimal as above. *)
Module CentExample.

Definition rootEvent : TokenUsageEvent :=
  mkEvent "s1" "root" None (Some (mkUsage 1000 500 1500 8000 0x1.147ae147ae148p-3)) None.

Definition workerA : TokenUsageEvent :=
  mkEvent "a" "alice" (Some (mkUsage 100 50 150 4000 0x1.999999999999ap-5)) None None.

Definition workerB : TokenUsageEvent :=
  mkEvent "b" "bob" (Some (mkUsage 200 100 300 4000 0x1.47ae147ae147bp-7)) None None.

Definition ledger : SidebarGo.usageState :=
  SidebarGo_record SidebarGo.New [Some rootEvent; Some workerA; Some workerB].

(** One visit of the [sessions] map of the ledger. *)
Definition visit : list (string * option Usage) :=
  map_to_list (SidebarGo.sessions ledger).

End CentExample.

(** A heap with one struct, and an event of the root agent that points to
    it as its inclusive usage. *)
Module PointerExample.

Definition heap : gmap positive Usage := {[ 1%positive := Examples.rootUsage ]}.

Definition event : Part001Pointers.TokenUsageEvent :=
  Part001Pointers.mkEvent "s1" "root" None (Some 1%positive) None.

End PointerExample.

(** ** Further notions: ledgers built by ingestion *)

(** What every ledger that [SetTokenUsage] builds from [New] satisfies, on
    top of [SidebarGo_wf]: a session is given a name only together with a
    session ID, and never the empty name. *)
Record SidebarGo_built (m : SidebarGo.usageState) : Prop := mkSidebarGoBuilt {
  SidebarGo_built_wf : SidebarGo_wf m;
  SidebarGo_built_agents :
    ∀ id name, SidebarGo.sessionAgents m !! id = Some name → name ≠ "" ∧ id ≠ ""
}.

(** The same for [part_001], where in addition every session with an
    inclusive snapshot has a filed snapshot, and so has the root session
    once it is known. *)
Record Part001_built (m : Part001.usageState) : Prop := mkPart001Built {
  Part001_built_wf : Part001_wf m;
  Part001_built_agents :
    ∀ id name, Part001.sessionAgents m !! id = Some name → name ≠ "" ∧ id ≠ "";
  Part001_built_inclusive :
    dom (Part001.inclusive m) ⊆ dom (Part001.sessions m);
  Part001_built_root :
    Part001.rootSessionID m ≠ "" →
    Part001.rootSessionID m ∈ dom (Part001.sessions m)
}.

(** The session IDs that the events of a sequence carry. *)
Definition sessionsOf (events : list (option TokenUsageEvent)) : gset string :=
  list_to_set (omap (λ event, SessionID <$> event) events).

(** The event is one of session [id]. *)
Definition ofSession (id : string) (event : option TokenUsageEvent) : Prop :=
  SessionID <$> event = Some id.

#[global] Instance ofSession_dec (id : string) (event : option TokenUsageEvent) :
  Decision (ofSession id event).
Proof. unfold ofSession. apply _. Defined.

(** The session ID of the last event of a sequence that carries one. *)
Definition lastSession (events : list (option TokenUsageEvent)) : option string :=
  last (filter (λ id, id ≠ "") (omap (λ event, SessionID <$> event) events)).

(** The agent name of the first event of a sequence that carries one. *)
Definition firstAgent (events : list (option TokenUsageEvent)) : option string :=
  head (filter (λ name, name ≠ "") (omap (λ event, AgentName <$> event) events)).

(** The ledger of [part_001] read as a ledger of [sidebar.go]: the same
    fields, without the [inclusive] map that [sidebar.go] does not have. *)
Definition withoutInclusive (m : Part001.usageState) : SidebarGo.usageState :=
  SidebarGo.mkState (Part001.sessions m) (Part001.sessionAgents m)
    (Part001.rootInclusive m) (Part001.rootSessionID m) (Part001.rootAgentName m)
    (Part001.activeSessionID m).

(** An event that carries both a self-usage and an inclusive snapshot, or
    neither an inclusive snapshot nor a legacy usage; [nil] counts as one. *)
Definition plainEvent (event : option TokenUsageEvent) : Prop :=
  ∀ e, event = Some e →
    (SelfUsage e ≠ None ∧ InclusiveUsage e ≠ None)
    ∨ (InclusiveUsage e = None ∧ LegacyUsage e = None).

(** ** The working directory and the layout of the vertical view *)

(** [getCurrentWorkingDirectory], lines 129-141 of [sidebar.go] (the same
    text in the two other revisions).  The arguments are what [os.Getwd] and
    [os.UserHomeDir] return: [None] is a non-nil error.  A Go string is a
    sequence of bytes, and so is a [string]; [strings.HasPrefix(pwd, homeDir)]
    is [String.prefix homeDir pwd] and [pwd[len(homeDir):]] is the substring
    from [len(homeDir)] to the end. *)
Definition getCurrentWorkingDirectory (getwd userHomeDir : option string) : string :=
  match getwd with
  | None => ""
  | Some pwd =>
    match userHomeDir with
    | Some homeDir =>
      if String.prefix homeDir pwd
      then String.append "~"
             (String.substring (String.length homeDir)
                (String.length pwd - String.length homeDir)%nat pwd)
      else pwd
    | None => pwd
    end
  end.

(** The byte 10, the line feed that Go writes ["\n"]. *)
Definition newline : Ascii.ascii :=
  Ascii.Ascii false true false true false false false false.

(** [strings.Count(s, "\n")], as an [int]. *)
Fixpoint countNewlines (s : string) : Z :=
  match s with
  | EmptyString => 0
  | String c s => (if Ascii.eqb c newline then 1 else 0) + countNewlines s
  end.

(** The loop [for range paddingHeight { topContent += "\n" }]. *)
Fixpoint pad (paddingHeight : nat) (topContent : string) : string :=
  match paddingHeight with
  | O => topContent
  | S n => pad n (String.append topContent (String newline EmptyString))
  end.

(** [verticalView], lines 197-207 of [sidebar.go] (222-232 of [part_001]):
    the content handed to the style, from [m.height] and the two parts
    rendered before, [topContent] and [todoContent]. *)
Definition verticalViewContent (height : Z) (topContent todoContent : string) : string :=
  let availableHeight := GoInt.sub height 2 in
  let topHeight := GoInt.add (countNewlines topContent) 1 in
  let todoHeight := GoInt.add (countNewlines todoContent) 1 in
  let paddingHeight :=
    Z.max (GoInt.sub (GoInt.sub availableHeight topHeight) todoHeight) 0 in
  let topContent := pad (Z.to_nat paddingHeight) topContent in
  String.append topContent todoContent.

(** * Properties *)

(** ** Arithmetic of [int] *)

Lemma wrap_in_range (z : Z) : GoInt.in_range z → GoInt.wrap z = z.
Proof.
  unfold GoInt.in_range, GoInt.wrap, GoInt.minInt, GoInt.maxInt. intros Hz.
  rewrite Z.mod_small by lia. lia.
Qed.

Lemma wrap_range (z : Z) : GoInt.in_range (GoInt.wrap z).
Proof.
  unfold GoInt.in_range, GoInt.wrap, GoInt.minInt, GoInt.maxInt.
  pose proof (Z.mod_pos_bound (z - - 2 ^ 63) (2 ^ 64) ltac:(lia)). lia.
Qed.

Lemma wrap_add_l (a b : Z) : GoInt.wrap (GoInt.wrap a + b) = GoInt.wrap (a + b).
Proof.
  unfold GoInt.wrap, GoInt.minInt. f_equal.
  replace ((a - - 2 ^ 63) mod 2 ^ 64 + - 2 ^ 63 + b - - 2 ^ 63)
    with ((a - - 2 ^ 63) mod 2 ^ 64 + b) by lia.
  replace (a + b - - 2 ^ 63) with ((a - - 2 ^ 63) + b) by lia.
  apply Zplus_mod_idemp_l.
Qed.

Lemma counter_in_range (z : Z) : counter z → GoInt.in_range z.
Proof. unfold counter, GoInt.in_range, GoInt.minInt, GoInt.maxInt. lia. Qed.

(** Subtracting one counter from another never overflows, so the clamped
    difference is the larger of zero and the exact difference. *)
Lemma clamped_sub (b d : Z) :
  counter b → counter d →
  (if GoInt.sub b d <? 0 then 0 else GoInt.sub b d) = Z.max 0 (b - d).
Proof.
  unfold counter, GoInt.sub. intros Hb Hd.
  rewrite wrap_in_range
    by (unfold GoInt.in_range, GoInt.minInt, GoInt.maxInt in *; lia).
  destruct (Z.ltb_spec (b - d) 0); lia.
Qed.

Lemma clamped_sub_counter (b d : Z) :
  counter b → counter d → counter (Z.max 0 (b - d)).
Proof. unfold counter. lia. Qed.

(** ** Subtraction of snapshots *)

(** C5: [subtractUsage] on two snapshots with non-negative counters.  The
    input tokens, the output tokens and the cost become base minus delta,
    clamped at zero; the context length becomes the sum, as Go's [+]
    computes it, of the input and output tokens just written (the exact sum
    whenever it fits an [int]), not a difference of context lengths; the
    context limit stays the one of base. *)
Theorem subtractUsage_fields (base delta : Usage) :
  snapshot_ok base → snapshot_ok delta →
  ∃ r, SidebarGo.subtractUsage (Some base) (Some delta) = Some r
    ∧ InputTokens r = Z.max 0 (InputTokens base - InputTokens delta)
    ∧ OutputTokens r = Z.max 0 (OutputTokens base - OutputTokens delta)
    ∧ Cost r = clampCost (Cost base - Cost delta)
    ∧ ContextLength r = GoInt.add (InputTokens r) (OutputTokens r)
    ∧ (InputTokens r + OutputTokens r <= GoInt.maxInt →
       ContextLength r = InputTokens r + OutputTokens r)
    ∧ ContextLimit r = ContextLimit base.
Proof.
  intros [Hbi Hbo _ _] [Hdi Hdo _ _].
  eexists. split; [reflexivity|]. cbn [InputTokens OutputTokens Cost ContextLength ContextLimit].
  rewrite !clamped_sub by assumption.
  repeat split.
  intros Hfit. unfold GoInt.add. apply wrap_in_range.
  pose proof (clamped_sub_counter _ _ Hbi Hdi).
  pose proof (clamped_sub_counter _ _ Hbo Hdo).
  unfold counter, GoInt.in_range, GoInt.minInt, GoInt.maxInt in *. lia.
Qed.

Lemma subtractUsage_fields_witness :
  ∃ r, SidebarGo.subtractUsage
         (Some (mkUsage 50 40 90 200 0.5)) (Some (mkUsage 80 10 7 100 0.25)) = Some r
    ∧ InputTokens r = 0 ∧ OutputTokens r = 30 ∧ ContextLength r = 30
    ∧ ContextLimit r = 200 ∧ Cost r = 0.25%float.
Proof.
  destruct (subtractUsage_fields (mkUsage 50 40 90 200 0.5) (mkUsage 80 10 7 100 0.25))
    as (r & Hr & Hi & Ho & Hc & Hl & Hl' & Hm).
  - split; cbn; unfold counter, GoInt.maxInt; lia.
  - split; cbn; unfold counter, GoInt.maxInt; lia.
  - exists r. cbn in Hi, Ho, Hm, Hc.
    rewrite Hi, Ho in Hl'. cbn in Hl'.
    repeat split; try assumption.
    rewrite Hl'; [reflexivity | unfold GoInt.maxInt; lia].
Defined.

(** ** The root agent's exclusive usage *)

Lemma sumZ_Permutation (l l' : list Z) : l ≡ₚ l' → sumZ l = sumZ l'.
Proof. induction 1; cbn in *; lia. Qed.

Lemma childrenOf_range (root : string) (m : gmap string (option Usage))
    (order : list (string * option Usage)) :
  range_order m order → childrenOf root order ≡ₚ children root m.
Proof. unfold range_order, children, childrenOf. intros ->. reflexivity. Qed.

Lemma sumZ_counters (l : list Usage) :
  Forall (λ u, counter (InputTokens u)) l → sumZ (InputTokens <$> l) >= 0.
Proof.
  induction 1 as [|u l Hu _ IHl]; cbn; [lia|]. unfold counter in Hu. lia.
Qed.

(** The loop of [computeRootExclusiveUsage] never loses its accumulator. *)
Lemma exclusive_loop_some (root : string) (order : list (string * option Usage))
    (e : Usage) :
  is_Some (fold_left
    (λ exclusive '(id, usage),
       if decide (id = root ∨ usage = None) then exclusive
       else SidebarGo.subtractUsage exclusive usage)
    order (Some e)).
Proof.
  revert e. induction order as [|[id usage] order IH]; intros e; cbn; [by eexists|].
  destruct (decide (id = root ∨ usage = None)) as [|Hno]; [apply IH|].
  destruct usage as [d|]; [|tauto]. cbn. apply IH.
Qed.

(** As long as the children together ask for no more input tokens than the
    accumulator holds, the loop subtracts exactly. *)
Lemma exclusive_loop_input (root : string) (order : list (string * option Usage))
    (e : Usage) :
  Forall (λ u, counter (InputTokens u)) (childrenOf root order) →
  counter (InputTokens e) →
  sumZ (InputTokens <$> childrenOf root order) <= InputTokens e →
  ∃ e', fold_left
      (λ exclusive '(id, usage),
         if decide (id = root ∨ usage = None) then exclusive
         else SidebarGo.subtractUsage exclusive usage)
      order (Some e) = Some e'
    ∧ InputTokens e' = InputTokens e - sumZ (InputTokens <$> childrenOf root order).
Proof.
  revert e. induction order as [|[id usage] order IH]; intros e Hall He Hsum.
  - exists e. cbn. split; [reflexivity | lia].
  - cbn [fold_left]. cbn in Hall, Hsum |- *.
    destruct (decide (id = root ∨ usage = None)) as [Hskip|Hno].
    + assert (childrenOf root ((id, usage) :: order) = childrenOf root order) as Heq.
      { cbn. destruct (decide (id = root)); [done|].
        destruct Hskip as [?| ->]; done. }
      cbn in Heq. rewrite Heq in Hall, Hsum |- *. by apply IH.
    + destruct usage as [d|]; [|tauto].
      destruct (decide (id = root)); [tauto|].
      cbn in Hall, Hsum |- *.
      apply Forall_cons in Hall as [Hd Hall].
      assert (sumZ (InputTokens <$> childrenOf root order) >= 0) as Hpos.
      { by apply sumZ_counters. }
      rewrite clamped_sub by assumption.
      set (e1 := mkUsage _ _ _ _ _).
      destruct (IH e1) as (e' & Hfold & Hin); [assumption| | |].
      * subst e1. cbn. apply clamped_sub_counter; assumption.
      * subst e1. cbn. unfold counter, childrenOf in *. lia.
      * exists e'. split; [exact Hfold|]. rewrite Hin. subst e1. cbn.
        unfold counter, childrenOf in *. lia.
Qed.

(** C2: [computeRootExclusiveUsage] returns nothing exactly when there is
    no root inclusive snapshot; and when the inclusive input tokens cover the
    input tokens stored for all sessions other than the root's, so that no
    subtraction is clamped, the exclusive input tokens plus that sum are the
    inclusive input tokens, whatever the order in which the map is visited. *)
Theorem root_exclusive_consistency (m : SidebarGo.usageState)
    (order : list (string * option Usage)) :
  range_order (SidebarGo.sessions m) order →
  (SidebarGo.computeRootExclusiveUsage m order = None
     ↔ SidebarGo.rootInclusive m = None)
  ∧ ∀ inclusive,
      SidebarGo.rootInclusive m = Some inclusive →
      counter (InputTokens inclusive) →
      Forall (λ u, counter (InputTokens u))
        (children (SidebarGo.rootSessionID m) (SidebarGo.sessions m)) →
      sumZ (InputTokens <$> children (SidebarGo.rootSessionID m) (SidebarGo.sessions m))
        <= InputTokens inclusive →
      ∃ exclusive,
        SidebarGo.computeRootExclusiveUsage m order = Some exclusive
        ∧ InputTokens exclusive
            + sumZ (InputTokens <$> children (SidebarGo.rootSessionID m) (SidebarGo.sessions m))
          = InputTokens inclusive.
Proof.
  intros Horder. unfold SidebarGo.computeRootExclusiveUsage. split.
  - destruct (SidebarGo.rootInclusive m) as [r|]; [|done]. cbn.
    destruct (exclusive_loop_some (SidebarGo.rootSessionID m) order r) as [e He].
    rewrite He. split; discriminate.
  - intros r Hr Hcounter Hall Hsum. rewrite Hr. cbn.
    pose proof (childrenOf_range (SidebarGo.rootSessionID m) _ _ Horder) as Hperm.
    destruct (exclusive_loop_input (SidebarGo.rootSessionID m) order r)
      as (e' & Hfold & Hin).
    + by rewrite Hperm.
    + assumption.
    + by rewrite (sumZ_Permutation _ _ (fmap_Permutation InputTokens _ _ Hperm)).
    + exists e'. split; [exact Hfold|].
      rewrite Hin, (sumZ_Permutation _ _ (fmap_Permutation InputTokens _ _ Hperm)). lia.
Qed.

Lemma root_exclusive_consistency_witness :
  ∃ exclusive,
    SidebarGo.computeRootExclusiveUsage Examples.sidebarGoLedger
      (map_to_list (SidebarGo.sessions Examples.sidebarGoLedger)) = Some exclusive
    ∧ InputTokens exclusive + 200 = 1000.
Proof.
  destruct (root_exclusive_consistency Examples.sidebarGoLedger
              (map_to_list (SidebarGo.sessions Examples.sidebarGoLedger)))
    as [_ Hsum]; [unfold range_order; reflexivity|].
  assert (children (SidebarGo.rootSessionID Examples.sidebarGoLedger)
            (SidebarGo.sessions Examples.sidebarGoLedger) = [Examples.childUsage])
    as Hchildren by (vm_compute; reflexivity).
  rewrite Hchildren in Hsum.
  apply (Hsum Examples.rootUsage).
  - vm_compute. reflexivity.
  - cbn. unfold counter, GoInt.maxInt. lia.
  - constructor; [|constructor]. cbn. unfold counter, GoInt.maxInt. lia.
  - cbn. lia.
Defined.

(** ** Ingestion, field by field *)

(** What [SetTokenUsage] of [sidebar.go] leaves in each field. *)
Section SidebarGo_fields.
Import SidebarGo.
Variables (m : usageState) (event : TokenUsageEvent).

Lemma SidebarGo_rootAgentName :
  rootAgentName (SetTokenUsage m (Some event)) = rootAfter (rootAgentName m) event.
Proof.
  unfold SetTokenUsage, rootAfter. repeat case_decide; reflexivity.
Qed.

Lemma SidebarGo_activeSessionID :
  activeSessionID (SetTokenUsage m (Some event)) =
    if decide (SessionID event ≠ "") then SessionID event else activeSessionID m.
Proof. unfold SetTokenUsage. repeat case_decide; reflexivity. Qed.

Lemma SidebarGo_sessions :
  sessions (SetTokenUsage m (Some event)) =
    if decide (SelfUsage event ≠ None ∧ SessionID event ≠ "")
    then <[SessionID event := cloneUsage (SelfUsage event)]> (sessions m)
    else sessions m.
Proof. unfold SetTokenUsage. repeat case_decide; reflexivity. Qed.

Lemma SidebarGo_sessionAgents :
  sessionAgents (SetTokenUsage m (Some event)) =
    if decide (AgentName event ≠ "" ∧ SessionID event ≠ "")
    then <[SessionID event := AgentName event]> (sessionAgents m)
    else sessionAgents m.
Proof. unfold SetTokenUsage. repeat case_decide; reflexivity. Qed.

Lemma SidebarGo_rootInclusive :
  rootInclusive (SetTokenUsage m (Some event)) =
    if decide (AgentName event = rootAfter (rootAgentName m) event
               ∧ InclusiveUsage event ≠ None)
    then cloneUsage (InclusiveUsage event)
    else rootInclusive m.
Proof.
  unfold SetTokenUsage, rootAfter.
  repeat case_decide; cbn in *; try reflexivity; tauto.
Qed.

Lemma SidebarGo_rootSessionID :
  rootSessionID (SetTokenUsage m (Some event)) =
    if decide (AgentName event = rootAfter (rootAgentName m) event
               ∧ InclusiveUsage event ≠ None ∧ SessionID event ≠ "")
    then SessionID event
    else rootSessionID m.
Proof.
  unfold SetTokenUsage, rootAfter.
  repeat case_decide; cbn in *; try reflexivity; tauto.
Qed.

End SidebarGo_fields.

(** The legacy fallback, case by case: a field that is present is kept, a
    field that is absent is replaced by the legacy usage. *)
Lemma selfUsageOf_cases (event : TokenUsageEvent) :
  selfUsageOf event =
    match SelfUsage event with
    | Some u => Some u
    | None => LegacyUsage event
    end.
Proof.
  unfold selfUsageOf, Part001.legacyFallback.
  destruct (SelfUsage event), (InclusiveUsage event), (LegacyUsage event);
    case_decide; cbn; try reflexivity; intuition congruence.
Qed.

Lemma inclusiveUsageOf_cases (event : TokenUsageEvent) :
  inclusiveUsageOf event =
    match InclusiveUsage event with
    | Some u => Some u
    | None => LegacyUsage event
    end.
Proof.
  unfold inclusiveUsageOf, Part001.legacyFallback.
  destruct (SelfUsage event), (InclusiveUsage event), (LegacyUsage event);
    case_decide; cbn; try reflexivity; intuition congruence.
Qed.

(** What [SetTokenUsage] of [part_001] leaves in each field. *)
Section Part001_fields.
Import Part001.
Variables (m : usageState) (event : TokenUsageEvent).

Lemma Part001_rootAgentName :
  rootAgentName (SetTokenUsage m (Some event)) = rootAfter (rootAgentName m) event.
Proof.
  unfold SetTokenUsage, rootAfter. destruct (legacyFallback event) as [[s|] [i|]];
    repeat case_decide; reflexivity.
Qed.

Lemma Part001_activeSessionID :
  activeSessionID (SetTokenUsage m (Some event)) =
    if decide (SessionID event ≠ "") then SessionID event else activeSessionID m.
Proof.
  unfold SetTokenUsage. destruct (legacyFallback event) as [[s|] [i|]];
    repeat case_decide; reflexivity.
Qed.

Lemma Part001_sessions :
  sessions (SetTokenUsage m (Some event)) =
    if decide (SessionID event ≠ "")
    then
      match selfUsageOf event, inclusiveUsageOf event with
      | Some u, _ => <[SessionID event := Some u]> (sessions m)
      | None, Some u => <[SessionID event := Some u]> (sessions m)
      | None, None => sessions m
      end
    else sessions m.
Proof.
  unfold SetTokenUsage, selfUsageOf, inclusiveUsageOf.
  destruct (legacyFallback event) as [[s|] [i|]];
    repeat case_decide; reflexivity.
Qed.

Lemma Part001_inclusive :
  inclusive (SetTokenUsage m (Some event)) =
    if decide (SessionID event ≠ "")
    then
      match inclusiveUsageOf event with
      | Some u => <[SessionID event := Some u]> (inclusive m)
      | None => inclusive m
      end
    else inclusive m.
Proof.
  unfold SetTokenUsage, inclusiveUsageOf.
  destruct (legacyFallback event) as [[s|] [i|]];
    repeat case_decide; reflexivity.
Qed.

Lemma Part001_sessionAgents :
  sessionAgents (SetTokenUsage m (Some event)) =
    if decide (AgentName event ≠ "" ∧ SessionID event ≠ "")
    then <[SessionID event := AgentName event]> (sessionAgents m)
    else sessionAgents m.
Proof.
  unfold SetTokenUsage. destruct (legacyFallback event) as [[s|] [i|]];
    repeat case_decide; reflexivity.
Qed.

Lemma Part001_rootInclusive :
  rootInclusive (SetTokenUsage m (Some event)) =
    if decide (AgentName event = rootAfter (rootAgentName m) event
               ∧ inclusiveUsageOf event ≠ None)
    then inclusiveUsageOf event
    else rootInclusive m.
Proof.
  unfold SetTokenUsage, rootAfter, inclusiveUsageOf.
  destruct (legacyFallback event) as [[s|] [i|]];
    repeat case_decide; cbn in *; try reflexivity; intuition congruence.
Qed.

Lemma Part001_rootSessionID :
  rootSessionID (SetTokenUsage m (Some event)) =
    if decide (AgentName event = rootAfter (rootAgentName m) event
               ∧ inclusiveUsageOf event ≠ None ∧ SessionID event ≠ "")
    then SessionID event
    else rootSessionID m.
Proof.
  unfold SetTokenUsage, rootAfter, inclusiveUsageOf.
  destruct (legacyFallback event) as [[s|] [i|]];
    repeat case_decide; cbn in *; try reflexivity; intuition congruence.
Qed.

End Part001_fields.

(** ** Team totals *)

Lemma maxFromZero_Permutation (l l' : list Z) :
  l ≡ₚ l' → maxFromZero l = maxFromZero l'.
Proof. induction 1; cbn in *; lia. Qed.

Lemma maxFromZero_nonneg (l : list Z) : 0 <= maxFromZero l.
Proof. induction l; cbn; lia. Qed.

(** For limits that are not negative, [maxFromZero] is the maximum of the
    list: one of its elements, and no smaller than any of them. *)
Lemma maxFromZero_is_max (l : list Z) :
  l ≠ [] → Forall (λ x, 0 <= x) l →
  maxFromZero l ∈ l ∧ Forall (λ x, x <= maxFromZero l) l.
Proof.
  induction l as [|x l IH]; [done|]. intros _ Hall.
  apply Forall_cons in Hall as [Hx Hall]. cbn.
  destruct l as [|y l].
  - cbn. rewrite Z.max_l by lia. split; [apply list_elem_of_here|].
    constructor; [lia | constructor].
  - destruct IH as [Hin Hle]; [done | assumption |].
    split.
    + destruct (Z.max_spec x (maxFromZero (y :: l))) as [[_ ->]|[_ ->]];
        [by apply list_elem_of_further | apply list_elem_of_here].
    + constructor; [lia|].
      eapply Forall_impl; [exact Hle|]. cbn. intros z Hz. lia.
Qed.

Lemma visited_range (m : gmap string (option Usage))
    (order : list (string * option Usage)) :
  range_order m order → visited order ≡ₚ stored m.
Proof. unfold range_order, visited, stored. intros ->. reflexivity. Qed.

(** The loop of [aggregateSelfUsage], started from any running total. *)
Lemma aggregate_loop (order : list (string * option Usage)) (total : Usage) :
  GoInt.in_range (InputTokens total) →
  GoInt.in_range (OutputTokens total) →
  GoInt.in_range (ContextLength total) →
  0 <= ContextLimit total →
  let r :=
    fold_left
      (λ total '(_, usage),
         match usage with
         | None => total
         | Some usage =>
           mkUsage
             (GoInt.add (InputTokens total) (InputTokens usage))
             (GoInt.add (OutputTokens total) (OutputTokens usage))
             (GoInt.add (ContextLength total) (ContextLength usage))
             (if ContextLimit usage >? ContextLimit total
              then ContextLimit usage else ContextLimit total)
             (Cost total + Cost usage)%float
         end)
      order total in
  InputTokens r = GoInt.wrap (InputTokens total + sumZ (InputTokens <$> visited order))
  ∧ OutputTokens r = GoInt.wrap (OutputTokens total + sumZ (OutputTokens <$> visited order))
  ∧ ContextLength r
      = GoInt.wrap (ContextLength total + sumZ (ContextLength <$> visited order))
  ∧ ContextLimit r = Z.max (ContextLimit total) (maxFromZero (ContextLimit <$> visited order))
  ∧ Cost r = fold_left PrimFloat.add (Cost <$> visited order) (Cost total).
Proof.
  revert total. induction order as [|[id [u|]] order IH]; intros total Hi Ho Hl Hm.
  - cbn. rewrite !Z.add_0_r, !wrap_in_range by assumption.
    repeat split. lia.
  - cbn [fold_left]. cbn zeta.
    set (total' := mkUsage _ _ _ _ _).
    destruct (IH total') as (Ei & Eo & El & Em & Ec);
      try (subst total'; cbn; apply wrap_range).
    { subst total'. cbn. destruct (Z.gtb_spec (ContextLimit u) (ContextLimit total)); lia. }
    rewrite Ei, Eo, El, Em, Ec. subst total'. cbn.
    unfold GoInt.add. rewrite !wrap_add_l, !Z.add_assoc.
    repeat split. unfold visited.
    destruct (Z.gtb_spec (ContextLimit u) (ContextLimit total)); lia.
  - cbn [fold_left]. cbn zeta. apply IH; assumption.
Qed.

(** C1, as the code has it: whenever the [sessions] map is not empty,
    [computeTeamTotals] of [part_001] returns the field-by-field sum of the
    stored self-usage snapshots: input tokens, output tokens and context
    length are the sums (reduced to an [int] as Go's [+] does, hence exact
    whenever they fit), the context limit is the largest stored limit
    counted from zero, and the cost is the sum of the costs in the order of
    the visit.  When the map is empty it returns a copy of [rootInclusive];
    when that is absent too it returns nothing, and it is [renderTotals]
    that hands the all-zero snapshot to the caller. *)
Theorem team_totals (m : Part001.usageState) (order : list (string * option Usage)) :
  range_order (Part001.sessions m) order →
  (Part001.sessions m ≠ ∅ →
     ∃ t, Part001.computeTeamTotals m order = Some t
       ∧ snd (Part001.renderTotals m order) = t
       ∧ InputTokens t = GoInt.wrap (sumZ (InputTokens <$> stored (Part001.sessions m)))
       ∧ OutputTokens t = GoInt.wrap (sumZ (OutputTokens <$> stored (Part001.sessions m)))
       ∧ ContextLength t = GoInt.wrap (sumZ (ContextLength <$> stored (Part001.sessions m)))
       ∧ ContextLimit t = maxFromZero (ContextLimit <$> stored (Part001.sessions m))
       ∧ Cost t = sumCost (Cost <$> visited order))
  ∧ (Part001.sessions m = ∅ →
       Part001.computeTeamTotals m order = Part001.rootInclusive m
       ∧ snd (Part001.renderTotals m order) = default zeroUsage (Part001.rootInclusive m)).
Proof.
  intros Horder. pose proof (visited_range _ _ Horder) as Hperm.
  unfold Part001.renderTotals, Part001.computeTeamTotals, Part001.aggregateSelfUsage.
  split; intros Hm.
  - destruct (decide (Part001.sessions m = ∅)); [done|].
    eexists. split; [reflexivity|]. split; [reflexivity|].
    destruct (aggregate_loop order zeroUsage) as (Ei & Eo & El & Em & Ec);
      try (cbn; unfold GoInt.in_range, GoInt.minInt, GoInt.maxInt; lia).
    rewrite Ei, Eo, El, Em, Ec. cbn.
    rewrite (sumZ_Permutation _ _ (fmap_Permutation InputTokens _ _ Hperm)).
    rewrite (sumZ_Permutation _ _ (fmap_Permutation OutputTokens _ _ Hperm)).
    rewrite (sumZ_Permutation _ _ (fmap_Permutation ContextLength _ _ Hperm)).
    rewrite (maxFromZero_Permutation _ _ (fmap_Permutation ContextLimit _ _ Hperm)).
    repeat split.
    pose proof (maxFromZero_nonneg (ContextLimit <$> stored (Part001.sessions m))). lia.
  - destruct (decide (Part001.sessions m = ∅)); [|done].
    destruct (Part001.rootInclusive m); done.
Qed.

Lemma team_totals_witness :
  ∃ t, Part001.computeTeamTotals Examples.part001Ledger
         (map_to_list (Part001.sessions Examples.part001Ledger)) = Some t
    ∧ InputTokens t = 1200 ∧ OutputTokens t = 600 ∧ ContextLength t = 1800
    ∧ ContextLimit t = 8000 ∧ Cost t = 1.25%float.
Proof.
  destruct (team_totals Examples.part001Ledger
              (map_to_list (Part001.sessions Examples.part001Ledger)))
    as [Hsum _]; [unfold range_order; reflexivity|].
  destruct Hsum as (t & Ht & _ & Hi & Ho & Hl & Hm & Hc);
    [vm_compute; discriminate|].
  exists t. split; [exact Ht|].
  rewrite Hi, Ho, Hl, Hm, Hc. vm_compute. repeat split.
Defined.

(** C1 as stated fails in two places.  In [part_001], with nothing stored
    and no root inclusive snapshot, [computeTeamTotals] returns nothing; the
    all-zero snapshot is made by [renderTotals].  In [sidebar.go],
    [computeTeamTotals] is not a sum of the stored snapshots at all: it is
    the root inclusive snapshot with the active child's self-usage added. *)
Lemma team_totals_absent :
  Part001.sessions Part001.New = ∅
  ∧ Part001.rootInclusive Part001.New = None
  ∧ Part001.computeTeamTotals Part001.New [] = None
  ∧ snd (Part001.renderTotals Part001.New []) = zeroUsage
  ∧ stored (SidebarGo.sessions Examples.sidebarGoLedger) = [Examples.childUsage]
  ∧ SidebarGo.computeTeamTotals Examples.sidebarGoLedger
      = Some (mkUsage 1200 600 1800 8000 1.25).
Proof. vm_compute. repeat split. Qed.

(** ** Recording events *)

Lemma rootAfter_idem (root : string) (event : TokenUsageEvent) :
  rootAfter (rootAfter root event) event = rootAfter root event.
Proof. unfold rootAfter. repeat case_decide; intuition congruence. Qed.

Lemma rootAfter_known (root : string) (event : TokenUsageEvent) :
  root ≠ "" → rootAfter root event = root.
Proof. unfold rootAfter. intros Hroot. case_decide; tauto. Qed.

Lemma SidebarGo_state_eq (m m' : SidebarGo.usageState) :
  SidebarGo.sessions m = SidebarGo.sessions m' →
  SidebarGo.sessionAgents m = SidebarGo.sessionAgents m' →
  SidebarGo.rootInclusive m = SidebarGo.rootInclusive m' →
  SidebarGo.rootSessionID m = SidebarGo.rootSessionID m' →
  SidebarGo.rootAgentName m = SidebarGo.rootAgentName m' →
  SidebarGo.activeSessionID m = SidebarGo.activeSessionID m' →
  m = m'.
Proof. destruct m, m'; cbn; intros; subst; reflexivity. Qed.

Lemma Part001_state_eq (m m' : Part001.usageState) :
  Part001.sessions m = Part001.sessions m' →
  Part001.inclusive m = Part001.inclusive m' →
  Part001.sessionAgents m = Part001.sessionAgents m' →
  Part001.rootInclusive m = Part001.rootInclusive m' →
  Part001.rootSessionID m = Part001.rootSessionID m' →
  Part001.rootAgentName m = Part001.rootAgentName m' →
  Part001.activeSessionID m = Part001.activeSessionID m' →
  m = m'.
Proof. destruct m, m'; cbn; intros; subst; reflexivity. Qed.

Lemma SidebarGo_record_twice (m : SidebarGo.usageState) (event : option TokenUsageEvent) :
  SidebarGo.SetTokenUsage (SidebarGo.SetTokenUsage m event) event
  = SidebarGo.SetTokenUsage m event.
Proof.
  destruct event as [event|]; [|reflexivity].
  apply SidebarGo_state_eq.
  - rewrite SidebarGo_sessions. case_decide; [|reflexivity].
    rewrite SidebarGo_sessions. case_decide; [|tauto]. apply insert_insert_eq.
  - rewrite SidebarGo_sessionAgents. case_decide; [|reflexivity].
    rewrite SidebarGo_sessionAgents. case_decide; [|tauto]. apply insert_insert_eq.
  - rewrite SidebarGo_rootInclusive, SidebarGo_rootAgentName, rootAfter_idem.
    case_decide as Hroot; [|reflexivity].
    rewrite SidebarGo_rootInclusive. case_decide; tauto.
  - rewrite SidebarGo_rootSessionID, SidebarGo_rootAgentName, rootAfter_idem.
    case_decide as Hroot; [|reflexivity].
    rewrite SidebarGo_rootSessionID. case_decide; tauto.
  - rewrite SidebarGo_rootAgentName, SidebarGo_rootAgentName. apply rootAfter_idem.
  - rewrite SidebarGo_activeSessionID. case_decide; [|reflexivity].
    rewrite SidebarGo_activeSessionID. case_decide; tauto.
Qed.

Lemma Part001_record_twice (m : Part001.usageState) (event : option TokenUsageEvent) :
  Part001.SetTokenUsage (Part001.SetTokenUsage m event) event
  = Part001.SetTokenUsage m event.
Proof.
  destruct event as [event|]; [|reflexivity].
  apply Part001_state_eq.
  - rewrite Part001_sessions. case_decide; [|reflexivity].
    rewrite Part001_sessions. case_decide; [|tauto].
    destruct (selfUsageOf event), (inclusiveUsageOf event);
      try reflexivity; apply insert_insert_eq.
  - rewrite Part001_inclusive. case_decide; [|reflexivity].
    rewrite Part001_inclusive. case_decide; [|tauto].
    destruct (inclusiveUsageOf event); try reflexivity; apply insert_insert_eq.
  - rewrite Part001_sessionAgents. case_decide; [|reflexivity].
    rewrite Part001_sessionAgents. case_decide; [|tauto]. apply insert_insert_eq.
  - rewrite Part001_rootInclusive, Part001_rootAgentName, rootAfter_idem.
    case_decide as Hroot; [|reflexivity].
    rewrite Part001_rootInclusive. case_decide; tauto.
  - rewrite Part001_rootSessionID, Part001_rootAgentName, rootAfter_idem.
    case_decide as Hroot; [|reflexivity].
    rewrite Part001_rootSessionID. case_decide; tauto.
  - rewrite Part001_rootAgentName, Part001_rootAgentName. apply rootAfter_idem.
  - rewrite Part001_activeSessionID. case_decide; [|reflexivity].
    rewrite Part001_activeSessionID. case_decide; tauto.
Qed.

(** C9: recording an event twice in immediate succession leaves the ledger
    in the state that recording it once leaves, in both revisions: every
    field is overwritten, none is accumulated. *)
Theorem record_twice :
  (∀ (m : SidebarGo.usageState) (event : option TokenUsageEvent),
     SidebarGo_record m [event; event] = SidebarGo_record m [event])
  ∧ (∀ (m : Part001.usageState) (event : option TokenUsageEvent),
       Part001_record m [event; event] = Part001_record m [event]).
Proof.
  split; intros m event; cbn.
  - apply SidebarGo_record_twice.
  - apply Part001_record_twice.
Qed.

Lemma SidebarGo_root_identity (events : list (option TokenUsageEvent))
    (m : SidebarGo.usageState) :
  SidebarGo.rootAgentName m ≠ "" →
  SidebarGo.rootAgentName (SidebarGo_record m events) = SidebarGo.rootAgentName m
  ∧ (SidebarGo.rootSessionID (SidebarGo_record m events) = SidebarGo.rootSessionID m
     ∨ ∃ e, Some e ∈ events
         ∧ rootReport (SidebarGo.rootAgentName m) InclusiveUsage e
         ∧ SidebarGo.rootSessionID (SidebarGo_record m events) = SessionID e).
Proof.
  revert m. induction events as [|[e|] events IH]; intros m Hroot.
  - cbn. auto.
  - cbn [SidebarGo_record fold_left].
    fold (SidebarGo_record (SidebarGo.SetTokenUsage m (Some e)) events).
    pose proof (SidebarGo_rootAgentName m e) as Hname.
    rewrite rootAfter_known in Hname by assumption.
    destruct (IH (SidebarGo.SetTokenUsage m (Some e))) as [Hn Hs];
      [congruence|].
    rewrite Hname in Hn, Hs. split; [exact Hn|].
    destruct Hs as [Hs|(e' & Hin & Hrep & Hs)].
    + rewrite Hs, SidebarGo_rootSessionID, rootAfter_known by assumption.
      case_decide as Hrep; [|by left].
      right. exists e. split; [apply list_elem_of_here | done].
    + right. exists e'. split; [by apply list_elem_of_further | done].
  - cbn [SidebarGo_record fold_left]. cbn [SidebarGo.SetTokenUsage].
    fold (SidebarGo_record m events).
    destruct (IH m Hroot) as [Hn Hs]. split; [exact Hn|].
    destruct Hs as [Hs|(e' & Hin & Hrep & Hs)]; [by left|].
    right. exists e'. split; [by apply list_elem_of_further | done].
Qed.

Lemma Part001_root_identity (events : list (option TokenUsageEvent))
    (m : Part001.usageState) :
  Part001.rootAgentName m ≠ "" →
  Part001.rootAgentName (Part001_record m events) = Part001.rootAgentName m
  ∧ (Part001.rootSessionID (Part001_record m events) = Part001.rootSessionID m
     ∨ ∃ e, Some e ∈ events
         ∧ rootReport (Part001.rootAgentName m) inclusiveUsageOf e
         ∧ Part001.rootSessionID (Part001_record m events) = SessionID e).
Proof.
  revert m. induction events as [|[e|] events IH]; intros m Hroot.
  - cbn. auto.
  - cbn [Part001_record fold_left].
    fold (Part001_record (Part001.SetTokenUsage m (Some e)) events).
    pose proof (Part001_rootAgentName m e) as Hname.
    rewrite rootAfter_known in Hname by assumption.
    destruct (IH (Part001.SetTokenUsage m (Some e))) as [Hn Hs];
      [congruence|].
    rewrite Hname in Hn, Hs. split; [exact Hn|].
    destruct Hs as [Hs|(e' & Hin & Hrep & Hs)].
    + rewrite Hs, Part001_rootSessionID, rootAfter_known by assumption.
      case_decide as Hrep; [|by left].
      right. exists e. split; [apply list_elem_of_here | done].
    + right. exists e'. split; [by apply list_elem_of_further | done].
  - cbn [Part001_record fold_left]. cbn [Part001.SetTokenUsage].
    fold (Part001_record m events).
    destruct (IH m Hroot) as [Hn Hs]. split; [exact Hn|].
    destruct Hs as [Hs|(e' & Hin & Hrep & Hs)]; [by left|].
    right. exists e'. split; [by apply list_elem_of_further | done].
Qed.

(** C3, as the code has it: once a root agent name is recorded, no sequence
    of later events changes [rootAgentName]; and [rootSessionID] changes
    only through a report of the root agent itself (an event that carries
    the root agent's name, an inclusive snapshot and a session ID), after
    which it is the session ID of such a report. *)
Theorem root_identity :
  (∀ (m : SidebarGo.usageState) (events : list (option TokenUsageEvent)),
     SidebarGo.rootAgentName m ≠ "" →
     SidebarGo.rootAgentName (SidebarGo_record m events) = SidebarGo.rootAgentName m
     ∧ (SidebarGo.rootSessionID (SidebarGo_record m events) = SidebarGo.rootSessionID m
        ∨ ∃ e, Some e ∈ events
            ∧ rootReport (SidebarGo.rootAgentName m) InclusiveUsage e
            ∧ SidebarGo.rootSessionID (SidebarGo_record m events) = SessionID e))
  ∧ (∀ (m : Part001.usageState) (events : list (option TokenUsageEvent)),
       Part001.rootAgentName m ≠ "" →
       Part001.rootAgentName (Part001_record m events) = Part001.rootAgentName m
       ∧ (Part001.rootSessionID (Part001_record m events) = Part001.rootSessionID m
          ∨ ∃ e, Some e ∈ events
              ∧ rootReport (Part001.rootAgentName m) inclusiveUsageOf e
              ∧ Part001.rootSessionID (Part001_record m events) = SessionID e)).
Proof.
  split; intros m events.
  - apply SidebarGo_root_identity.
  - apply Part001_root_identity.
Qed.

Lemma root_identity_witness :
  SidebarGo.rootAgentName
    (SidebarGo_record Examples.sidebarGoLedger [Some Examples.childEvent; None])
  = "root"%string.
Proof.
  destruct root_identity as [H _].
  destruct (H Examples.sidebarGoLedger [Some Examples.childEvent; None]) as [Hn _].
  - vm_compute. discriminate.
  - rewrite Hn. reflexivity.
Defined.

(** C3 as stated fails for [rootSessionID]: a second report of the root
    agent from another session moves it, in both revisions. *)
Lemma root_session_moves :
  SidebarGo.rootAgentName (SidebarGo_record SidebarGo.New [Some Examples.rootEvent])
    = "root"%string
  ∧ SidebarGo.rootSessionID (SidebarGo_record SidebarGo.New [Some Examples.rootEvent])
      = "s1"%string
  ∧ SidebarGo.rootSessionID
      (SidebarGo_record SidebarGo.New [Some Examples.rootEvent; Some Examples.rootEvent'])
      = "s2"%string
  ∧ Part001.rootAgentName (Part001_record Part001.New [Some Examples.rootEvent])
      = "root"%string
  ∧ Part001.rootSessionID (Part001_record Part001.New [Some Examples.rootEvent])
      = "s1"%string
  ∧ Part001.rootSessionID
      (Part001_record Part001.New [Some Examples.rootEvent; Some Examples.rootEvent'])
      = "s2"%string.
Proof. vm_compute. repeat split. Qed.

(** C10: while no root agent name is recorded, an event without agent name
    that carries an inclusive snapshot is taken for a report of the root,
    in both revisions: [rootInclusive] becomes a copy of the snapshot and,
    if the event names a session, [rootSessionID] becomes that session; the
    root agent name stays unset. *)
Theorem anonymous_root_report (event : TokenUsageEvent) (u : Usage) :
  AgentName event = "" → InclusiveUsage event = Some u →
  (∀ m : SidebarGo.usageState,
     SidebarGo.rootAgentName m = "" →
     SidebarGo.rootInclusive (SidebarGo.SetTokenUsage m (Some event)) = Some u
     ∧ (SessionID event ≠ "" →
        SidebarGo.rootSessionID (SidebarGo.SetTokenUsage m (Some event)) = SessionID event)
     ∧ SidebarGo.rootAgentName (SidebarGo.SetTokenUsage m (Some event)) = "")
  ∧ (∀ m : Part001.usageState,
       Part001.rootAgentName m = "" →
       Part001.rootInclusive (Part001.SetTokenUsage m (Some event)) = Some u
       ∧ (SessionID event ≠ "" →
          Part001.rootSessionID (Part001.SetTokenUsage m (Some event)) = SessionID event)
       ∧ Part001.rootAgentName (Part001.SetTokenUsage m (Some event)) = "").
Proof.
  intros Hname Hincl.
  assert (∀ root, root = "" → rootAfter root event = "") as Hafter.
  { intros root ->. unfold rootAfter. case_decide; [tauto | reflexivity]. }
  split; intros m Hroot.
  - rewrite SidebarGo_rootInclusive, SidebarGo_rootSessionID, SidebarGo_rootAgentName.
    rewrite (Hafter _ Hroot), Hincl. split; [|split; [|reflexivity]].
    + case_decide as H; [reflexivity|]. destruct H. done.
    + intros Hid. case_decide as H; [reflexivity|]. destruct H. done.
  - rewrite Part001_rootInclusive, Part001_rootSessionID, Part001_rootAgentName.
    rewrite (Hafter _ Hroot), inclusiveUsageOf_cases, Hincl.
    split; [|split; [|reflexivity]].
    + case_decide as H; [reflexivity|]. destruct H. done.
    + intros Hid. case_decide as H; [reflexivity|]. destruct H. done.
Qed.

Lemma anonymous_root_report_witness :
  SidebarGo.rootInclusive
    (SidebarGo.SetTokenUsage SidebarGo.New (Some Examples.anonymousEvent))
    = Some Examples.rootUsage
  ∧ SidebarGo.rootSessionID
      (SidebarGo.SetTokenUsage SidebarGo.New (Some Examples.anonymousEvent))
      = "s1"%string
  ∧ Part001.rootInclusive
      (Part001.SetTokenUsage Part001.New (Some Examples.anonymousEvent))
      = Some Examples.rootUsage
  ∧ Part001.rootSessionID
      (Part001.SetTokenUsage Part001.New (Some Examples.anonymousEvent))
      = "s1"%string.
Proof.
  destruct (anonymous_root_report Examples.anonymousEvent Examples.rootUsage)
    as [HS HP]; [reflexivity | reflexivity |].
  destruct (HS SidebarGo.New) as (HSi & HSs & _); [reflexivity|].
  destruct (HP Part001.New) as (HPi & HPs & _); [reflexivity|].
  split; [exact HSi|]. split; [apply HSs; discriminate|].
  split; [exact HPi | apply HPs; discriminate].
Defined.

(** C4, as the code has it: an event that carries neither a self-usage nor
    an inclusive snapshot but carries the legacy usage has the legacy
    snapshot substituted for both in [part_001]; recording it there stores
    that snapshot as the self-usage of the event's session, when it names
    one, and as [rootInclusive], when the event's agent name is the root
    agent name: the one the ledger holds once the event's name has been
    considered for it, hence also the one it held before.  [sidebar.go]
    does not read the legacy usage: recording the same event there leaves
    the session snapshots and [rootInclusive] as they were. *)
Theorem legacy_event (m : Part001.usageState) (event : TokenUsageEvent) (u : Usage) :
  SelfUsage event = None → InclusiveUsage event = None → LegacyUsage event = Some u →
  selfUsageOf event = Some u
  ∧ inclusiveUsageOf event = Some u
  ∧ (SessionID event ≠ "" →
     usageAt (Part001.sessions (Part001.SetTokenUsage m (Some event))) (SessionID event)
       = Some u)
  ∧ (AgentName event = Part001.rootAgentName (Part001.SetTokenUsage m (Some event)) →
     Part001.rootInclusive (Part001.SetTokenUsage m (Some event)) = Some u)
  ∧ (AgentName event = Part001.rootAgentName m →
     Part001.rootInclusive (Part001.SetTokenUsage m (Some event)) = Some u)
  ∧ (∀ m' : SidebarGo.usageState,
       SidebarGo.sessions (SidebarGo.SetTokenUsage m' (Some event)) = SidebarGo.sessions m'
       ∧ SidebarGo.rootInclusive (SidebarGo.SetTokenUsage m' (Some event))
         = SidebarGo.rootInclusive m').
Proof.
  intros Hself Hincl Hlegacy.
  assert (selfUsageOf event = Some u) as Hs
    by (by rewrite selfUsageOf_cases, Hself).
  assert (inclusiveUsageOf event = Some u) as Hi
    by (by rewrite inclusiveUsageOf_cases, Hincl).
  assert (AgentName event = Part001.rootAgentName (Part001.SetTokenUsage m (Some event)) →
          Part001.rootInclusive (Part001.SetTokenUsage m (Some event)) = Some u) as Hroot.
  { rewrite Part001_rootAgentName, Part001_rootInclusive, Hi. intros Hroot.
    case_decide as H; [reflexivity|]. destruct H. done. }
  split; [exact Hs|]. split; [exact Hi|]. split; [|split; [exact Hroot|split]].
  - intros Hid. rewrite Part001_sessions, Hs. case_decide; [|tauto].
    unfold usageAt. by rewrite lookup_insert_eq.
  - intros Hname. apply Hroot. rewrite Part001_rootAgentName. unfold rootAfter.
    case_decide as H; [|exact Hname]. destruct H as [Hne Hempty]. congruence.
  - intros m'. rewrite SidebarGo_sessions, SidebarGo_rootInclusive.
    rewrite !decide_False; [done| |]; rewrite ?Hself, ?Hincl; tauto.
Qed.

Lemma legacy_event_witness :
  usageAt
    (Part001.sessions (Part001.SetTokenUsage Part001.New (Some Examples.legacyEvent)))
    "s1" = Some Examples.legacyUsage
  ∧ Part001.rootInclusive (Part001.SetTokenUsage Part001.New (Some Examples.legacyEvent))
      = Some Examples.legacyUsage.
Proof.
  destruct (legacy_event Part001.New Examples.legacyEvent Examples.legacyUsage)
    as (_ & _ & Hs & Hr & _); [reflexivity | reflexivity | reflexivity |].
  split; [apply Hs; discriminate | apply Hr; reflexivity].
Defined.

(** In [sidebar.go] the event of the design document's scenario, recorded
    on the ledger made by [New], is taken for an event of the root agent,
    and still neither a snapshot for its session nor [rootInclusive] is
    stored. *)
Lemma legacy_event_unread :
  SelfUsage Examples.legacyEvent = None
  ∧ InclusiveUsage Examples.legacyEvent = None
  ∧ LegacyUsage Examples.legacyEvent = Some Examples.legacyUsage
  ∧ SessionID Examples.legacyEvent = "s1"%string
  ∧ AgentName Examples.legacyEvent
    = SidebarGo.rootAgentName
        (SidebarGo.SetTokenUsage SidebarGo.New (Some Examples.legacyEvent))
  ∧ usageAt
      (SidebarGo.sessions
         (SidebarGo.SetTokenUsage SidebarGo.New (Some Examples.legacyEvent)))
      "s1" = None
  ∧ SidebarGo.rootInclusive
      (SidebarGo.SetTokenUsage SidebarGo.New (Some Examples.legacyEvent)) = None.
Proof. repeat split; vm_compute; reflexivity. Qed.

(** For an event that names a session, [part_001] files under that session
    the first snapshot present among the event's self-usage, its legacy
    usage and its inclusive usage, whatever was filed there before; with
    none of the three it files nothing; and no other session's entry
    changes. *)
Lemma Part001_session_snapshot (m : Part001.usageState) (event : TokenUsageEvent) :
  SessionID event ≠ "" →
  Part001.sessions (Part001.SetTokenUsage m (Some event)) !! SessionID event
    = match SelfUsage event, LegacyUsage event, InclusiveUsage event with
      | Some u, _, _ => Some (Some u)
      | None, Some u, _ => Some (Some u)
      | None, None, Some u => Some (Some u)
      | None, None, None => Part001.sessions m !! SessionID event
      end
  ∧ ∀ id, id ≠ SessionID event →
      Part001.sessions (Part001.SetTokenUsage m (Some event)) !! id
        = Part001.sessions m !! id.
Proof.
  intros Hid. rewrite Part001_sessions, selfUsageOf_cases, inclusiveUsageOf_cases.
  case_decide; [|tauto]. split.
  - destruct (SelfUsage event), (LegacyUsage event), (InclusiveUsage event);
      try reflexivity; apply lookup_insert_eq.
  - intros id Hne.
    destruct (SelfUsage event), (LegacyUsage event), (InclusiveUsage event);
      try reflexivity; by apply lookup_insert_ne.
Qed.

(** C7 as stated fails when the event carries the legacy usage: with no
    self-usage, it is the legacy snapshot that is stored, not the inclusive
    one. *)
Lemma session_snapshot_prefers_legacy :
  SessionID Examples.mixedEvent ≠ ""
  ∧ SelfUsage Examples.mixedEvent = None
  ∧ InclusiveUsage Examples.mixedEvent = Some Examples.rootUsage
  ∧ Part001.sessions (Part001.SetTokenUsage Part001.New (Some Examples.mixedEvent))
      !! "s1"%string = Some (Some Examples.legacyUsage)
  ∧ Examples.legacyUsage ≠ Examples.rootUsage.
Proof.
  split; [discriminate|]. split; [reflexivity|]. split; [reflexivity|].
  split; [vm_compute; reflexivity | discriminate].
Qed.

(** ** The order of [sort.Strings] *)

Lemma string_le_cases (a b : string) : string_le a b ↔ string_lt a b ∨ a = b.
Proof.
  unfold string_le, string_lt, String.leb, String.ltb. split.
  - destruct (String.compare a b) eqn:Hcmp; try discriminate; intros _.
    + right. by apply String.compare_eq_iff.
    + by left.
  - intros [Hlt| ->].
    + by destruct (String.compare a b).
    + replace (String.compare b b) with Eq; [reflexivity|].
      symmetry. by apply OrderedTypeEx.String_as_OT.cmp_eq.
Qed.

Lemma string_lt_trans (a b c : string) : string_lt a b → string_lt b c → string_lt a c.
Proof.
  unfold string_lt, String.ltb. intros Hab Hbc.
  assert (String.compare a b = Lt) as Hab' by (by destruct (String.compare a b)).
  assert (String.compare b c = Lt) as Hbc' by (by destruct (String.compare b c)).
  apply OrderedTypeEx.String_as_OT.cmp_lt in Hab', Hbc'.
  pose proof (OrderedTypeEx.String_as_OT.lt_trans _ _ _ Hab' Hbc') as Hac.
  apply OrderedTypeEx.String_as_OT.cmp_lt in Hac.
  unfold OrderedTypeEx.String_as_OT.cmp in Hac. by rewrite Hac.
Qed.

#[global] Instance string_le_trans : Transitive string_le.
Proof.
  intros a b c [Hab| ->]%string_le_cases [Hbc| ->]%string_le_cases;
    apply string_le_cases; eauto using string_lt_trans.
Qed.

#[global] Instance string_le_total : Total string_le.
Proof. intros a b. apply String.leb_total. Qed.

#[global] Instance string_le_antisymm : AntiSymm (=) string_le.
Proof. intros a b. apply String.leb_antisym. Qed.

(** Two slices with the same ids sort to the same slice. *)
Lemma sortStrings_Permutation (ids ids' : list string) :
  ids ≡ₚ ids' → sortStrings ids = sortStrings ids'.
Proof.
  intros Hperm. unfold sortStrings.
  apply (StronglySorted_unique string_le).
  - apply StronglySorted_merge_sort; apply _.
  - apply StronglySorted_merge_sort; apply _.
  - by rewrite !merge_sort_Permutation.
Qed.

(** A sorted slice without repetition is strictly ascending. *)
Lemma sortStrings_ascending (ids : list string) :
  NoDup ids → StronglySorted string_lt (sortStrings ids).
Proof.
  intros Hnodup. unfold sortStrings.
  assert (NoDup (merge_sort string_le ids)) as Hnodup'
    by (by rewrite merge_sort_Permutation).
  pose proof (StronglySorted_merge_sort string_le ids) as Hsorted.
  induction Hsorted as [|x l Hsorted IH Hall]; [constructor|].
  apply NoDup_cons in Hnodup' as [Hx Hnodup'].
  constructor; [by apply IH|].
  apply Forall_forall. intros y Hy.
  rewrite Forall_forall in Hall.
  destruct (proj1 (string_le_cases x y) (Hall y Hy)) as [Hlt| ->]; [exact Hlt | done].
Qed.

(** ** The block of the root agent *)



(** ** The breakdown *)

(** The loop that appends the blocks of the ids. *)
Lemma lines_loop {A B : Type} (f : A → option B) (ids : list A) (lines : list B) :
  fold_left
    (λ lines id, match f id with Some b => lines ++ [b] | None => lines end)
    ids lines
  = lines ++ omap f ids.
Proof.
  revert lines. induction ids as [|id ids IH]; intros lines; cbn.
  - by rewrite app_nil_r.
  - rewrite IH. destruct (f id); [by rewrite <- app_assoc | reflexivity].
Qed.

(** The first loop of [gatherIDs]: every key, in the order of the visit. *)
Lemma gather_sessions (order : list (string * option Usage))
    (idSet : gset string) (ids : list string) :
  fold_left (λ '(idSet, ids) '(id, _), ({[id]} ∪ idSet, ids ++ [id]))
    order (idSet, ids)
  = (list_to_set order.*1 ∪ idSet, ids ++ order.*1).
Proof.
  revert idSet ids. induction order as [|[id usage] order IH]; intros idSet ids; cbn.
  - f_equal; [set_solver | by rewrite app_nil_r].
  - rewrite IH. f_equal; [set_solver | by rewrite <- app_assoc].
Qed.

Lemma filter_unseen (id : string) (idSet : gset string) (l : list string) :
  id ∉ l →
  filter (λ x, x ∉ {[id]} ∪ idSet) l = filter (λ x, x ∉ idSet) l.
Proof.
  induction l as [|x l IH]; [reflexivity|]. intros Hid.
  apply not_elem_of_cons in Hid as [Hne Hid].
  rewrite !filter_cons, IH by assumption.
  destruct (decide (x ∉ idSet)) as [Hx|Hx].
  - rewrite decide_True; [reflexivity|]. set_solver.
  - rewrite decide_False; [reflexivity|]. set_solver.
Qed.

(** The second loop: the keys not seen before, in the order of the visit. *)
Lemma gather_inclusive (order : list (string * option Usage))
    (idSet : gset string) (ids : list string) :
  NoDup order.*1 →
  snd (fold_left
         (λ '(idSet, ids) '(id, _),
            if decide (id ∈ idSet) then (idSet, ids)
            else ({[id]} ∪ idSet, ids ++ [id]))
         order (idSet, ids))
  = ids ++ filter (λ id, id ∉ idSet) order.*1.
Proof.
  revert idSet ids. induction order as [|[id usage] order IH];
    intros idSet ids Hnodup; cbn.
  - by rewrite app_nil_r.
  - cbn in Hnodup. apply NoDup_cons in Hnodup as [Hid Hnodup].
    destruct (decide (id ∈ idSet)) as [Hin|Hout].
    + rewrite IH by assumption. by rewrite decide_False by tauto.
    + rewrite IH by assumption. rewrite decide_True by assumption.
      rewrite <- app_assoc. cbn. do 2 f_equal.
      by apply filter_unseen.
Qed.

(** The ids gathered by [sessionBreakdownLines] of [part_001]: the keys of
    both maps, each once. *)
Lemma gatherIDs_keys (m : Part001.usageState)
    (order order' : list (string * option Usage)) :
  range_order (Part001.sessions m) order →
  range_order (Part001.inclusive m) order' →
  snd (Part001.gatherIDs order order')
    ≡ₚ elements (dom (Part001.sessions m) ∪ dom (Part001.inclusive m)).
Proof.
  unfold range_order. intros Horder Horder'.
  assert (NoDup order.*1) as Hnd
    by (rewrite Horder; apply NoDup_fst_map_to_list).
  assert (NoDup order'.*1) as Hnd'
    by (rewrite Horder'; apply NoDup_fst_map_to_list).
  assert (∀ id, id ∈ order.*1 ↔ id ∈ dom (Part001.sessions m)) as Hkeys.
  { intros id. rewrite Horder, elem_of_dom, list_elem_of_fmap. split.
    - intros ([k v] & -> & Hin). apply elem_of_map_to_list in Hin. by eexists.
    - intros [v Hv]. exists (id, v). split; [done|]. by apply elem_of_map_to_list. }
  assert (∀ id, id ∈ order'.*1 ↔ id ∈ dom (Part001.inclusive m)) as Hkeys'.
  { intros id. rewrite Horder', elem_of_dom, list_elem_of_fmap. split.
    - intros ([k v] & -> & Hin). apply elem_of_map_to_list in Hin. by eexists.
    - intros [v Hv]. exists (id, v). split; [done|]. by apply elem_of_map_to_list. }
  unfold Part001.gatherIDs. rewrite gather_sessions, gather_inclusive by assumption.
  cbn. apply NoDup_Permutation.
  - apply NoDup_app. split; [assumption|]. split.
    + intros id Hin [Hout _]%list_elem_of_filter. set_solver.
    + by apply NoDup_filter.
  - apply NoDup_elements.
  - intros id. rewrite elem_of_elements, elem_of_union, elem_of_app,
      list_elem_of_filter, <- Hkeys, <- Hkeys'.
    destruct (decide (id ∈ order.*1)); set_solver.
Qed.

(** [sessionBreakdownLines] of [part_001] in closed form: the root's block,
    if any, then the blocks of the known ids in ascending order. *)
Lemma Part001_breakdown (m : Part001.usageState)
    (order order' : list (string * option Usage)) :
  range_order (Part001.sessions m) order →
  range_order (Part001.inclusive m) order' →
  Part001.sessionBreakdownLines m order order'
  = optionalHead (Part001.rootSessionBlock m)
    ++ omap (Part001.sessionBlock m)
         (sortStrings (elements (dom (Part001.sessions m) ∪ dom (Part001.inclusive m)))).
Proof.
  intros Horder Horder'.
  pose proof (gatherIDs_keys m order order' Horder Horder') as Hperm.
  unfold Part001.sessionBreakdownLines.
  rewrite <- (sortStrings_Permutation _ _ Hperm).
  destruct (decide (snd (Part001.gatherIDs order order') = [])) as [->|_].
  - cbn. rewrite app_nil_r. by destruct (Part001.rootSessionBlock m).
  - rewrite lines_loop. by destruct (Part001.rootSessionBlock m).
Qed.

(** The same closed form for [sidebar.go]: the order of the blocks does not
    depend on the visit that gathers the ids; the root's block is the one
    that [rootSessionBlock] computes during the call. *)
Lemma SidebarGo_breakdown (m : SidebarGo.usageState)
    (order order' : list (string * option Usage)) :
  range_order (SidebarGo.sessions m) order →
  SidebarGo.sessionBreakdownLines m order order'
  = if decide (SidebarGo.sessions m = ∅) then []
    else optionalHead (SidebarGo.rootSessionBlock m order')
         ++ omap (SidebarGo.sessionBlock m)
              (sortStrings (elements (dom (SidebarGo.sessions m)))).
Proof.
  unfold range_order. intros Horder. unfold SidebarGo.sessionBreakdownLines.
  case_decide; [reflexivity|].
  assert (∀ ids, fold_left (λ ids '(id, _), ids ++ [id]) order ids = ids ++ order.*1)
    as Hkeys.
  { clear. induction order as [|[id usage] order IH]; intros ids; cbn.
    - by rewrite app_nil_r.
    - by rewrite IH, <- app_assoc. }
  rewrite Hkeys, lines_loop. cbn [app].
  rewrite (sortStrings_Permutation order.*1 (elements (dom (SidebarGo.sessions m)))).
  - by destruct (SidebarGo.rootSessionBlock m order').
  - apply NoDup_Permutation.
    + rewrite Horder. apply NoDup_fst_map_to_list.
    + apply NoDup_elements.
    + intros id. rewrite Horder, elem_of_elements, elem_of_dom, list_elem_of_fmap.
      split.
      * intros ([k v] & -> & Hin). apply elem_of_map_to_list in Hin. by eexists.
      * intros [v Hv]. exists (id, v). split; [done|]. by apply elem_of_map_to_list.
Qed.

(** C6, as the code has it: in both revisions [sessionBreakdownLines] puts
    the root's block first whenever there is one, then the blocks of the
    other sessions in strictly ascending order of session ID, whatever the
    order in which the call visits the maps.  In [part_001] two calls on the
    same ledger return the same blocks.  In [sidebar.go] two calls return
    the same blocks for the sessions other than the root's, and a root block
    with the same name and the same active mark; the usage of the root block
    is what [computeRootExclusiveUsage] returns in that call, for the order
    in which that call visits the map. *)
Theorem breakdown_deterministic :
  (∀ (m : Part001.usageState)
     (order1 order1' order2 order2' : list (string * option Usage)),
     range_order (Part001.sessions m) order1 →
     range_order (Part001.inclusive m) order1' →
     range_order (Part001.sessions m) order2 →
     range_order (Part001.inclusive m) order2' →
     Part001.sessionBreakdownLines m order1 order1'
       = Part001.sessionBreakdownLines m order2 order2'
     ∧ ∃ ids,
         StronglySorted string_lt ids
         ∧ (∀ id, id ∈ ids ↔ id ∈ dom (Part001.sessions m) ∪ dom (Part001.inclusive m))
         ∧ Part001.sessionBreakdownLines m order1 order1'
           = optionalHead (Part001.rootSessionBlock m)
             ++ omap (Part001.sessionBlock m) ids)
  ∧ (∀ (m : SidebarGo.usageState)
       (order1 order1' order2 order2' : list (string * option Usage)),
       range_order (SidebarGo.sessions m) order1 →
       range_order (SidebarGo.sessions m) order2 →
       (λ b, (blockName b, blockActive b)) <$> SidebarGo.rootSessionBlock m order1'
         = (λ b, (blockName b, blockActive b)) <$> SidebarGo.rootSessionBlock m order2'
       ∧ ∃ ids,
           StronglySorted string_lt ids
           ∧ (∀ id, id ∈ ids ↔ id ∈ dom (SidebarGo.sessions m))
           ∧ SidebarGo.sessionBreakdownLines m order1 order1'
             = (if decide (SidebarGo.sessions m = ∅) then []
                else optionalHead (SidebarGo.rootSessionBlock m order1')
                     ++ omap (SidebarGo.sessionBlock m) ids)
           ∧ SidebarGo.sessionBreakdownLines m order2 order2'
             = (if decide (SidebarGo.sessions m = ∅) then []
                else optionalHead (SidebarGo.rootSessionBlock m order2')
                     ++ omap (SidebarGo.sessionBlock m) ids)).
Proof.
  split.
  - intros m order1 order1' order2 order2' H1 H1' H2 H2'. split.
    + by rewrite !Part001_breakdown.
    + exists (sortStrings
                (elements (dom (Part001.sessions m) ∪ dom (Part001.inclusive m)))).
      split; [apply sortStrings_ascending, NoDup_elements|].
      split; [|by apply Part001_breakdown].
      intros id. unfold sortStrings.
      by rewrite merge_sort_Permutation, elem_of_elements.
  - intros m order1 order1' order2 order2' H1 H2. split.
    + unfold SidebarGo.rootSessionBlock, SidebarGo.computeRootExclusiveUsage.
      destruct (SidebarGo.rootInclusive m) as [r|]; [|reflexivity]. cbn [cloneUsage].
      destruct (exclusive_loop_some (SidebarGo.rootSessionID m) order1' r) as [x1 ->].
      destruct (exclusive_loop_some (SidebarGo.rootSessionID m) order2' r) as [x2 ->].
      reflexivity.
    + exists (sortStrings (elements (dom (SidebarGo.sessions m)))).
      split; [apply sortStrings_ascending, NoDup_elements|].
      split; [|split; by apply SidebarGo_breakdown].
      intros id. unfold sortStrings.
      by rewrite merge_sort_Permutation, elem_of_elements.
Qed.

Lemma breakdown_deterministic_witness :
  Part001.sessionBreakdownLines Examples.part001Ledger
    (reverse (map_to_list (Part001.sessions Examples.part001Ledger)))
    (reverse (map_to_list (Part001.inclusive Examples.part001Ledger)))
  = Part001.sessionBreakdownLines Examples.part001Ledger
      (map_to_list (Part001.sessions Examples.part001Ledger))
      (map_to_list (Part001.inclusive Examples.part001Ledger)).
Proof.
  destruct breakdown_deterministic as [Hpart001 _].
  destruct (Hpart001 Examples.part001Ledger
              (reverse (map_to_list (Part001.sessions Examples.part001Ledger)))
              (reverse (map_to_list (Part001.inclusive Examples.part001Ledger)))
              (map_to_list (Part001.sessions Examples.part001Ledger))
              (map_to_list (Part001.inclusive Examples.part001Ledger)))
    as [Hsame _]; unfold range_order;
    [apply reverse_Permutation | apply reverse_Permutation
    | reflexivity | reflexivity | exact Hsame].
Defined.

(** In [sidebar.go] the cost shown in the root's block follows the visit.
    On a ledger with a root inclusive cost of 0.135 and two workers that
    cost 0.05 and 0.01, a call that visits the workers in one order and a
    call that visits them in the other return root blocks whose costs are
    the two neighbouring [float64] values 5404319552844596 / 2^56 and
    5404319552844595 / 2^56.  They lie on either side of 0.075, where the
    two-decimal text turns from 0.07 to 0.08; every other block and every
    other field is the same. *)
Lemma breakdown_cost_follows_visit :
  range_order (SidebarGo.sessions CentExample.ledger) CentExample.visit
  ∧ range_order (SidebarGo.sessions CentExample.ledger) (reverse CentExample.visit)
  ∧ ∃ root root' others,
      SidebarGo.sessionBreakdownLines CentExample.ledger
        CentExample.visit CentExample.visit = root :: others
      ∧ SidebarGo.sessionBreakdownLines CentExample.ledger
          CentExample.visit (reverse CentExample.visit) = root' :: others
      ∧ Prim2SF (Cost (blockUsage root)) = S754_finite false 5404319552844596 (-56)
      ∧ Prim2SF (Cost (blockUsage root')) = S754_finite false 5404319552844595 (-56)
      ∧ 5404319552844595 * 1000 < 75 * 2 ^ 56 < 5404319552844596 * 1000
      ∧ root ≠ root'.
Proof.
  split; [unfold range_order; reflexivity|].
  split; [unfold range_order; apply reverse_Permutation|].
  eexists _, _, _. split; [vm_compute; reflexivity|]. split; [vm_compute; reflexivity|].
  split; [vm_compute; reflexivity|]. split; [vm_compute; reflexivity|].
  split; [lia|].
  intros Heq.
  assert (∀ b b' : block, b = b' →
            Prim2SF (Cost (blockUsage b)) = Prim2SF (Cost (blockUsage b'))) as Hcost
    by (by intros b b' ->).
  apply Hcost in Heq. vm_compute in Heq. discriminate.
Qed.

(** ** Ledgers built by ingestion *)

Lemma SidebarGo_wf_step (m : SidebarGo.usageState) (event : option TokenUsageEvent) :
  SidebarGo_wf m → SidebarGo_wf (SidebarGo.SetTokenUsage m event).
Proof.
  intros [Hs Hr]. destruct event as [event|]; [|by split]. split.
  - intros id v. rewrite SidebarGo_sessions. case_decide as Hc; [|apply Hs].
    destruct Hc as [Hself Hid].
    destruct (decide (id = SessionID event)) as [->|Hne].
    + rewrite lookup_insert_eq. intros [= <-]. split; [|assumption].
      by destruct (SelfUsage event).
    + rewrite lookup_insert_ne by done. apply Hs.
  - rewrite SidebarGo_rootInclusive, SidebarGo_rootSessionID.
    case_decide as Hc.
    + destruct Hc as [_ Hincl]. by destruct (InclusiveUsage event).
    + intros Hnone. case_decide as Hc'; [|by apply Hr]. tauto.
Qed.

Lemma SidebarGo_wf_record (events : list (option TokenUsageEvent)) :
  SidebarGo_wf (SidebarGo_record SidebarGo.New events).
Proof.
  assert (SidebarGo_wf SidebarGo.New) as Hnew.
  { split; [|reflexivity]. intros id v. cbn. by rewrite lookup_empty. }
  revert Hnew. generalize SidebarGo.New.
  induction events as [|event events IH]; intros m Hm; [exact Hm|].
  cbn. apply IH. by apply SidebarGo_wf_step.
Qed.

Lemma Part001_wf_step (m : Part001.usageState) (event : option TokenUsageEvent) :
  Part001_wf m → Part001_wf (Part001.SetTokenUsage m event).
Proof.
  intros [Hs Hi Hr]. destruct event as [event|]; [|by split]. split.
  - intros id v. rewrite Part001_sessions. case_decide as Hid; [|apply Hs].
    destruct (selfUsageOf event) as [u|], (inclusiveUsageOf event) as [u'|];
      try apply Hs;
      (destruct (decide (id = SessionID event)) as [->|Hne];
       [rewrite lookup_insert_eq; by intros [= <-]
       |rewrite lookup_insert_ne by done; apply Hs]).
  - intros id v. rewrite Part001_inclusive. case_decide as Hid; [|apply Hi].
    destruct (inclusiveUsageOf event) as [u'|]; [|apply Hi].
    destruct (decide (id = SessionID event)) as [->|Hne].
    + rewrite lookup_insert_eq. by intros [= <-].
    + rewrite lookup_insert_ne by done. apply Hi.
  - rewrite Part001_rootInclusive, Part001_rootSessionID.
    case_decide as Hc.
    + destruct Hc as [_ Hincl]. by destruct (inclusiveUsageOf event).
    + intros Hnone. case_decide as Hc'; [|by apply Hr]. tauto.
Qed.

Lemma Part001_wf_record (events : list (option TokenUsageEvent)) :
  Part001_wf (Part001_record Part001.New events).
Proof.
  assert (Part001_wf Part001.New) as Hnew.
  { split; [| |reflexivity]; intros id v; cbn; by rewrite lookup_empty. }
  revert Hnew. generalize Part001.New.
  induction events as [|event events IH]; intros m Hm; [exact Hm|].
  cbn. apply IH. by apply Part001_wf_step.
Qed.

(** In a ledger built by ingestion, "the map is not empty" and "at least
    one snapshot is stored" are the same condition. *)
Lemma Part001_stored_nonempty (m : Part001.usageState) :
  Part001_wf m → (Part001.sessions m ≠ ∅ ↔ stored (Part001.sessions m) ≠ []).
Proof.
  intros [Hs _ _]. unfold stored. split.
  - intros Hne Hnil. apply Hne. apply map_to_list_empty_iff.
    destruct (map_to_list (Part001.sessions m)) as [|[id v] l] eqn:Hl; [reflexivity|].
    assert ((id, v) ∈ map_to_list (Part001.sessions m)) as Hin
      by (rewrite Hl; apply list_elem_of_here).
    apply elem_of_map_to_list in Hin. destruct (Hs id v Hin) as [Hv _].
    destruct v as [u|]; [|done]. cbn in Hnil. discriminate.
  - intros Hne Hempty. by rewrite Hempty, map_to_list_empty in Hne.
Qed.

(** In a ledger built by [sidebar.go] without a root inclusive snapshot no
    self-usage is stored for the root session: the root's block has nothing
    to fall back to. *)
Lemma SidebarGo_no_root_self (m : SidebarGo.usageState) :
  SidebarGo_wf m → SidebarGo.rootInclusive m = None →
  usageAt (SidebarGo.sessions m) (SidebarGo.rootSessionID m) = None.
Proof.
  intros [Hs Hr] Hnone. rewrite (Hr Hnone). unfold usageAt.
  destruct (SidebarGo.sessions m !! ""%string) as [v|] eqn:Hv; [|reflexivity].
  destruct (Hs _ _ Hv) as [_ Hid]. done.
Qed.

(** ** The exclusive usage and the order of the visit *)

(** The token counters of the loop of [computeRootExclusiveUsage] in closed
    form, clamping included: they depend on the entries visited, not on
    their order. *)
Lemma exclusive_loop_tokens (root : string) (order : list (string * option Usage))
    (e : Usage) :
  Forall (λ u, counter (InputTokens u) ∧ counter (OutputTokens u))
    (childrenOf root order) →
  counter (InputTokens e) → counter (OutputTokens e) →
  ∃ e', fold_left
      (λ exclusive '(id, usage),
         if decide (id = root ∨ usage = None) then exclusive
         else SidebarGo.subtractUsage exclusive usage)
      order (Some e) = Some e'
    ∧ InputTokens e'
        = Z.max 0 (InputTokens e - sumZ (InputTokens <$> childrenOf root order))
    ∧ OutputTokens e'
        = Z.max 0 (OutputTokens e - sumZ (OutputTokens <$> childrenOf root order))
    ∧ ContextLimit e' = ContextLimit e.
Proof.
  revert e. induction order as [|[id usage] order IH]; intros e Hall Hi Ho.
  - exists e. cbn. unfold counter in *. repeat split; lia.
  - cbn [fold_left].
    destruct (decide (id = root ∨ usage = None)) as [Hskip|Hno].
    + assert (childrenOf root ((id, usage) :: order) = childrenOf root order) as Heq.
      { cbn. destruct (decide (id = root)); [done|].
        destruct Hskip as [?| ->]; done. }
      rewrite Heq in Hall |- *. by apply IH.
    + destruct usage as [d|]; [|tauto].
      destruct (decide (id = root)) as [|Hne]; [tauto|].
      assert (childrenOf root ((id, Some d) :: order) = d :: childrenOf root order)
        as Heq by (cbn; by rewrite decide_False).
      rewrite Heq in Hall |- *.
      apply Forall_cons in Hall as [[Hdi Hdo] Hall].
      assert (sumZ (InputTokens <$> childrenOf root order) >= 0) as Hposi.
      { apply sumZ_counters. eapply Forall_impl; [exact Hall|]. by intros u [? _]. }
      assert (sumZ (OutputTokens <$> childrenOf root order) >= 0) as Hposo.
      { clear -Hall. induction Hall as [|u l [_ Hu] _ IHl]; cbn; [lia|].
        unfold counter in Hu. lia. }
      cbn [SidebarGo.subtractUsage]. rewrite !clamped_sub by assumption.
      set (e1 := mkUsage _ _ _ _ _).
      destruct (IH e1) as (e' & Hfold & Hin & Hout & Hlim); [assumption| | |].
      * subst e1. cbn. by apply clamped_sub_counter.
      * subst e1. cbn. by apply clamped_sub_counter.
      * exists e'. split; [exact Hfold|]. rewrite Hin, Hout, Hlim. subst e1.
        cbn. unfold counter in *. repeat split; lia.
Qed.

(** X8: the tokens of the root's exclusive usage.  For snapshots with
    non-negative counters, the input and the output tokens that
    [computeRootExclusiveUsage] returns are those of the root inclusive
    snapshot minus the sum over the other sessions on file, or zero when
    that sum is larger, and the context limit is the one of the inclusive
    snapshot: the same in every call on the same ledger, whatever the order
    of the visit. *)
Lemma SidebarGo_exclusive_tokens (m : SidebarGo.usageState)
    (order : list (string * option Usage)) (inclusive : Usage) :
  range_order (SidebarGo.sessions m) order →
  SidebarGo.rootInclusive m = Some inclusive →
  snapshot_ok inclusive →
  Forall snapshot_ok (children (SidebarGo.rootSessionID m) (SidebarGo.sessions m)) →
  ∃ exclusive,
    SidebarGo.computeRootExclusiveUsage m order = Some exclusive
    ∧ InputTokens exclusive
        = Z.max 0 (InputTokens inclusive
            - sumZ (InputTokens <$> children (SidebarGo.rootSessionID m) (SidebarGo.sessions m)))
    ∧ OutputTokens exclusive
        = Z.max 0 (OutputTokens inclusive
            - sumZ (OutputTokens <$> children (SidebarGo.rootSessionID m) (SidebarGo.sessions m)))
    ∧ ContextLimit exclusive = ContextLimit inclusive.
Proof.
  intros Horder Hr [Hi Ho _ _] Hall.
  pose proof (childrenOf_range (SidebarGo.rootSessionID m) _ _ Horder) as Hperm.
  unfold SidebarGo.computeRootExclusiveUsage. rewrite Hr. cbn [cloneUsage].
  destruct (exclusive_loop_tokens (SidebarGo.rootSessionID m) order inclusive)
    as (e' & Hfold & Hin & Hout & Hlim); try assumption.
  { rewrite Hperm. eapply Forall_impl; [exact Hall|]. by intros u [? ? _ _]. }
  exists e'. split; [exact Hfold|].
  rewrite Hin, Hout, Hlim.
  rewrite (sumZ_Permutation _ _ (fmap_Permutation InputTokens _ _ Hperm)).
  rewrite (sumZ_Permutation _ _ (fmap_Permutation OutputTokens _ _ Hperm)).
  repeat split.
Qed.

Lemma SidebarGo_exclusive_tokens_witness :
  ∃ exclusive,
    SidebarGo.computeRootExclusiveUsage Examples.sidebarGoLedger
      (reverse (map_to_list (SidebarGo.sessions Examples.sidebarGoLedger)))
      = Some exclusive
    ∧ InputTokens exclusive = 800 ∧ OutputTokens exclusive = 400
    ∧ ContextLimit exclusive = 8000.
Proof.
  destruct (SidebarGo_exclusive_tokens Examples.sidebarGoLedger
              (reverse (map_to_list (SidebarGo.sessions Examples.sidebarGoLedger)))
              Examples.rootUsage) as (x & Hx & Hi & Ho & Hl).
  - unfold range_order. apply reverse_Permutation.
  - vm_compute. reflexivity.
  - split; cbn; unfold counter, GoInt.maxInt; lia.
  - assert (children (SidebarGo.rootSessionID Examples.sidebarGoLedger)
              (SidebarGo.sessions Examples.sidebarGoLedger) = [Examples.childUsage])
      as -> by (vm_compute; reflexivity).
    constructor; [|constructor]. split; cbn; unfold counter, GoInt.maxInt; lia.
  - assert (children (SidebarGo.rootSessionID Examples.sidebarGoLedger)
              (SidebarGo.sessions Examples.sidebarGoLedger) = [Examples.childUsage])
      as Hchildren by (vm_compute; reflexivity).
    rewrite Hchildren in Hi, Ho.
    exists x. split; [exact Hx|]. split; [exact Hi|]. split; [exact Ho | exact Hl].
Defined.

(** The cost of the exclusive usage is a chain of [float64] subtractions in
    the order of the visit, and [float64] subtraction rounds: two visits of
    the same ledger can end on neighbouring values (0.7 and
    0.7000000000000001 here, which both print as 0.70 with two decimals; on
    other ledgers the neighbours lie on either side of a half cent and the
    printed cents differ as well). *)
Lemma exclusive_cost_follows_visit :
  ∃ c c',
    Cost <$> SidebarGo.computeRootExclusiveUsage CostExample.ledger
               (map_to_list (SidebarGo.sessions CostExample.ledger)) = Some c
    ∧ Cost <$> SidebarGo.computeRootExclusiveUsage CostExample.ledger
                 (reverse (map_to_list (SidebarGo.sessions CostExample.ledger))) = Some c'
    ∧ c ≠ c'.
Proof.
  eexists _, _. split; [vm_compute; reflexivity|]. split; [vm_compute; reflexivity|].
  intros Heq.
  assert (∀ x y : float, x = y → PrimFloat.eqb x y = PrimFloat.eqb y y) as Hcmp
    by (by intros x y ->).
  apply Hcmp in Heq. vm_compute in Heq. discriminate.
Qed.

(** ** Scenarios of the design document *)

(** A single event of the root agent: the totals are its snapshot, nothing
    is subtracted from it, and the breakdown is the root's block alone,
    marked active. *)
Example scenario_single_event :
  let m := SidebarGo_record SidebarGo.New
             [Some (mkEvent "s1" "root" (Some Examples.rootUsage)
                      (Some Examples.rootUsage) None)] in
  SidebarGo.computeTeamTotals m = Some Examples.rootUsage
  ∧ SidebarGo.computeRootExclusiveUsage m (map_to_list (SidebarGo.sessions m))
      = Some Examples.rootUsage
  ∧ SidebarGo.sessionBreakdownLines m
      (map_to_list (SidebarGo.sessions m)) (map_to_list (SidebarGo.sessions m))
      = [mkBlock "root" Examples.rootUsage true].
Proof. vm_compute. repeat split. Qed.

(** The root, then a worker: the worker's tokens and cost are taken out of
    the root's inclusive figures. *)
Example scenario_root_then_child :
  SidebarGo.computeRootExclusiveUsage Examples.sidebarGoLedger
    (map_to_list (SidebarGo.sessions Examples.sidebarGoLedger))
  = Some (mkUsage 800 400 1200 8000 0.75).
Proof. vm_compute. reflexivity. Qed.

(** A worker that reports more input tokens than the root's inclusive
    figure: the exclusive input tokens are zero, not negative. *)
Example scenario_over_subtraction :
  let m := SidebarGo_record SidebarGo.New
             [Some (mkEvent "s1" "root" None (Some (mkUsage 50 0 50 0 0)) None);
              Some (mkEvent "child1" "worker" (Some (mkUsage 80 0 80 0 0)) None None)] in
  InputTokens <$> SidebarGo.computeRootExclusiveUsage m (map_to_list (SidebarGo.sessions m))
  = Some 0.
Proof. vm_compute. reflexivity. Qed.

(** A session whose agent name is unknown is listed under its ID. *)
Example scenario_unknown_agent :
  let m := Part001_record Part001.New
             [Some Examples.rootEvent;
              Some (mkEvent "s2" "" (Some Examples.childUsage) None None)] in
  blockName <$> Part001.sessionBreakdownLines m
                  (map_to_list (Part001.sessions m)) (map_to_list (Part001.inclusive m))
  = ["root"; "s2"]%string.
Proof. vm_compute. reflexivity. Qed.

(** ** The pointers of the ledger *)

(** Case analysis on a test of the goal. *)
Ltac case_goal :=
  match goal with
  | |- context [decide ?P] => destruct (decide P)
  end.

Section Part001Pointers_facts.
Import Part001Pointers.

Lemma fresh_unallocated (h : gmap positive Usage) : h !! fresh (dom h) = None.
Proof. apply not_elem_of_dom, is_fresh. Qed.

Lemma cloneUsage_some (h : gmap positive Usage) (a : positive) (c : Usage) :
  h !! a = Some c →
  cloneUsage h (Some a) = (<[fresh (dom h) := c]> h, Some (fresh (dom h))).
Proof. intros Ha. unfold cloneUsage. by rewrite Ha. Qed.

Lemma grow_subseteq (h : gmap positive Usage) (c : Usage) :
  h ⊆ <[fresh (dom h) := c]> h.
Proof. apply insert_subseteq, fresh_unallocated. Qed.

Lemma load_subseteq (h h' : gmap positive Usage) (u : option positive) :
  h ⊆ h' → allocated h u → load h' u = load h u.
Proof.
  intros Hsub Hu. destruct u as [a|]; [|reflexivity]. cbn.
  destruct (Hu a eq_refl) as [c Hc]. rewrite Hc.
  by eapply lookup_weaken.
Qed.

Lemma allocated_subseteq (h h' : gmap positive Usage) (u : option positive) :
  h ⊆ h' → allocated h u → allocated h' u.
Proof.
  intros Hsub Hu a Ha. destruct (Hu a Ha) as [c Hc]. exists c.
  by eapply lookup_weaken.
Qed.

Lemma stateAllocated_subseteq (h h' : gmap positive Usage) (m : usageState) :
  h ⊆ h' → stateAllocated h m → stateAllocated h' m.
Proof.
  intros Hsub [Hs Hi Hr]. split.
  - intros id u Hu. eapply allocated_subseteq; [done|]. by eapply Hs.
  - intros id u Hu. eapply allocated_subseteq; [done|]. by eapply Hi.
  - by eapply allocated_subseteq.
Qed.

Lemma stateValues_subseteq (h h' : gmap positive Usage) (m : usageState) :
  h ⊆ h' → stateAllocated h m → stateValues h' m = stateValues h m.
Proof.
  intros Hsub [Hs Hi Hr]. unfold stateValues. f_equal.
  - apply map_fmap_ext. intros id u Hu. apply load_subseteq; [done|]. by eapply Hs.
  - apply map_fmap_ext. intros id u Hu. apply load_subseteq; [done|]. by eapply Hi.
  - by apply load_subseteq.
Qed.

(** What [cloneUsage] does to the heap and which pointer it returns. *)
Lemma cloneUsage_spec (h : gmap positive Usage) (u : option positive) :
  allocated h u →
  ∃ h' u', cloneUsage h u = (h', u')
    ∧ h ⊆ h'
    ∧ load h' u' = load h u
    ∧ allocated h' u'
    ∧ (u' = None ↔ u = None)
    ∧ (∀ b, u' = Some b → h !! b = None).
Proof.
  intros Hu. destruct u as [a|].
  - destruct (Hu a eq_refl) as [c Hc]. rewrite (cloneUsage_some h a c Hc).
    eexists _, _. split; [reflexivity|]. split; [apply grow_subseteq|].
    split; [cbn; by rewrite lookup_insert_eq|]. split.
    { intros b [= <-]. rewrite lookup_insert_eq. by eexists. }
    split; [done|]. intros b [= <-]. apply fresh_unallocated.
  - exists h, None. cbn. repeat split; try done.
Qed.



Lemma loads_subseteq (h h' : gmap positive Usage) (mp : gmap string (option positive)) :
  h ⊆ h' → (∀ id u, mp !! id = Some u → allocated h u) →
  load h' <$> mp = load h <$> mp.
Proof.
  intros Hsub Hmp. apply map_fmap_ext. intros id u Hu.
  apply load_subseteq; [done|]. by eapply Hmp.
Qed.

Lemma allocated_insert (h : gmap positive Usage) (mp : gmap string (option positive))
    (sid : string) (u : option positive) :
  allocated h u → (∀ id v, mp !! id = Some v → allocated h v) →
  ∀ id v, <[sid := u]> mp !! id = Some v → allocated h v.
Proof.
  intros Hu Hmp id v. destruct (decide (sid = id)) as [->|Hne].
  - rewrite lookup_insert_eq. by intros [= <-].
  - rewrite lookup_insert_ne by done. apply Hmp.
Qed.

Lemma storeSession_spec (h : gmap positive Usage) (m : usageState) (sid : string)
    (sel incl : option positive) :
  allocated h sel → allocated h incl → stateAllocated h m →
  ∃ h' m', storeSession h m sid sel incl = (h', m')
    ∧ h ⊆ h'
    ∧ stateAllocated h' m'
    ∧ stateValues h' m'
        = Part001.mkState
            (match load h sel, load h incl with
             | Some u, _ => <[sid := Some u]> (load h <$> sessions m)
             | None, Some u => <[sid := Some u]> (load h <$> sessions m)
             | None, None => load h <$> sessions m
             end)
            (match load h incl with
             | Some u => <[sid := Some u]> (load h <$> inclusive m)
             | None => load h <$> inclusive m
             end)
            (sessionAgents m) (load h (rootInclusive m)) (rootSessionID m)
            (rootAgentName m) (activeSessionID m)
    ∧ ((sel ≠ None ∨ incl ≠ None) →
       ∃ b, sessions m' !! sid = Some (Some b) ∧ h !! b = None)
    ∧ (sel = None → incl = None → sessions m' = sessions m)
    ∧ (∀ id, id ≠ sid → sessions m' !! id = sessions m !! id).
Proof.
  intros Hsel Hincl Hm. unfold storeSession.
  destruct (cloneUsage_spec h sel Hsel) as (h1 & s1 & E1 & Sub1 & L1 & A1 & N1 & F1).
  rewrite E1.
  assert (allocated h1 incl) as Hincl1 by (by apply (allocated_subseteq h h1)).
  assert (stateAllocated h1 m) as Hm1 by (by apply (stateAllocated_subseteq h h1)).
  destruct s1 as [b1|].
  - (* the self-usage is cloned *)
    assert (sel ≠ None) as Hsel' by (intros Hn; by apply N1 in Hn).
    destruct (cloneUsage_spec h1 incl Hincl1)
      as (h2 & s2 & E2 & Sub2 & L2 & A2 & N2 & F2).
    assert (h ⊆ h2) as Sub by (by etrans).
    destruct incl as [bi|].
    + rewrite E2. destruct s2 as [b2|]; [|by pose proof (proj1 N2 eq_refl)].
      eexists _, _. split; [reflexivity|]. split; [exact Sub|].
      destruct Hm as [Hs Hi Hr]. split; [split; cbn|].
      { apply allocated_insert; [by apply (allocated_subseteq h1 h2)|].
        intros id u Hu. apply (allocated_subseteq h h2); [exact Sub|by eapply Hs]. }
      { apply allocated_insert; [done|].
        intros id u Hu. apply (allocated_subseteq h h2); [exact Sub|by eapply Hi]. }
      { by apply (allocated_subseteq h h2). }
      split; [|split; [|split]].
      * unfold stateValues. cbn.
        rewrite !fmap_insert, (loads_subseteq h h2), (loads_subseteq h h2) by done.
        rewrite (load_subseteq h1 h2 (Some b1)) by done.
        rewrite L1, L2, (load_subseteq h h1 (Some bi)) by done.
        rewrite (load_subseteq h h2) by done.
        destruct sel as [a|]; [|done].
        destruct (Hsel a eq_refl) as [ca Hca]. destruct (Hincl bi eq_refl) as [ci Hci].
        cbn. by rewrite Hca, Hci.
      * intros _. exists b1. cbn. rewrite lookup_insert_eq. split; [done|].
        by apply F1.
      * done.
      * intros id Hne. cbn. by rewrite lookup_insert_ne.
    + eexists _, _. split; [reflexivity|]. split; [exact Sub1|].
      destruct Hm as [Hs Hi Hr]. split; [split; cbn|].
      { apply allocated_insert; [done|].
        intros id u Hu. apply (allocated_subseteq h h1); [exact Sub1|by eapply Hs]. }
      { intros id u Hu. apply (allocated_subseteq h h1); [exact Sub1|by eapply Hi]. }
      { by apply (allocated_subseteq h h1). }
      split; [|split; [|split]].
      * unfold stateValues. cbn.
        rewrite !fmap_insert, (loads_subseteq h h1), (loads_subseteq h h1) by done.
        rewrite L1, (load_subseteq h h1) by done.
        destruct sel as [a|]; [|done].
        destruct (Hsel a eq_refl) as [ca Hca]. cbn. by rewrite Hca.
      * intros _. exists b1. cbn. rewrite lookup_insert_eq. split; [done|].
        by apply F1.
      * done.
      * intros id Hne. cbn. by rewrite lookup_insert_ne.
  - (* no self-usage: the inclusive usage is cloned in its place *)
    assert (sel = None) as -> by (by apply N1).
    destruct (cloneUsage_spec h1 incl Hincl1)
      as (h2 & s2 & E2 & Sub2 & L2 & A2 & N2 & F2).
    rewrite E2.
    assert (h ⊆ h2) as Sub by (by etrans).
    assert (allocated h2 incl) as Hincl2 by (by apply (allocated_subseteq h h2)).
    destruct (cloneUsage_spec h2 incl Hincl2)
      as (h3 & s3 & E3 & Sub3 & L3 & A3 & N3 & F3).
    assert (h ⊆ h3) as Sub' by (by etrans).
    destruct incl as [bi|].
    + rewrite E3.
      destruct s2 as [b2|]; [|by pose proof (proj1 N2 eq_refl)].
      destruct s3 as [b3|]; [|by pose proof (proj1 N3 eq_refl)].
      eexists _, _. split; [reflexivity|]. split; [exact Sub'|].
      destruct Hm as [Hs Hi Hr]. split; [split; cbn|].
      { apply allocated_insert; [by apply (allocated_subseteq h2 h3)|].
        intros id u Hu. apply (allocated_subseteq h h3); [exact Sub'|by eapply Hs]. }
      { apply allocated_insert; [done|].
        intros id u Hu. apply (allocated_subseteq h h3); [exact Sub'|by eapply Hi]. }
      { by apply (allocated_subseteq h h3). }
      split; [|split; [|split]].
      * unfold stateValues. cbn.
        rewrite !fmap_insert, (loads_subseteq h h3), (loads_subseteq h h3) by done.
        rewrite (load_subseteq h2 h3 (Some b2)) by done.
        rewrite L3, L2, (load_subseteq h1 h2 (Some bi)) by done.
        rewrite (load_subseteq h h1 (Some bi)) by done.
        rewrite (load_subseteq h h3) by done.
        destruct (Hincl bi eq_refl) as [ci Hci]. cbn. by rewrite Hci.
      * intros _. exists b2. cbn. rewrite lookup_insert_eq. split; [done|].
        destruct (h !! b2) as [c|] eqn:Hb2; [|done].
        pose proof (lookup_weaken _ _ _ _ Hb2 Sub1) as Hb2'.
        rewrite (F2 b2 eq_refl) in Hb2'. done.
      * done.
      * intros id Hne. cbn. by rewrite lookup_insert_ne.
    + assert (s2 = None) as -> by (by apply N2).
      eexists _, _. split; [reflexivity|]. split; [exact Sub|].
      split; [by apply (stateAllocated_subseteq h h2)|].
      split; [|split; [|split]].
      * by rewrite (stateValues_subseteq h h2).
      * intros [?|?]; done.
      * done.
      * done.
Qed.

Lemma storeRoot_spec (h : gmap positive Usage) (m : usageState) (sid : string)
    (incl : option positive) :
  allocated h incl → stateAllocated h m →
  ∃ h' m', storeRoot h m sid incl = (h', m')
    ∧ h ⊆ h'
    ∧ stateAllocated h' m'
    ∧ stateValues h' m'
        = (let v := Part001.set_rootInclusive (load h incl) (stateValues h m) in
           if decide (sid ≠ "") then Part001.set_rootSessionID sid v else v)
    ∧ sessions m' = sessions m.
Proof.
  intros Hincl Hm. unfold storeRoot.
  destruct (cloneUsage_spec h incl Hincl) as (h1 & s1 & E1 & Sub1 & L1 & A1 & N1 & F1).
  rewrite E1. eexists _, _. split; [reflexivity|]. split; [exact Sub1|].
  destruct Hm as [Hs Hi Hr]. split; [|split].
  - case_decide; split; cbn; try assumption;
      intros id u Hu; apply (allocated_subseteq h h1); eauto.
  - case_decide; unfold stateValues; cbn;
      by rewrite L1, (loads_subseteq h h1), (loads_subseteq h h1).
  - by case_decide.
Qed.

(** The legacy fallback picks the same field at both levels. *)
Lemma legacyFallback_values (h : gmap positive Usage) (event : TokenUsageEvent) :
  eventAllocated h event →
  selfUsageOf (eventValues h event) = load h (fst (legacyFallback event))
  ∧ inclusiveUsageOf (eventValues h event) = load h (snd (legacyFallback event))
  ∧ allocated h (fst (legacyFallback event))
  ∧ allocated h (snd (legacyFallback event)).
Proof.
  intros [Hs Hi Hl]. rewrite selfUsageOf_cases, inclusiveUsageOf_cases.
  unfold legacyFallback, eventValues. cbn.
  destruct (SelfUsage event) as [a|], (InclusiveUsage event) as [b|],
    (LegacyUsage event) as [c|];
    repeat match goal with
    | H : allocated h (Some ?x) |- _ =>
      let v := fresh "v" in let Hv := fresh "Hv" in
      destruct (H x eq_refl) as [v Hv]; clear H
    end;
    case_decide; cbn; rewrite ?Hv, ?Hv0, ?Hv1;
    repeat split; try done; try (intros ? [= <-]; by eexists);
    intuition congruence.
Qed.



Lemma stateValues_agents (h : gmap positive Usage) (m : usageState)
    (v : gmap string string) :
  stateValues h (set_sessionAgents v m) = Part001.set_sessionAgents v (stateValues h m).
Proof. reflexivity. Qed.

Lemma SetTokenUsage_pointers (h : gmap positive Usage) (m : usageState)
    (event : TokenUsageEvent) :
  eventAllocated h event → stateAllocated h m →
  ∃ h' m', SetTokenUsage h m (Some event) = (h', m')
    ∧ h ⊆ h'
    ∧ stateAllocated h' m'
    ∧ stateValues h' m'
        = Part001.SetTokenUsage (stateValues h m) (Some (eventValues h event))
    ∧ (SessionID event ≠ "" →
       fst (legacyFallback event) ≠ None ∨ snd (legacyFallback event) ≠ None →
       ∃ b, sessions m' !! SessionID event = Some (Some b) ∧ h !! b = None)
    ∧ (∀ id, id ≠ SessionID event → sessions m' !! id = sessions m !! id)
    ∧ (fst (legacyFallback event) = None → snd (legacyFallback event) = None →
       sessions m' = sessions m).
Proof.
  intros He Hm.
  destruct (legacyFallback_values h event He) as (Hself & Hincl & Hsa & Hia).
  unfold SetTokenUsage. destruct (legacyFallback event) as [sel incl].
  cbn [fst snd] in *.
  set (m1 := if decide (AgentName event ≠ "" ∧ rootAgentName m = "")
             then set_rootAgentName (AgentName event) m else m).
  set (m2 := if decide (SessionID event ≠ "")
             then set_activeSessionID (SessionID event) m1 else m1).
  assert (stateAllocated h m2) as Hm2.
  { subst m1 m2. destruct Hm. repeat case_goal; by split. }
  assert (∃ h3 m3,
            (if decide (SessionID event ≠ "")
             then storeSession h m2 (SessionID event) sel incl else (h, m2)) = (h3, m3)
            ∧ h ⊆ h3 ∧ stateAllocated h3 m3
            ∧ Part001.sessions (stateValues h3 m3)
                = Part001.sessions
                    (Part001.SetTokenUsage (stateValues h m) (Some (eventValues h event)))
            ∧ Part001.inclusive (stateValues h3 m3)
                = Part001.inclusive
                    (Part001.SetTokenUsage (stateValues h m) (Some (eventValues h event)))
            ∧ load h3 (rootInclusive m3) = load h (rootInclusive m)
            ∧ sessionAgents m3 = sessionAgents m
            ∧ rootSessionID m3 = rootSessionID m
            ∧ rootAgentName m3 = rootAgentName m1
            ∧ activeSessionID m3 = activeSessionID m2
            ∧ (SessionID event ≠ "" → sel ≠ None ∨ incl ≠ None →
               ∃ b, sessions m3 !! SessionID event = Some (Some b) ∧ h !! b = None)
            ∧ (∀ id, id ≠ SessionID event → sessions m3 !! id = sessions m !! id)
            ∧ (sel = None → incl = None → sessions m3 = sessions m))
    as (h3 & m3 & E3 & Sub3 & A3 & V3).
  { rewrite Part001_sessions, Part001_inclusive, Hself, Hincl. cbn [eventValues runtime.SessionID].
    destruct (decide (SessionID event ≠ "")) as [Hid|Hid].
    - destruct (storeSession_spec h m2 (SessionID event) sel incl Hsa Hia Hm2)
        as (h3 & m3 & E3 & Sub3 & A3 & V3 & P3 & N3 & O3).
      exists h3, m3. split; [exact E3|]. split; [exact Sub3|]. split; [exact A3|].
      pose proof (f_equal Part001.sessions V3) as F1.
      pose proof (f_equal Part001.inclusive V3) as F2.
      pose proof (f_equal Part001.rootInclusive V3) as F3.
      pose proof (f_equal Part001.sessionAgents V3) as F4.
      pose proof (f_equal Part001.rootSessionID V3) as F5.
      pose proof (f_equal Part001.rootAgentName V3) as F6.
      pose proof (f_equal Part001.activeSessionID V3) as F7.
      cbn in F1, F2, F3, F4, F5, F6, F7. cbn.
      rewrite F1, F2, F3, F4, F5, F6, F7.
      assert (sessions m2 = sessions m) as Hs2
        by (subst m1 m2; by repeat case_goal).
      rewrite Hs2 in O3, N3. subst m1 m2. cbn.
      repeat case_goal; cbn; repeat split; try done.
    - exists h, m2. split; [reflexivity|]. split; [reflexivity|]. split; [exact Hm2|].
      subst m1 m2. repeat case_goal; cbn; repeat split; try done. }
  rewrite E3.
  destruct V3 as (Vs & Vi & Vr & Va & Vsid & Vname & Vact & P3 & O3 & N3).
  set (m4 := if decide (AgentName event ≠ "" ∧ SessionID event ≠ "")
             then set_sessionAgents (<[SessionID event := AgentName event]> (sessionAgents m3)) m3
             else m3).
  assert (sessions m4 = sessions m3) as Hs4.
  { unfold m4. by destruct (decide (AgentName event ≠ "" ∧ SessionID event ≠ "")). }
  assert (stateAllocated h3 m4) as A4.
  { subst m4. destruct A3.
    destruct (decide (AgentName event ≠ "" ∧ SessionID event ≠ "")); split; cbn; done. }
  assert (rootAgentName m4 = rootAfter (rootAgentName m) (eventValues h event)) as Hroot.
  { subst m4 m1. unfold rootAfter. cbn [eventValues runtime.AgentName].
    repeat case_goal; cbn; rewrite Vname; cbn; try done; tauto. }
  assert (stateValues h3 m4
          = (if decide (AgentName event ≠ "" ∧ SessionID event ≠ "")
             then Part001.set_sessionAgents
                    (<[SessionID event := AgentName event]> (sessionAgents m))
                    (stateValues h3 m3)
             else stateValues h3 m3)) as V4.
  { subst m4. rewrite Va.
    by destruct (decide (AgentName event ≠ "" ∧ SessionID event ≠ "")). }
  assert (allocated h3 incl) as Hia3 by (by apply (allocated_subseteq h h3)).
  assert (∀ v : Part001.usageState,
            Part001.sessions v = Part001.sessions (stateValues h3 m3) →
            Part001.inclusive v = Part001.inclusive (stateValues h3 m3) →
            Part001.sessionAgents v = Part001.sessionAgents (stateValues h3 m4) →
            Part001.rootAgentName v = rootAgentName m4 →
            Part001.activeSessionID v = activeSessionID m2 →
            Part001.rootInclusive v
              = (if decide (AgentName event = rootAgentName m4 ∧ incl ≠ None)
                 then load h incl else load h (rootInclusive m)) →
            Part001.rootSessionID v
              = (if decide (AgentName event = rootAgentName m4 ∧ incl ≠ None
                            ∧ SessionID event ≠ "")
                 then SessionID event else rootSessionID m) →
            v = Part001.SetTokenUsage (stateValues h m) (Some (eventValues h event)))
    as Hfields.
  { intros v Fs Fi Fa Fn Fact Fr Fsid. apply Part001_state_eq.
    - by rewrite Fs, Vs.
    - by rewrite Fi, Vi.
    - rewrite Fa, V4, Part001_sessionAgents. cbn [eventValues runtime.AgentName runtime.SessionID].
      case_goal; cbn; by rewrite ?Va.
    - rewrite Fr, Part001_rootInclusive, Hincl, Hroot.
      cbn [eventValues runtime.AgentName stateValues Part001.rootAgentName Part001.rootInclusive].
      destruct incl as [b|]; [destruct (Hia b eq_refl) as [c Hc]; cbn; rewrite Hc|cbn];
        repeat case_goal; try done; intuition congruence.
    - rewrite Fsid, Part001_rootSessionID, Hincl, Hroot.
      cbn [eventValues runtime.AgentName runtime.SessionID stateValues
           Part001.rootAgentName Part001.rootSessionID].
      destruct incl as [b|]; [destruct (Hia b eq_refl) as [c Hc]; cbn; rewrite Hc|cbn];
        repeat case_goal; try done; intuition congruence.
    - by rewrite Fn, Hroot, Part001_rootAgentName.
    - rewrite Fact, Part001_activeSessionID. subst m2 m1.
      cbn [eventValues runtime.SessionID]. repeat case_goal; done. }
  destruct (decide (AgentName event = rootAgentName m4 ∧ incl ≠ None)) as [Hc|Hc].
  - destruct (storeRoot_spec h3 m4 (SessionID event) incl Hia3 A4)
      as (h5 & m5 & E5 & Sub5 & A5 & V5 & Hs5).
    exists h5, m5. split; [exact E5|]. split; [by etrans|]. split; [exact A5|].
    rewrite Hs5, Hs4. split; [|by repeat split].
    apply Hfields; rewrite V5; cbn zeta.
    + rewrite V4. by repeat case_goal.
    + rewrite V4. by repeat case_goal.
    + by case_goal.
    + by case_goal.
    + case_goal; cbn; subst m4; case_goal; cbn; by rewrite Vact.
    + rewrite (load_subseteq h h3) by done. by case_goal.
    + destruct (decide (SessionID event ≠ "")) as [Hid|Hid]; cbn.
      * by rewrite decide_True by tauto.
      * rewrite decide_False by tauto. subst m4. case_goal; cbn; by rewrite Vsid.
  - exists h3, m4. split; [reflexivity|]. split; [exact Sub3|]. split; [exact A4|].
    rewrite Hs4. split; [|by repeat split].
    apply Hfields.
    + by rewrite V4; case_goal.
    + by rewrite V4; case_goal.
    + done.
    + done.
    + subst m4. case_goal; cbn; by rewrite Vact.
    + subst m4. case_goal; cbn; by rewrite Vr.
    + rewrite decide_False by tauto. subst m4. case_goal; cbn; by rewrite Vsid.
Qed.



(** X15: [SetTokenUsage] of [part_001] on pointers.  When no pointer of
    the event or of the ledger dangles, the call writes to no struct that
    existed (those of the event among them), leaves no pointer of the ledger
    dangling, and reading every pointer afterwards gives the ledger that
    [Part001.SetTokenUsage] computes from the structs:
    [Part001.SetTokenUsage] is [Part001Pointers.SetTokenUsage] seen through
    the structs. *)
Theorem SetTokenUsage_values (h : gmap positive Usage) (m : usageState)
    (event : TokenUsageEvent) :
  eventAllocated h event → stateAllocated h m →
  ∃ h' m', SetTokenUsage h m (Some event) = (h', m')
    ∧ h ⊆ h'
    ∧ stateAllocated h' m'
    ∧ stateValues h' m'
        = Part001.SetTokenUsage (stateValues h m) (Some (eventValues h event)).
Proof.
  intros He Hm.
  destruct (SetTokenUsage_pointers h m event He Hm)
    as (h' & m' & E & Sub & A & V & _).
  by exists h', m'.
Qed.

Lemma filedPointer_fallback (event : TokenUsageEvent) :
  filedPointer event
  = match fst (legacyFallback event) with
    | Some a => Some a
    | None => snd (legacyFallback event)
    end.
Proof.
  unfold filedPointer, legacyFallback.
  destruct (SelfUsage event), (InclusiveUsage event), (LegacyUsage event);
    case_goal; cbn; try reflexivity; intuition congruence.
Qed.



(** C7, as the code has it: for an event that names a session, [part_001]
    files under that session a private copy of the first snapshot present
    among the event's self-usage, its legacy usage and its inclusive usage,
    in place of whatever was filed there: the pointer filed is the address
    of a struct that did not exist before the call (so neither the event's
    struct nor any struct the ledger or anyone else held), holding what the
    event's struct holds; no struct that existed is written to; with none
    of the three snapshots the session's entry is left as it was; and no
    other session's entry changes. *)
Theorem session_snapshot (h : gmap positive Usage) (m : usageState)
    (event : TokenUsageEvent) :
  eventAllocated h event → stateAllocated h m → SessionID event ≠ "" →
  ∃ h' m', SetTokenUsage h m (Some event) = (h', m')
    ∧ h ⊆ h'
    ∧ (∀ id, id ≠ SessionID event → sessions m' !! id = sessions m !! id)
    ∧ match filedPointer event with
      | Some a =>
        ∃ clone, sessions m' !! SessionID event = Some (Some clone)
          ∧ h !! clone = None
          ∧ h' !! clone = h !! a
      | None => sessions m' !! SessionID event = sessions m !! SessionID event
      end.
Proof.
  intros He Hm Hid.
  destruct (SetTokenUsage_pointers h m event He Hm)
    as (h' & m' & E & Sub & A & V & P & O & N).
  exists h', m'. split; [exact E|]. split; [exact Sub|]. split; [exact O|].
  pose proof (filedPointer_fallback event) as Hfiled.
  destruct (filedPointer event) as [a|] eqn:Ha.
  - destruct (P Hid) as (clone & Hclone & Hfresh).
    { destruct (fst (legacyFallback event)); [by left|]. right. congruence. }
    exists clone. split; [exact Hclone|]. split; [exact Hfresh|].
    assert (Part001.sessions
              (Part001.SetTokenUsage (stateValues h m) (Some (eventValues h event)))
              !! SessionID event = Some (h' !! clone)) as Hv.
    { rewrite <- V. unfold stateValues. cbn [Part001.sessions].
      by rewrite lookup_fmap, Hclone. }
    destruct (Part001_session_snapshot (stateValues h m) (eventValues h event) Hid) as [Hs _].
    cbn [eventValues runtime.SessionID] in Hs. rewrite Hs in Hv. clear Hs.
    unfold filedPointer in Ha. cbn in Hv. destruct He as [Hes Hei Hel].
    destruct (SelfUsage event) as [x|], (LegacyUsage event) as [y|],
      (InclusiveUsage event) as [z|];
      repeat match goal with
      | H : allocated h (Some ?x) |- _ =>
        let v := fresh "v" in let Hv := fresh "Hv" in
        destruct (H x eq_refl) as [v Hv]; clear H
      end;
      cbn in Hv; simplify_eq; cbn in Hv;
      repeat match goal with
      | H : h !! _ = Some _ |- _ => rewrite H in Hv
      end;
      congruence.
  - rewrite N; [reflexivity| |];
      destruct (fst (legacyFallback event)); congruence.
Qed.

End Part001Pointers_facts.

Lemma session_snapshot_witness :
  ∃ h' m' clone,
    Part001Pointers.SetTokenUsage PointerExample.heap Part001Pointers.New
      (Some PointerExample.event) = (h', m')
    ∧ Part001Pointers.sessions m' !! "s1"%string = Some (Some clone)
    ∧ clone ≠ 1%positive
    ∧ h' !! clone = Some Examples.rootUsage.
Proof.
  destruct (session_snapshot PointerExample.heap Part001Pointers.New PointerExample.event)
    as (h' & m' & E & _ & _ & clone & Hclone & Hfresh & Hvalue).
  - split; intros a; cbn; try discriminate.
    intros [= <-]. eexists. vm_compute. reflexivity.
  - split; cbn.
    + intros id u. by rewrite lookup_empty.
    + intros id u. by rewrite lookup_empty.
    + intros a. discriminate.
  - discriminate.
  - exists h', m', clone. split; [exact E|]. split; [exact Hclone|]. split.
    + intros ->. vm_compute in Hfresh. discriminate.
    + rewrite Hvalue. vm_compute. reflexivity.
Defined.

Lemma SetTokenUsage_values_witness :
  ∃ h' m',
    Part001Pointers.SetTokenUsage PointerExample.heap Part001Pointers.New
      (Some PointerExample.event) = (h', m')
    ∧ PointerExample.heap ⊆ h'
    ∧ Part001Pointers.stateValues h' m'
      = Part001.SetTokenUsage Part001.New (Some Examples.rootEvent).
Proof.
  destruct (SetTokenUsage_values PointerExample.heap Part001Pointers.New
              PointerExample.event) as (h' & m' & E & Hsub & _ & Hvalues).
  - split; intros a; cbn; try discriminate.
    intros [= <-]. eexists. vm_compute. reflexivity.
  - split; cbn.
    + intros id u. by rewrite lookup_empty.
    + intros id u. by rewrite lookup_empty.
    + intros a. discriminate.
  - exists h', m'. split; [exact E|]. split; [exact Hsub|]. exact Hvalues.
Defined.

(** ** More on ledgers built by ingestion *)

Lemma SidebarGo_built_step (m : SidebarGo.usageState) (event : option TokenUsageEvent) :
  SidebarGo_built m → SidebarGo_built (SidebarGo.SetTokenUsage m event).
Proof.
  intros [Hwf Ha]. split; [by apply SidebarGo_wf_step|].
  destruct event as [event|]; [|exact Ha].
  intros id name. rewrite SidebarGo_sessionAgents.
  destruct (decide (AgentName event ≠ "" ∧ SessionID event ≠ "")) as [[Hn Hs]|_];
    [|apply Ha].
  destruct (decide (id = SessionID event)) as [->|Hne].
  - rewrite lookup_insert_eq. by intros [= <-].
  - rewrite lookup_insert_ne by done. apply Ha.
Qed.

Lemma Part001_built_step (m : Part001.usageState) (event : option TokenUsageEvent) :
  Part001_built m → Part001_built (Part001.SetTokenUsage m event).
Proof.
  intros [Hwf Ha Hi Hr]. split; [by apply Part001_wf_step| | |];
    (destruct event as [event|]; [|done]).
  - intros id name. rewrite Part001_sessionAgents.
    destruct (decide (AgentName event ≠ "" ∧ SessionID event ≠ "")) as [[Hn Hs]|_];
      [|apply Ha].
    destruct (decide (id = SessionID event)) as [->|Hne].
    + rewrite lookup_insert_eq. by intros [= <-].
    + rewrite lookup_insert_ne by done. apply Ha.
  - rewrite Part001_sessions, Part001_inclusive.
    destruct (decide (SessionID event ≠ "")); [|done].
    destruct (selfUsageOf event), (inclusiveUsageOf event);
      rewrite ?dom_insert; set_solver.
  - rewrite Part001_rootSessionID, Part001_sessions.
    destruct (decide (AgentName event = rootAfter (Part001.rootAgentName m) event
                      ∧ inclusiveUsageOf event ≠ None ∧ SessionID event ≠ ""))
      as [(_ & Hincl & Hid)|_].
    + intros _. rewrite decide_True by done.
      destruct (selfUsageOf event), (inclusiveUsageOf event);
        rewrite ?dom_insert; set_solver.
    + intros Hroot. specialize (Hr Hroot).
      destruct (decide (SessionID event ≠ "")); [|done].
      destruct (selfUsageOf event), (inclusiveUsageOf event);
        rewrite ?dom_insert; set_solver.
Qed.

Lemma SidebarGo_built_record (events : list (option TokenUsageEvent)) :
  SidebarGo_built (SidebarGo_record SidebarGo.New events).
Proof.
  assert (SidebarGo_built SidebarGo.New) as Hnew.
  { split; [apply (SidebarGo_wf_record [])|].
    intros id name. cbn. by rewrite lookup_empty. }
  revert Hnew. generalize SidebarGo.New.
  induction events as [|event events IH]; intros m Hm; [exact Hm|].
  cbn. apply IH. by apply SidebarGo_built_step.
Qed.

Lemma Part001_built_record (events : list (option TokenUsageEvent)) :
  Part001_built (Part001_record Part001.New events).
Proof.
  assert (Part001_built Part001.New) as Hnew.
  { split; [apply (Part001_wf_record [])| | |].
    - intros id name. cbn. by rewrite lookup_empty.
    - cbn. set_solver.
    - cbn. done. }
  revert Hnew. generalize Part001.New.
  induction events as [|event events IH]; intros m Hm; [exact Hm|].
  cbn. apply IH. by apply Part001_built_step.
Qed.

(** X1: the invariants of the ledger.  Whatever events are recorded on the
    ledger made by [New], in either revision: no map holds a [nil] snapshot
    or an entry under the empty session ID; no session is given the empty
    name; a root session is recorded only together with a root inclusive
    snapshot; and in [part_001] every session with an inclusive snapshot,
    and the root session once known, has a filed snapshot. *)
Theorem ledger_built (events : list (option TokenUsageEvent)) :
  SidebarGo_built (SidebarGo_record SidebarGo.New events)
  ∧ Part001_built (Part001_record Part001.New events).
Proof. split; [apply SidebarGo_built_record | apply Part001_built_record]. Qed.

(** ** What a sequence of events does to the maps *)

Lemma sessionsOf_cons (event : option TokenUsageEvent)
    (events : list (option TokenUsageEvent)) :
  sessionsOf (event :: events)
  = match event with
    | Some e => {[SessionID e]} ∪ sessionsOf events
    | None => sessionsOf events
    end.
Proof. unfold sessionsOf. by destruct event. Qed.

Lemma grows_compose (A B C D : gset string) (x : string) :
  B ⊆ A ∪ {[x]} → C ⊆ B ∪ D → C ⊆ A ∪ ({[x]} ∪ D).
Proof. set_solver. Qed.

Lemma SidebarGo_grows_step (m : SidebarGo.usageState) (e : TokenUsageEvent) :
  dom (SidebarGo.sessions m) ⊆ dom (SidebarGo.sessions (SidebarGo.SetTokenUsage m (Some e)))
  ∧ dom (SidebarGo.sessions (SidebarGo.SetTokenUsage m (Some e)))
      ⊆ dom (SidebarGo.sessions m) ∪ {[SessionID e]}
  ∧ dom (SidebarGo.sessionAgents m)
      ⊆ dom (SidebarGo.sessionAgents (SidebarGo.SetTokenUsage m (Some e)))
  ∧ (is_Some (SidebarGo.rootInclusive m) →
     is_Some (SidebarGo.rootInclusive (SidebarGo.SetTokenUsage m (Some e)))).
Proof.
  rewrite SidebarGo_sessions, SidebarGo_sessionAgents, SidebarGo_rootInclusive.
  split; [|split; [|split]].
  - case_decide; rewrite ?dom_insert; set_solver.
  - case_decide; rewrite ?dom_insert; set_solver.
  - case_decide; rewrite ?dom_insert; set_solver.
  - intros Hroot. case_decide as Hc; [|exact Hroot].
    destruct Hc as [_ Hincl]. by destruct (InclusiveUsage e).
Qed.

Lemma Part001_grows_step (m : Part001.usageState) (e : TokenUsageEvent) :
  dom (Part001.sessions m) ⊆ dom (Part001.sessions (Part001.SetTokenUsage m (Some e)))
  ∧ dom (Part001.sessions (Part001.SetTokenUsage m (Some e)))
      ⊆ dom (Part001.sessions m) ∪ {[SessionID e]}
  ∧ dom (Part001.inclusive m) ⊆ dom (Part001.inclusive (Part001.SetTokenUsage m (Some e)))
  ∧ dom (Part001.sessionAgents m)
      ⊆ dom (Part001.sessionAgents (Part001.SetTokenUsage m (Some e)))
  ∧ (is_Some (Part001.rootInclusive m) →
     is_Some (Part001.rootInclusive (Part001.SetTokenUsage m (Some e)))).
Proof.
  rewrite Part001_sessions, Part001_inclusive, Part001_sessionAgents,
    Part001_rootInclusive.
  split; [|split; [|split; [|split]]].
  - case_decide; [|done].
    destruct (selfUsageOf e), (inclusiveUsageOf e); rewrite ?dom_insert; set_solver.
  - case_decide; [|set_solver].
    destruct (selfUsageOf e), (inclusiveUsageOf e); rewrite ?dom_insert; set_solver.
  - case_decide; [|done].
    destruct (inclusiveUsageOf e); rewrite ?dom_insert; set_solver.
  - case_decide; rewrite ?dom_insert; set_solver.
  - intros Hroot. case_decide as Hc; [|exact Hroot].
    destruct Hc as [_ Hincl]. by destruct (inclusiveUsageOf e).
Qed.

(** X2: the ledger only grows.  Whatever events are recorded, in either
    revision: no session is ever removed from [sessions] (nor from
    [inclusive] or [sessionAgents]), the only sessions added are those the
    events name, and a root inclusive snapshot, once present, stays
    present. *)
Theorem ledger_grows (events : list (option TokenUsageEvent)) :
  (∀ m : SidebarGo.usageState,
     dom (SidebarGo.sessions m) ⊆ dom (SidebarGo.sessions (SidebarGo_record m events))
     ∧ dom (SidebarGo.sessions (SidebarGo_record m events))
         ⊆ dom (SidebarGo.sessions m) ∪ sessionsOf events
     ∧ dom (SidebarGo.sessionAgents m)
         ⊆ dom (SidebarGo.sessionAgents (SidebarGo_record m events))
     ∧ (is_Some (SidebarGo.rootInclusive m) →
        is_Some (SidebarGo.rootInclusive (SidebarGo_record m events))))
  ∧ (∀ m : Part001.usageState,
       dom (Part001.sessions m) ⊆ dom (Part001.sessions (Part001_record m events))
       ∧ dom (Part001.sessions (Part001_record m events))
           ⊆ dom (Part001.sessions m) ∪ sessionsOf events
       ∧ dom (Part001.inclusive m) ⊆ dom (Part001.inclusive (Part001_record m events))
       ∧ dom (Part001.sessionAgents m)
           ⊆ dom (Part001.sessionAgents (Part001_record m events))
       ∧ (is_Some (Part001.rootInclusive m) →
          is_Some (Part001.rootInclusive (Part001_record m events)))).
Proof.
  split.
  - induction events as [|[e|] events IH]; intros m.
    + cbn. set_solver.
    + cbn [SidebarGo_record fold_left].
      fold (SidebarGo_record (SidebarGo.SetTokenUsage m (Some e)) events).
      destruct (IH (SidebarGo.SetTokenUsage m (Some e))) as (I1 & I2 & I3 & I4).
      destruct (SidebarGo_grows_step m e) as (S1 & S2 & S3 & S4).
      rewrite sessionsOf_cons. clear IH.
      split; [by etrans|]. split; [|split; [by etrans|auto]].
      exact (grows_compose _ _ _ _ _ S2 I2).
    + cbn [SidebarGo_record fold_left SidebarGo.SetTokenUsage].
      rewrite sessionsOf_cons. apply IH.
  - induction events as [|[e|] events IH]; intros m.
    + cbn. set_solver.
    + cbn [Part001_record fold_left].
      fold (Part001_record (Part001.SetTokenUsage m (Some e)) events).
      destruct (IH (Part001.SetTokenUsage m (Some e))) as (I1 & I2 & I3 & I4 & I5).
      destruct (Part001_grows_step m e) as (S1 & S2 & S3 & S4 & S5).
      rewrite sessionsOf_cons. clear IH.
      split; [by etrans|]. split; [|split; [by etrans|split; [by etrans|auto]]].
      exact (grows_compose _ _ _ _ _ S2 I2).
    + cbn [Part001_record fold_left Part001.SetTokenUsage].
      rewrite sessionsOf_cons. apply IH.
Qed.

(** ** The active session *)

Lemma lastSession_cons (event : option TokenUsageEvent)
    (events : list (option TokenUsageEvent)) :
  lastSession (event :: events)
  = match lastSession events with
    | Some id => Some id
    | None =>
      match event with
      | Some e => if decide (SessionID e ≠ "") then Some (SessionID e) else None
      | None => None
      end
    end.
Proof.
  unfold lastSession. destruct event as [e|]; cbn [omap list_omap fmap option_fmap option_map];
    [|by destruct (last _)].
  rewrite filter_cons. destruct (decide (SessionID e ≠ "")); [|by destruct (last _)].
  by rewrite last_cons.
Qed.

(** X3: the active session.  After any sequence of events, in either
    revision, [activeSessionID] is the session ID of the last event that
    carries one; when no event does, it is what it was before. *)
Theorem active_session (events : list (option TokenUsageEvent)) :
  (∀ m : SidebarGo.usageState,
     SidebarGo.activeSessionID (SidebarGo_record m events)
     = default (SidebarGo.activeSessionID m) (lastSession events))
  ∧ (∀ m : Part001.usageState,
       Part001.activeSessionID (Part001_record m events)
       = default (Part001.activeSessionID m) (lastSession events)).
Proof.
  split.
  - induction events as [|event events IH]; intros m; [reflexivity|].
    cbn [SidebarGo_record fold_left].
    fold (SidebarGo_record (SidebarGo.SetTokenUsage m event) events).
    rewrite IH, lastSession_cons. destruct (lastSession events); [reflexivity|].
    destruct event as [e|]; [|reflexivity].
    rewrite SidebarGo_activeSessionID. by destruct (decide (SessionID e ≠ "")).
  - induction events as [|event events IH]; intros m; [reflexivity|].
    cbn [Part001_record fold_left].
    fold (Part001_record (Part001.SetTokenUsage m event) events).
    rewrite IH, lastSession_cons. destruct (lastSession events); [reflexivity|].
    destruct event as [e|]; [|reflexivity].
    rewrite Part001_activeSessionID. by destruct (decide (SessionID e ≠ "")).
Qed.

(** ** One session at a time *)

(** What [SetTokenUsage] leaves under a session ID depends on the event and
    on what was filed under that ID, and on nothing else. *)
Lemma SidebarGo_step_at (m m' : SidebarGo.usageState) (e : TokenUsageEvent) (id : string) :
  SidebarGo.sessions m !! id = SidebarGo.sessions m' !! id →
  SidebarGo.sessionAgents m !! id = SidebarGo.sessionAgents m' !! id →
  SidebarGo.sessions (SidebarGo.SetTokenUsage m (Some e)) !! id
    = SidebarGo.sessions (SidebarGo.SetTokenUsage m' (Some e)) !! id
  ∧ SidebarGo.sessionAgents (SidebarGo.SetTokenUsage m (Some e)) !! id
    = SidebarGo.sessionAgents (SidebarGo.SetTokenUsage m' (Some e)) !! id.
Proof.
  intros Hs Ha. rewrite !SidebarGo_sessions, !SidebarGo_sessionAgents.
  split; case_decide; try assumption;
    (destruct (decide (id = SessionID e)) as [->|];
       [by rewrite !lookup_insert_eq | by rewrite !lookup_insert_ne]).
Qed.

Lemma SidebarGo_step_other (m : SidebarGo.usageState) (e : TokenUsageEvent) (id : string) :
  SessionID e ≠ id →
  SidebarGo.sessions (SidebarGo.SetTokenUsage m (Some e)) !! id = SidebarGo.sessions m !! id
  ∧ SidebarGo.sessionAgents (SidebarGo.SetTokenUsage m (Some e)) !! id
    = SidebarGo.sessionAgents m !! id.
Proof.
  intros Hne. rewrite !SidebarGo_sessions, !SidebarGo_sessionAgents.
  split; case_decide; try reflexivity; by rewrite lookup_insert_ne.
Qed.

Lemma Part001_step_at (m m' : Part001.usageState) (e : TokenUsageEvent) (id : string) :
  Part001.sessions m !! id = Part001.sessions m' !! id →
  Part001.inclusive m !! id = Part001.inclusive m' !! id →
  Part001.sessionAgents m !! id = Part001.sessionAgents m' !! id →
  Part001.sessions (Part001.SetTokenUsage m (Some e)) !! id
    = Part001.sessions (Part001.SetTokenUsage m' (Some e)) !! id
  ∧ Part001.inclusive (Part001.SetTokenUsage m (Some e)) !! id
    = Part001.inclusive (Part001.SetTokenUsage m' (Some e)) !! id
  ∧ Part001.sessionAgents (Part001.SetTokenUsage m (Some e)) !! id
    = Part001.sessionAgents (Part001.SetTokenUsage m' (Some e)) !! id.
Proof.
  intros Hs Hi Ha.
  rewrite !Part001_sessions, !Part001_inclusive, !Part001_sessionAgents.
  split; [|split]; case_decide; try assumption;
    destruct (selfUsageOf e), (inclusiveUsageOf e); try assumption;
    (destruct (decide (id = SessionID e)) as [->|];
       [by rewrite !lookup_insert_eq | by rewrite !lookup_insert_ne]).
Qed.

Lemma Part001_step_other (m : Part001.usageState) (e : TokenUsageEvent) (id : string) :
  SessionID e ≠ id →
  Part001.sessions (Part001.SetTokenUsage m (Some e)) !! id = Part001.sessions m !! id
  ∧ Part001.inclusive (Part001.SetTokenUsage m (Some e)) !! id = Part001.inclusive m !! id
  ∧ Part001.sessionAgents (Part001.SetTokenUsage m (Some e)) !! id
    = Part001.sessionAgents m !! id.
Proof.
  intros Hne.
  rewrite !Part001_sessions, !Part001_inclusive, !Part001_sessionAgents.
  split; [|split]; case_decide; try reflexivity;
    destruct (selfUsageOf e), (inclusiveUsageOf e); try reflexivity;
    by rewrite lookup_insert_ne.
Qed.

Lemma SidebarGo_isolated (id : string) (events : list (option TokenUsageEvent))
    (m m' : SidebarGo.usageState) :
  SidebarGo.sessions m !! id = SidebarGo.sessions m' !! id →
  SidebarGo.sessionAgents m !! id = SidebarGo.sessionAgents m' !! id →
  SidebarGo.sessions (SidebarGo_record m events) !! id
    = SidebarGo.sessions (SidebarGo_record m' (filter (ofSession id) events)) !! id
  ∧ SidebarGo.sessionAgents (SidebarGo_record m events) !! id
    = SidebarGo.sessionAgents (SidebarGo_record m' (filter (ofSession id) events)) !! id.
Proof.
  revert m m'. induction events as [|event events IH]; intros m m' Hs Ha; [done|].
  cbn [SidebarGo_record fold_left].
  fold (SidebarGo_record (SidebarGo.SetTokenUsage m event) events).
  rewrite filter_cons. destruct (decide (ofSession id event)) as [Hof|Hof].
  - cbn [SidebarGo_record fold_left].
    fold (SidebarGo_record (SidebarGo.SetTokenUsage m' event)
            (filter (ofSession id) events)).
    destruct event as [e|]; [|done].
    destruct (SidebarGo_step_at m m' e id Hs Ha). by apply IH.
  - destruct event as [e|]; [|by apply IH].
    assert (SessionID e ≠ id) as Hne.
    { intros <-. by apply Hof. }
    destruct (SidebarGo_step_other m e id Hne) as [Hs' Ha'].
    apply IH; congruence.
Qed.

Lemma Part001_isolated (id : string) (events : list (option TokenUsageEvent))
    (m m' : Part001.usageState) :
  Part001.sessions m !! id = Part001.sessions m' !! id →
  Part001.inclusive m !! id = Part001.inclusive m' !! id →
  Part001.sessionAgents m !! id = Part001.sessionAgents m' !! id →
  Part001.sessions (Part001_record m events) !! id
    = Part001.sessions (Part001_record m' (filter (ofSession id) events)) !! id
  ∧ Part001.inclusive (Part001_record m events) !! id
    = Part001.inclusive (Part001_record m' (filter (ofSession id) events)) !! id
  ∧ Part001.sessionAgents (Part001_record m events) !! id
    = Part001.sessionAgents (Part001_record m' (filter (ofSession id) events)) !! id.
Proof.
  revert m m'. induction events as [|event events IH]; intros m m' Hs Hi Ha; [done|].
  cbn [Part001_record fold_left].
  fold (Part001_record (Part001.SetTokenUsage m event) events).
  rewrite filter_cons. destruct (decide (ofSession id event)) as [Hof|Hof].
  - cbn [Part001_record fold_left].
    fold (Part001_record (Part001.SetTokenUsage m' event)
            (filter (ofSession id) events)).
    destruct event as [e|]; [|done].
    destruct (Part001_step_at m m' e id Hs Hi Ha) as (? & ? & ?). by apply IH.
  - destruct event as [e|]; [|by apply IH].
    assert (SessionID e ≠ id) as Hne.
    { intros <-. by apply Hof. }
    destruct (Part001_step_other m e id Hne) as (Hs' & Hi' & Ha').
    apply IH; congruence.
Qed.

(** X4: sessions do not interfere.  In either revision, what the ledger
    files under a session ID (its snapshot, its agent name and, in
    [part_001], its inclusive snapshot) after a sequence of events is what
    it would file had only the events of that session been recorded: an
    event of one session never changes the entry of another. *)
Theorem session_isolation (id : string) (events : list (option TokenUsageEvent)) :
  (∀ m : SidebarGo.usageState,
     SidebarGo.sessions (SidebarGo_record m events) !! id
       = SidebarGo.sessions (SidebarGo_record m (filter (ofSession id) events)) !! id
     ∧ SidebarGo.sessionAgents (SidebarGo_record m events) !! id
       = SidebarGo.sessionAgents (SidebarGo_record m (filter (ofSession id) events)) !! id)
  ∧ (∀ m : Part001.usageState,
       Part001.sessions (Part001_record m events) !! id
         = Part001.sessions (Part001_record m (filter (ofSession id) events)) !! id
       ∧ Part001.inclusive (Part001_record m events) !! id
         = Part001.inclusive (Part001_record m (filter (ofSession id) events)) !! id
       ∧ Part001.sessionAgents (Part001_record m events) !! id
         = Part001.sessionAgents (Part001_record m (filter (ofSession id) events)) !! id).
Proof.
  split; intros m.
  - by apply SidebarGo_isolated.
  - by apply Part001_isolated.
Qed.

(** Events of other sessions leave the entries of a session as they are. *)
Lemma filter_ofSession_nil (id : string) (events : list (option TokenUsageEvent)) :
  Forall (λ event, ¬ ofSession id event) events → filter (ofSession id) events = [].
Proof.
  induction 1 as [|event events Hno _ IH]; [done|].
  rewrite filter_cons. by destruct (decide (ofSession id event)).
Qed.

(** X5: a snapshot is kept until its session reports again.  Once an event
    with a session ID and a self-usage has been recorded, the snapshot filed
    under that session is a copy of this self-usage, and it stays so
    whatever events of other sessions (or [nil] events) follow, in either
    revision. *)
Theorem snapshot_kept (e : TokenUsageEvent) (u : Usage)
    (later : list (option TokenUsageEvent)) :
  SessionID e ≠ "" → SelfUsage e = Some u →
  Forall (λ event, ¬ ofSession (SessionID e) event) later →
  (∀ m : SidebarGo.usageState,
     usageAt (SidebarGo.sessions (SidebarGo_record m (Some e :: later))) (SessionID e)
     = Some u)
  ∧ (∀ m : Part001.usageState,
       usageAt (Part001.sessions (Part001_record m (Some e :: later))) (SessionID e)
       = Some u).
Proof.
  intros Hid Hself Hlater. split; intros m; unfold usageAt.
  - destruct (SidebarGo_isolated (SessionID e) (Some e :: later) m m eq_refl eq_refl)
      as [-> _].
    rewrite filter_cons, decide_True by done.
    rewrite filter_ofSession_nil by done. cbn [SidebarGo_record fold_left].
    rewrite SidebarGo_sessions, decide_True by (rewrite Hself; done).
    by rewrite lookup_insert_eq, Hself.
  - destruct (Part001_isolated (SessionID e) (Some e :: later) m m
                eq_refl eq_refl eq_refl) as (-> & _ & _).
    rewrite filter_cons, decide_True by done.
    rewrite filter_ofSession_nil by done. cbn [Part001_record fold_left].
    destruct (Part001_session_snapshot m e Hid) as [-> _]. by rewrite Hself.
Qed.

Lemma snapshot_kept_witness :
  usageAt
    (SidebarGo.sessions
       (SidebarGo_record SidebarGo.New
          [Some Examples.childEvent; Some Examples.rootEvent; None]))
    "child1" = Some Examples.childUsage
  ∧ usageAt
      (Part001.sessions
         (Part001_record Part001.New
            [Some Examples.childEvent; Some Examples.rootEvent; None]))
      "child1" = Some Examples.childUsage.
Proof.
  destruct (snapshot_kept Examples.childEvent Examples.childUsage
              [Some Examples.rootEvent; None]) as [Hs Hp].
  - cbn. discriminate.
  - reflexivity.
  - repeat constructor; cbn; unfold ofSession; cbn; discriminate.
  - split; [apply (Hs SidebarGo.New) | apply (Hp Part001.New)].
Defined.

(** ** The totals of [sidebar.go] right after a report *)

(** X6: the totals of [sidebar.go] right after an event with a session ID
    has been recorded.  After a report of the root agent with an inclusive
    snapshot the totals are a copy of that snapshot, labelled "Team Total",
    whatever else is stored.  After a report with a self-usage from another
    session than the root's, with a root inclusive snapshot on file, they
    are that snapshot with the reported self-usage merged in, labelled
    "Team Total (incl. active child)".  With no root inclusive snapshot on
    file they are the snapshot filed under the event's session, labelled
    "Session Total". *)
Theorem totals_after_report (m : SidebarGo.usageState) (e : TokenUsageEvent) :
  SessionID e ≠ "" →
  let m' := SidebarGo.SetTokenUsage m (Some e) in
  (∀ u, AgentName e = SidebarGo.rootAgentName m' → InclusiveUsage e = Some u →
     SidebarGo.renderTotals m' = ("Team Total"%string, u)
     ∧ SidebarGo.computeTeamTotals m' = Some u)
  ∧ (∀ r c, ¬ (AgentName e = SidebarGo.rootAgentName m' ∧ InclusiveUsage e ≠ None) →
       SidebarGo.rootInclusive m = Some r → SelfUsage e = Some c →
       SessionID e ≠ SidebarGo.rootSessionID m →
       SidebarGo.computeTeamTotals m' = SidebarGo.mergeUsageTotals (Some r) (Some c)
       ∧ fst (SidebarGo.renderTotals m') = "Team Total (incl. active child)"%string)
  ∧ (¬ (AgentName e = SidebarGo.rootAgentName m' ∧ InclusiveUsage e ≠ None) →
     SidebarGo.rootInclusive m = None →
     SidebarGo.computeTeamTotals m' = usageAt (SidebarGo.sessions m') (SessionID e)
     ∧ fst (SidebarGo.renderTotals m') = "Session Total"%string).
Proof.
  intros Hid m'.
  assert (SidebarGo.activeSessionID m' = SessionID e) as Hactive.
  { subst m'. by rewrite SidebarGo_activeSessionID, decide_True. }
  assert (SidebarGo.rootAgentName m' = rootAfter (SidebarGo.rootAgentName m) e) as Hname.
  { subst m'. apply SidebarGo_rootAgentName. }
  pose proof (SidebarGo_rootInclusive m e) as Hroot.
  pose proof (SidebarGo_rootSessionID m e) as Hrid.
  pose proof (SidebarGo_sessions m e) as Hsessions.
  fold m' in Hroot, Hrid, Hsessions. rewrite <- Hname in Hroot, Hrid.
  clearbody m'.
  split; [|split].
  - intros u Hagent Hincl.
    rewrite decide_True in Hroot by (rewrite Hincl; done).
    rewrite decide_True in Hrid by (rewrite Hincl; done).
    rewrite Hincl in Hroot. cbn [cloneUsage] in Hroot.
    unfold SidebarGo.renderTotals, SidebarGo.computeTeamTotals.
    rewrite Hroot, Hactive, Hrid. cbn [cloneUsage].
    rewrite !decide_False by tauto. done.
  - intros r c Hnot Hr Hself Hother.
    rewrite decide_False in Hroot by exact Hnot.
    rewrite decide_False in Hrid by tauto.
    rewrite decide_True in Hsessions by (rewrite Hself; done).
    unfold SidebarGo.renderTotals, SidebarGo.computeTeamTotals,
      SidebarGo.currentSessionUsage.
    rewrite Hroot, Hr, Hactive, Hrid, Hsessions. cbn [cloneUsage].
    rewrite (decide_False (P := SessionID e = "")) by done.
    unfold usageAt. rewrite lookup_insert_eq, Hself. cbn [default cloneUsage].
    rewrite !decide_True by done. done.
  - intros Hnot Hnone.
    rewrite decide_False in Hroot by exact Hnot.
    unfold SidebarGo.renderTotals, SidebarGo.computeTeamTotals,
      SidebarGo.currentSessionUsage.
    rewrite Hroot, Hnone, Hactive. cbn [cloneUsage].
    rewrite (decide_False (P := SessionID e = "")) by done.
    split; [|reflexivity]. by destruct (usageAt _ _).
Qed.

Lemma totals_after_report_witness :
  SidebarGo.renderTotals (SidebarGo.SetTokenUsage SidebarGo.New (Some Examples.rootEvent))
    = ("Team Total"%string, Examples.rootUsage)
  ∧ SidebarGo.computeTeamTotals
      (SidebarGo.SetTokenUsage SidebarGo.New (Some Examples.rootEvent))
    = Some Examples.rootUsage.
Proof.
  destruct (totals_after_report SidebarGo.New Examples.rootEvent) as [Hroot _].
  - cbn. discriminate.
  - apply (Hroot Examples.rootUsage); reflexivity.
Defined.

(** ** The root's exclusive usage is never negative *)

Lemma exclusive_loop_nonneg (root : string) (order : list (string * option Usage))
    (e : Usage) :
  0 <= InputTokens e → 0 <= OutputTokens e → (Cost e <? 0)%float = false →
  ∃ e', fold_left
      (λ exclusive '(id, usage),
         if decide (id = root ∨ usage = None) then exclusive
         else SidebarGo.subtractUsage exclusive usage)
      order (Some e) = Some e'
    ∧ 0 <= InputTokens e' ∧ 0 <= OutputTokens e'
    ∧ (Cost e' <? 0)%float = false
    ∧ ContextLimit e' = ContextLimit e.
Proof.
  revert e. induction order as [|[id usage] order IH]; intros e Hi Ho Hc.
  - exists e. cbn. done.
  - cbn [fold_left].
    destruct (decide (id = root ∨ usage = None)) as [|Hno]; [by apply IH|].
    destruct usage as [d|]; [|tauto]. cbn [SidebarGo.subtractUsage].
    set (e1 := mkUsage _ _ _ _ _).
    destruct (IH e1) as (e' & Hfold & Hi' & Ho' & Hc' & Hl').
    + subst e1. cbn. destruct (Z.ltb_spec (GoInt.sub (InputTokens e) (InputTokens d)) 0); lia.
    + subst e1. cbn. destruct (Z.ltb_spec (GoInt.sub (OutputTokens e) (OutputTokens d)) 0); lia.
    + subst e1. cbn. destruct (Cost e - Cost d <? 0)%float eqn:Hcmp; [reflexivity|exact Hcmp].
    + exists e'. by rewrite Hl'.
Qed.

(** X7: the root's exclusive usage is never negative.  When the root
    inclusive snapshot has non-negative token counts and a cost that is not
    below zero, so has the exclusive usage that [computeRootExclusiveUsage]
    returns, and its context limit is the one of the inclusive snapshot:
    whatever the other sessions hold, and in whatever order they are
    visited. *)
Theorem exclusive_never_negative (m : SidebarGo.usageState)
    (order : list (string * option Usage)) (inclusive : Usage) :
  SidebarGo.rootInclusive m = Some inclusive →
  0 <= InputTokens inclusive → 0 <= OutputTokens inclusive →
  (Cost inclusive <? 0)%float = false →
  ∃ exclusive,
    SidebarGo.computeRootExclusiveUsage m order = Some exclusive
    ∧ 0 <= InputTokens exclusive ∧ 0 <= OutputTokens exclusive
    ∧ (Cost exclusive <? 0)%float = false
    ∧ ContextLimit exclusive = ContextLimit inclusive.
Proof.
  intros Hr Hi Ho Hc. unfold SidebarGo.computeRootExclusiveUsage.
  rewrite Hr. cbn [cloneUsage]. by apply exclusive_loop_nonneg.
Qed.

Lemma exclusive_never_negative_witness :
  ∃ exclusive,
    SidebarGo.computeRootExclusiveUsage Examples.sidebarGoLedger
      (map_to_list (SidebarGo.sessions Examples.sidebarGoLedger)) = Some exclusive
    ∧ 0 <= InputTokens exclusive ∧ 0 <= OutputTokens exclusive
    ∧ ContextLimit exclusive = 8000.
Proof.
  destruct (exclusive_never_negative Examples.sidebarGoLedger
              (map_to_list (SidebarGo.sessions Examples.sidebarGoLedger))
              Examples.rootUsage) as (x & Hx & Hi & Ho & _ & Hl).
  - vm_compute. reflexivity.
  - cbn. lia.
  - cbn. lia.
  - vm_compute. reflexivity.
  - exists x. repeat split; assumption.
Defined.

(** ** More on the breakdown *)

Lemma sortStrings_elem_of (id : string) (ids : list string) :
  id ∈ sortStrings ids ↔ id ∈ ids.
Proof. unfold sortStrings. by rewrite merge_sort_Permutation. Qed.

Lemma sortStrings_NoDup (ids : list string) : NoDup ids → NoDup (sortStrings ids).
Proof. unfold sortStrings. by rewrite merge_sort_Permutation. Qed.

(** X9: the breakdown of [sidebar.go].  With no session on file it is
    empty, even when a root inclusive snapshot is; otherwise it is the
    root's block, if there is one, followed by the blocks of the sessions on
    file in strictly ascending order of session ID, whatever the order of
    the visit that gathers the IDs. *)
Theorem SidebarGo_breakdown_sorted (m : SidebarGo.usageState)
    (order order' : list (string * option Usage)) :
  range_order (SidebarGo.sessions m) order →
  ∃ ids,
    StronglySorted string_lt ids
    ∧ (∀ id, id ∈ ids ↔ id ∈ dom (SidebarGo.sessions m))
    ∧ SidebarGo.sessionBreakdownLines m order order'
      = if decide (SidebarGo.sessions m = ∅) then []
        else optionalHead (SidebarGo.rootSessionBlock m order')
             ++ omap (SidebarGo.sessionBlock m) ids.
Proof.
  intros Horder. exists (sortStrings (elements (dom (SidebarGo.sessions m)))).
  split; [apply sortStrings_ascending, NoDup_elements|].
  split; [|by apply SidebarGo_breakdown].
  intros id. by rewrite sortStrings_elem_of, elem_of_elements.
Qed.

Lemma SidebarGo_breakdown_sorted_witness :
  ∃ ids,
    StronglySorted string_lt ids
    ∧ SidebarGo.sessionBreakdownLines Examples.sidebarGoLedger
        (reverse (map_to_list (SidebarGo.sessions Examples.sidebarGoLedger))) []
      = if decide (SidebarGo.sessions Examples.sidebarGoLedger = ∅) then []
        else optionalHead (SidebarGo.rootSessionBlock Examples.sidebarGoLedger [])
             ++ omap (SidebarGo.sessionBlock Examples.sidebarGoLedger) ids.
Proof.
  destruct (SidebarGo_breakdown_sorted Examples.sidebarGoLedger
              (reverse (map_to_list (SidebarGo.sessions Examples.sidebarGoLedger))) [])
    as (ids & Hsorted & _ & Hlines).
  - unfold range_order. apply reverse_Permutation.
  - exists ids. split; assumption.
Defined.

(** *** At most one block is marked active *)

Lemma inactive_blocks (f : string → option block) (ids : list string) :
  (∀ id b, id ∈ ids → f id = Some b → ¬ blockActive b) →
  filter (λ b, Is_true (blockActive b)) (omap f ids) = [].
Proof.
  induction ids as [|id ids IH]; intros Hf; [reflexivity|]. cbn.
  destruct (f id) as [b|] eqn:Hb.
  - rewrite filter_cons, decide_False by (eapply Hf; [left|exact Hb]).
    apply IH. intros id' b' Hin. apply Hf. by right.
  - apply IH. intros id' b' Hin. apply Hf. by right.
Qed.

Lemma one_active_child (f : string → option block) (active : string)
    (ids : list string) :
  NoDup ids →
  (∀ id b, f id = Some b → blockActive b → id = active) →
  (length (filter (λ b, Is_true (blockActive b)) (omap f ids)) ≤ 1)%nat.
Proof.
  intros Hnodup Hf. induction Hnodup as [|id ids Hid Hnodup IH]; cbn; [lia|].
  destruct (f id) as [b|] eqn:Hb; [|exact IH].
  rewrite filter_cons. destruct (decide (blockActive b)) as [Hactive|]; [|exact IH].
  rewrite inactive_blocks; [cbn; lia|].
  intros id' b' Hin Hb' Hactive'.
  apply (Hf _ _ Hb) in Hactive. apply (Hf _ _ Hb') in Hactive'. congruence.
Qed.

Lemma one_active_line (root : option block) (f : string → option block)
    (rootID active : string) (ids : list string) :
  NoDup ids →
  (∀ b, root = Some b → blockActive b → active = rootID) →
  (∀ id b, f id = Some b → id ≠ rootID ∧ (blockActive b → id = active)) →
  (length (filter (λ b, Is_true (blockActive b)) (optionalHead root ++ omap f ids)) ≤ 1)%nat.
Proof.
  intros Hnodup Hroot Hf.
  assert (length (filter (λ b, Is_true (blockActive b)) (omap f ids)) ≤ 1)%nat
    as Hchildren.
  { apply (one_active_child f active); [exact Hnodup|]. intros id b Hb. by apply Hf. }
  destruct root as [b|]; [|exact Hchildren]. cbn [optionalHead app].
  rewrite filter_cons. destruct (decide (blockActive b)) as [Hactive|]; [|exact Hchildren].
  rewrite inactive_blocks; [cbn; lia|].
  intros id b' _ Hb' Hactive'. destruct (Hf _ _ Hb') as [Hne Hid].
  specialize (Hroot b eq_refl Hactive). apply Hid in Hactive'. congruence.
Qed.

Lemma SidebarGo_sessionBlock_active (m : SidebarGo.usageState) (id : string) (b : block) :
  SidebarGo.sessionBlock m id = Some b →
  id ≠ SidebarGo.rootSessionID m ∧ (blockActive b → id = SidebarGo.activeSessionID m).
Proof.
  unfold SidebarGo.sessionBlock. case_decide; [done|].
  destruct (usageAt _ _); [|done]. cbn. intros [= <-]. cbn.
  split; [done|]. by intros ?%bool_decide_unpack.
Qed.

Lemma Part001_sessionBlock_active (m : Part001.usageState) (id : string) (b : block) :
  Part001.sessionBlock m id = Some b →
  id ≠ Part001.rootSessionID m ∧ (blockActive b → id = Part001.activeSessionID m).
Proof.
  unfold Part001.sessionBlock. case_decide; [done|].
  destruct (usageAt (Part001.sessions m) id); [|destruct (usageAt _ _); [|done]];
    cbn; intros [= <-]; cbn; (split; [done|]); by intros ?%bool_decide_unpack.
Qed.

(** X10: at most one block of the breakdown is marked active, in either
    revision and whatever the ledger holds. *)
Theorem one_active_block :
  (∀ (m : SidebarGo.usageState) (order order' : list (string * option Usage)),
     range_order (SidebarGo.sessions m) order →
     (length (filter (λ b, Is_true (blockActive b))
                (SidebarGo.sessionBreakdownLines m order order')) ≤ 1)%nat)
  ∧ (∀ (m : Part001.usageState) (order order' : list (string * option Usage)),
       range_order (Part001.sessions m) order →
       range_order (Part001.inclusive m) order' →
       (length (filter (λ b, Is_true (blockActive b))
                  (Part001.sessionBreakdownLines m order order')) ≤ 1)%nat).
Proof.
  split.
  - intros m order order' Horder. rewrite SidebarGo_breakdown by done.
    case_decide; [cbn; lia|].
    apply (one_active_line _ _ (SidebarGo.rootSessionID m) (SidebarGo.activeSessionID m)).
    + apply sortStrings_NoDup, NoDup_elements.
    + unfold SidebarGo.rootSessionBlock.
      destruct (SidebarGo.computeRootExclusiveUsage m order'); [|done].
      cbn. intros b [= <-]. cbn. by intros ?%bool_decide_unpack.
    + apply SidebarGo_sessionBlock_active.
  - intros m order order' Horder Horder'. rewrite Part001_breakdown by done.
    apply (one_active_line _ _ (Part001.rootSessionID m) (Part001.activeSessionID m)).
    + apply sortStrings_NoDup, NoDup_elements.
    + unfold Part001.rootSessionBlock.
      destruct (usageAt _ _); [|destruct (Part001.rootInclusive m); [|done]];
        cbn; intros b [= <-]; cbn; by intros ?%bool_decide_unpack.
    + apply Part001_sessionBlock_active.
Qed.

Lemma one_active_block_witness :
  (length (filter (λ b, Is_true (blockActive b))
             (SidebarGo.sessionBreakdownLines Examples.sidebarGoLedger
                (map_to_list (SidebarGo.sessions Examples.sidebarGoLedger))
                (map_to_list (SidebarGo.sessions Examples.sidebarGoLedger)))) ≤ 1)%nat
  ∧ (length (filter (λ b, Is_true (blockActive b))
               (Part001.sessionBreakdownLines Examples.part001Ledger
                  (map_to_list (Part001.sessions Examples.part001Ledger))
                  (map_to_list (Part001.inclusive Examples.part001Ledger)))) ≤ 1)%nat.
Proof.
  destruct one_active_block as [Hs Hp].
  split; [apply Hs | apply Hp]; unfold range_order; reflexivity.
Defined.

(** *** When the breakdown is empty *)

Lemma omap_nonempty {A B : Type} (f : A → option B) (l : list A) (x : A) (y : B) :
  x ∈ l → f x = Some y → omap f l ≠ [].
Proof.
  intros Hin Hx Hnil.
  assert (y ∈ omap f l) as Hy by (apply list_elem_of_omap; eauto).
  rewrite Hnil in Hy. by apply not_elem_of_nil in Hy.
Qed.

Lemma SidebarGo_breakdown_empty (m : SidebarGo.usageState)
    (order order' : list (string * option Usage)) :
  SidebarGo_wf m → range_order (SidebarGo.sessions m) order →
  SidebarGo.sessionBreakdownLines m order order' = [] ↔ SidebarGo.sessions m = ∅.
Proof.
  intros [Hs Hr] Horder. rewrite SidebarGo_breakdown by done.
  case_decide as Hempty; [done|]. split; [|done]. intros Hnil. exfalso.
  apply app_eq_nil in Hnil as [Hroot Hchildren].
  destruct (map_choose _ Hempty) as (id & v & Hv).
  destruct (Hs _ _ Hv) as [Hsome Hid]. destruct v as [u|]; [|done].
  destruct (decide (id = SidebarGo.rootSessionID m)) as [->|Hne].
  - unfold SidebarGo.rootSessionBlock, SidebarGo.computeRootExclusiveUsage in Hroot.
    destruct (SidebarGo.rootInclusive m) as [r|] eqn:Hincl.
    + cbn [cloneUsage] in Hroot.
      destruct (exclusive_loop_some (SidebarGo.rootSessionID m) order' r) as [x Hx].
      rewrite Hx in Hroot. discriminate.
    + by specialize (Hr eq_refl).
  - eapply omap_nonempty; [| |exact Hchildren].
    + apply sortStrings_elem_of, elem_of_elements, elem_of_dom. by eexists.
    + unfold SidebarGo.sessionBlock. rewrite decide_False by done.
      unfold usageAt. rewrite Hv. reflexivity.
Qed.

Lemma Part001_breakdown_empty (m : Part001.usageState)
    (order order' : list (string * option Usage)) :
  Part001_built m →
  range_order (Part001.sessions m) order → range_order (Part001.inclusive m) order' →
  Part001.sessionBreakdownLines m order order' = []
  ↔ Part001.sessions m = ∅ ∧ Part001.rootInclusive m = None.
Proof.
  intros [[Hs Hi Hr] Ha Hincl Hroot] Horder Horder'.
  rewrite Part001_breakdown by done. split.
  - intros Hnil. apply app_eq_nil in Hnil as [Hrootb Hchildren].
    assert (Part001.sessions m = ∅) as Hempty.
    { destruct (decide (Part001.sessions m = ∅)) as [|Hne]; [done|]. exfalso.
      destruct (map_choose _ Hne) as (id & v & Hv).
      destruct (Hs _ _ Hv) as [Hsome Hid]. destruct v as [u|]; [|done].
      destruct (decide (id = Part001.rootSessionID m)) as [->|Hneq].
      - unfold Part001.rootSessionBlock, usageAt in Hrootb. rewrite Hv in Hrootb.
        discriminate.
      - eapply omap_nonempty; [| |exact Hchildren].
        + apply sortStrings_elem_of, elem_of_elements, elem_of_union. left.
          apply elem_of_dom. by eexists.
        + unfold Part001.sessionBlock. rewrite decide_False by done.
          assert (usageAt (Part001.sessions m) id = Some u) as ->
            by (unfold usageAt; by rewrite Hv).
          reflexivity. }
    split; [exact Hempty|].
    unfold Part001.rootSessionBlock, usageAt in Hrootb.
    rewrite Hempty, lookup_empty in Hrootb. cbn in Hrootb.
    by destruct (Part001.rootInclusive m).
  - intros [Hempty Hnone].
    assert (Part001.inclusive m = ∅) as Hempty'.
    { apply dom_empty_iff_L. rewrite Hempty, dom_empty_L in Hincl. set_solver. }
    unfold Part001.rootSessionBlock, usageAt.
    rewrite Hempty, Hempty', Hnone, lookup_empty, !dom_empty_L, union_empty_l_L,
      elements_empty.
    reflexivity.
Qed.

(** X11: when the breakdown is empty.  On a ledger built from [New] by any
    sequence of events, the breakdown of [sidebar.go] is empty exactly when
    no session snapshot is on file (a root inclusive snapshot alone gives no
    block), and the one of [part_001] exactly when neither a session
    snapshot nor a root inclusive snapshot is. *)
Theorem breakdown_empty (events : list (option TokenUsageEvent)) :
  (∀ order order' : list (string * option Usage),
     range_order (SidebarGo.sessions (SidebarGo_record SidebarGo.New events)) order →
     SidebarGo.sessionBreakdownLines (SidebarGo_record SidebarGo.New events) order order'
       = []
     ↔ SidebarGo.sessions (SidebarGo_record SidebarGo.New events) = ∅)
  ∧ (∀ order order' : list (string * option Usage),
       range_order (Part001.sessions (Part001_record Part001.New events)) order →
       range_order (Part001.inclusive (Part001_record Part001.New events)) order' →
       Part001.sessionBreakdownLines (Part001_record Part001.New events) order order'
         = []
       ↔ Part001.sessions (Part001_record Part001.New events) = ∅
         ∧ Part001.rootInclusive (Part001_record Part001.New events) = None).
Proof.
  split.
  - intros order order'. apply SidebarGo_breakdown_empty, SidebarGo_wf_record.
  - intros order order'. apply Part001_breakdown_empty, Part001_built_record.
Qed.

Lemma breakdown_empty_witness :
  SidebarGo.rootInclusive (SidebarGo_record SidebarGo.New [Some Examples.rootEvent])
    = Some Examples.rootUsage
  ∧ SidebarGo.sessionBreakdownLines
      (SidebarGo_record SidebarGo.New [Some Examples.rootEvent]) [] [] = [].
Proof.
  split; [reflexivity|].
  destruct (breakdown_empty [Some Examples.rootEvent]) as [Hs _].
  apply Hs; [unfold range_order|]; vm_compute; reflexivity.
Defined.

(** ** The breakdown of [part_001] adds up to the team totals *)

Lemma keys_elements {V : Type} (m : gmap string V) :
  (map_to_list m).*1 ≡ₚ elements (dom m).
Proof.
  apply NoDup_Permutation.
  - apply NoDup_fst_map_to_list.
  - apply NoDup_elements.
  - intros id. rewrite elem_of_elements, elem_of_dom, list_elem_of_fmap. split.
    + intros ([k v] & -> & Hin). apply elem_of_map_to_list in Hin. by eexists.
    + intros [v Hv]. exists (id, v). split; [done|]. by apply elem_of_map_to_list.
Qed.

Lemma childrenOf_keys (root : string) (m : gmap string (option Usage))
    (l : list (string * option Usage)) :
  (∀ id v, (id, v) ∈ l → m !! id = Some v) →
  omap (λ id, if decide (id = root) then None else usageAt m id) l.*1
  = childrenOf root l.
Proof.
  unfold childrenOf.
  induction l as [|[id v] l IH]; intros Hl; [reflexivity|]. cbn.
  rewrite <- IH by (intros id' v' Hin; apply Hl; by right).
  unfold usageAt. rewrite (Hl id v) by left. reflexivity.
Qed.

Lemma childrenOf_no_root (root : string) (l : list (string * option Usage)) :
  (∀ id v, (id, v) ∈ l → id ≠ root) → childrenOf root l = omap snd l.
Proof.
  unfold childrenOf.
  induction l as [|[id v] l IH]; intros Hl; [reflexivity|]. cbn.
  rewrite decide_False by (eapply Hl; left).
  rewrite IH by (intros id' v' Hin; eapply Hl; by right).
  reflexivity.
Qed.

(** The snapshots on file are the one of the root session, if any, and
    those of the other sessions. *)
Lemma stored_children (root : string) (m : gmap string (option Usage)) :
  stored m ≡ₚ optionalHead (usageAt m root) ++ children root m.
Proof.
  unfold stored, children, usageAt.
  destruct (m !! root) as [v|] eqn:Hroot.
  - unfold childrenOf. rewrite <- (map_to_list_delete m root v Hroot). cbn.
    rewrite decide_True by done.
    fold (childrenOf root (map_to_list (delete root m))).
    rewrite childrenOf_no_root.
    + by destruct v.
    + intros id v' Hin ->. apply elem_of_map_to_list in Hin.
      by rewrite lookup_delete_eq in Hin.
  - cbn. rewrite childrenOf_no_root; [reflexivity|].
    intros id v' Hin ->. apply elem_of_map_to_list in Hin. congruence.
Qed.

Lemma fmap_omap_blocks {A : Type} (f : A → option block) (l : list A) :
  blockUsage <$> omap f l = omap (λ x, blockUsage <$> f x) l.
Proof.
  induction l as [|x l IH]; [reflexivity|]. cbn. destruct (f x); cbn; by rewrite IH.
Qed.

(** The usages that the blocks of the breakdown show, on a ledger built by
    ingestion. *)
Lemma Part001_breakdown_usages (m : Part001.usageState)
    (order order' : list (string * option Usage)) :
  Part001_built m →
  range_order (Part001.sessions m) order → range_order (Part001.inclusive m) order' →
  blockUsage <$> Part001.sessionBreakdownLines m order order'
  ≡ₚ (if decide (Part001.rootSessionID m = "")
      then optionalHead (Part001.rootInclusive m) else [])
     ++ stored (Part001.sessions m).
Proof.
  intros [[Hs Hi Hr] Ha Hincl Hroot] Horder Horder'.
  rewrite Part001_breakdown by done.
  rewrite fmap_app, fmap_omap_blocks.
  assert (dom (Part001.sessions m) ∪ dom (Part001.inclusive m)
          = dom (Part001.sessions m)) as -> by set_solver.
  assert (∀ id, blockUsage <$> Part001.sessionBlock m id
                = if decide (id = Part001.rootSessionID m) then None
                  else usageAt (Part001.sessions m) id) as Hblock.
  { intros id. unfold Part001.sessionBlock. case_decide; [reflexivity|].
    destruct (usageAt (Part001.sessions m) id) as [u|] eqn:Hu; [reflexivity|].
    assert (usageAt (Part001.inclusive m) id = None) as ->; [|reflexivity].
    unfold usageAt in *.
    destruct (Part001.inclusive m !! id) as [v|] eqn:Hv; [|reflexivity].
    assert (id ∈ dom (Part001.sessions m)) as [w Hw]%elem_of_dom
      by (apply Hincl, elem_of_dom; by eexists).
    rewrite Hw in Hu. cbn in Hu. subst w. by destruct (Hs _ _ Hw). }
  rewrite (list_omap_ext _ (λ id, if decide (id = Part001.rootSessionID m) then None
                                   else usageAt (Part001.sessions m) id) _
             (sortStrings (elements (dom (Part001.sessions m)))))
    by (apply Forall2_same_length_lookup; split; [done|]; intros; simplify_eq; apply Hblock).
  assert (sortStrings (elements (dom (Part001.sessions m)))
          ≡ₚ (map_to_list (Part001.sessions m)).*1) as ->.
  { unfold sortStrings. by rewrite merge_sort_Permutation, keys_elements. }
  rewrite childrenOf_keys by (intros id v; apply elem_of_map_to_list).
  fold (children (Part001.rootSessionID m) (Part001.sessions m)).
  rewrite (stored_children (Part001.rootSessionID m) (Part001.sessions m)).
  rewrite app_assoc. apply Permutation_app; [|reflexivity].
  unfold Part001.rootSessionBlock.
  destruct (decide (Part001.rootSessionID m = "")) as [Hnone|Hsome].
  - assert (usageAt (Part001.sessions m) (Part001.rootSessionID m) = None) as ->.
    { unfold usageAt. rewrite Hnone.
      destruct (Part001.sessions m !! ""%string) as [v|] eqn:Hv; [|reflexivity].
      by destruct (Hs _ _ Hv). }
    by destruct (Part001.rootInclusive m).
  - apply Hroot, elem_of_dom in Hsome as [v Hv].
    unfold usageAt. rewrite Hv. destruct (Hs _ _ Hv) as [Hsome _].
    by destruct v.
Qed.

(** X12: the breakdown of [part_001] adds up to the team totals.  On a
    ledger built from [New] by any sequence of events, the usages shown by
    the blocks of the breakdown are the snapshots on file, each once,
    and besides them the root inclusive snapshot when no root session is
    known (which block comes first is the matter of C6);
    so once the root session is known, the input tokens, output tokens and
    context length of the team totals are the sums over the blocks (as Go's
    [+] computes them), and the context limit is the largest limit shown. *)
Theorem breakdown_adds_up (events : list (option TokenUsageEvent))
    (order0 order order' : list (string * option Usage)) :
  let m := Part001_record Part001.New events in
  range_order (Part001.sessions m) order0 →
  range_order (Part001.sessions m) order →
  range_order (Part001.inclusive m) order' →
  let shown := blockUsage <$> Part001.sessionBreakdownLines m order order' in
  shown ≡ₚ (if decide (Part001.rootSessionID m = "")
            then optionalHead (Part001.rootInclusive m) else [])
           ++ stored (Part001.sessions m)
  ∧ (Part001.rootSessionID m ≠ "" →
     ∃ t, Part001.computeTeamTotals m order0 = Some t
       ∧ InputTokens t = GoInt.wrap (sumZ (InputTokens <$> shown))
       ∧ OutputTokens t = GoInt.wrap (sumZ (OutputTokens <$> shown))
       ∧ ContextLength t = GoInt.wrap (sumZ (ContextLength <$> shown))
       ∧ ContextLimit t = maxFromZero (ContextLimit <$> shown)).
Proof.
  intros m Horder0 Horder Horder' shown.
  pose proof (Part001_built_record events) as Hbuilt. fold m in Hbuilt.
  pose proof (Part001_breakdown_usages m order order' Hbuilt Horder Horder') as Hshown.
  fold shown in Hshown. clearbody shown m.
  split; [exact Hshown|]. intros Hroot.
  rewrite decide_False in Hshown by exact Hroot. cbn [app] in Hshown.
  pose proof (visited_range _ _ Horder0) as Hperm. rewrite <- Hshown in Hperm.
  assert (Part001.sessions m ≠ ∅) as Hne.
  { intros Hempty. apply (Part001_built_root m Hbuilt) in Hroot.
    rewrite Hempty, dom_empty_L in Hroot. by apply not_elem_of_empty in Hroot. }
  unfold Part001.computeTeamTotals, Part001.aggregateSelfUsage.
  rewrite decide_False by exact Hne.
  eexists. split; [reflexivity|].
  destruct (aggregate_loop order0 zeroUsage) as (Ei & Eo & El & Em & _);
    try (cbn; unfold GoInt.in_range, GoInt.minInt, GoInt.maxInt; lia).
  rewrite Ei, Eo, El, Em. cbn.
  rewrite (sumZ_Permutation _ _ (fmap_Permutation InputTokens _ _ Hperm)).
  rewrite (sumZ_Permutation _ _ (fmap_Permutation OutputTokens _ _ Hperm)).
  rewrite (sumZ_Permutation _ _ (fmap_Permutation ContextLength _ _ Hperm)).
  rewrite (maxFromZero_Permutation _ _ (fmap_Permutation ContextLimit _ _ Hperm)).
  repeat split.
  pose proof (maxFromZero_nonneg (ContextLimit <$> shown)). lia.
Qed.

Lemma breakdown_adds_up_witness :
  ∃ t, Part001.computeTeamTotals Examples.part001Ledger
         (map_to_list (Part001.sessions Examples.part001Ledger)) = Some t
    ∧ InputTokens t
      = GoInt.wrap
          (sumZ (InputTokens <$>
                   (blockUsage <$>
                      Part001.sessionBreakdownLines Examples.part001Ledger
                        (map_to_list (Part001.sessions Examples.part001Ledger))
                        (map_to_list (Part001.inclusive Examples.part001Ledger))))).
Proof.
  destruct (breakdown_adds_up [Some Examples.rootEvent; Some Examples.childEvent]
              (map_to_list (Part001.sessions Examples.part001Ledger))
              (map_to_list (Part001.sessions Examples.part001Ledger))
              (map_to_list (Part001.inclusive Examples.part001Ledger)))
    as [_ Htotals]; try (unfold range_order; reflexivity).
  destruct Htotals as (t & Ht & Hi & _); [vm_compute; discriminate|].
  exists t. split; [exact Ht | exact Hi].
Defined.

(** ** The two revisions side by side *)

Lemma plainEvent_fallback (e : TokenUsageEvent) :
  plainEvent (Some e) →
  selfUsageOf e = SelfUsage e ∧ inclusiveUsageOf e = InclusiveUsage e
  ∧ (InclusiveUsage e ≠ None → SelfUsage e ≠ None).
Proof.
  intros Hplain. rewrite selfUsageOf_cases, inclusiveUsageOf_cases.
  destruct (Hplain e eq_refl) as [[Hs Hi]|[Hi Hl]].
  - destruct (SelfUsage e), (InclusiveUsage e); done.
  - rewrite Hi, Hl. by destruct (SelfUsage e).
Qed.

Lemma revisions_agree_step (m : Part001.usageState) (event : option TokenUsageEvent) :
  plainEvent event →
  withoutInclusive (Part001.SetTokenUsage m event)
  = SidebarGo.SetTokenUsage (withoutInclusive m) event.
Proof.
  intros Hplain. destruct event as [e|]; [|reflexivity].
  destruct (plainEvent_fallback e Hplain) as (Hself & Hincl & Hboth).
  apply SidebarGo_state_eq.
  - rewrite SidebarGo_sessions.
    change (Part001.sessions (Part001.SetTokenUsage m (Some e))
            = if decide (SelfUsage e ≠ None ∧ SessionID e ≠ "")
              then <[SessionID e := cloneUsage (SelfUsage e)]> (Part001.sessions m)
              else Part001.sessions m).
    rewrite Part001_sessions, Hself, Hincl.
    destruct (SelfUsage e) as [u|] eqn:Hu.
    + destruct (decide (SessionID e ≠ "")).
      * by rewrite decide_True.
      * by rewrite decide_False by tauto.
    + rewrite (decide_False (P := _ ∧ _)) by tauto.
      destruct (InclusiveUsage e); [by destruct Hboth|]. by case_decide.
  - rewrite SidebarGo_sessionAgents. apply Part001_sessionAgents.
  - rewrite SidebarGo_rootInclusive.
    change (Part001.rootInclusive (Part001.SetTokenUsage m (Some e))
            = if decide (AgentName e = rootAfter (Part001.rootAgentName m) e
                         ∧ InclusiveUsage e ≠ None)
              then cloneUsage (InclusiveUsage e)
              else Part001.rootInclusive m).
    rewrite Part001_rootInclusive, Hincl.
    case_decide; [|reflexivity]. by destruct (InclusiveUsage e).
  - rewrite SidebarGo_rootSessionID.
    change (Part001.rootSessionID (Part001.SetTokenUsage m (Some e))
            = if decide (AgentName e = rootAfter (Part001.rootAgentName m) e
                         ∧ InclusiveUsage e ≠ None ∧ SessionID e ≠ "")
              then SessionID e
              else Part001.rootSessionID m).
    by rewrite Part001_rootSessionID, Hincl.
  - rewrite SidebarGo_rootAgentName. apply Part001_rootAgentName.
  - rewrite SidebarGo_activeSessionID. apply Part001_activeSessionID.
Qed.

(** X13: where the two revisions of [SetTokenUsage] agree.  On events that
    carry both a self-usage and an inclusive snapshot, or neither an
    inclusive snapshot nor a legacy usage, [part_001] and [sidebar.go] build
    the same ledger, field by field: they differ only in the [inclusive]
    map that [part_001] keeps besides. *)
Theorem revisions_agree (events : list (option TokenUsageEvent))
    (m : Part001.usageState) :
  Forall plainEvent events →
  withoutInclusive (Part001_record m events)
  = SidebarGo_record (withoutInclusive m) events.
Proof.
  intros Hplain. revert m.
  induction Hplain as [|event events Hevent _ IH]; intros m; [reflexivity|].
  cbn [Part001_record SidebarGo_record fold_left].
  rewrite <- (revisions_agree_step m event Hevent). apply IH.
Qed.

Lemma revisions_agree_witness :
  withoutInclusive
    (Part001_record Part001.New
       [Some Examples.childEvent; None; Some Examples.anonymousEvent])
  = SidebarGo_record SidebarGo.New
      [Some Examples.childEvent; None; Some Examples.anonymousEvent].
Proof.
  apply (revisions_agree
           [Some Examples.childEvent; None; Some Examples.anonymousEvent] Part001.New).
  apply Forall_cons. split; [|apply Forall_cons; split; [|apply Forall_cons; split]].
  - intros e [= <-]. right. split; reflexivity.
  - intros e [=].
  - intros e [= <-]. left. split; discriminate.
  - apply Forall_nil_2.
Defined.

(** ** The working directory *)

Lemma append_cons (c : Ascii.ascii) (s rest : string) :
  String.append (String c s) rest = String c (String.append s rest).
Proof. reflexivity. Qed.

Lemma append_nil (rest : string) : String.append EmptyString rest = rest.
Proof. reflexivity. Qed.

Lemma prefix_append (home rest : string) :
  String.prefix home (String.append home rest) = true.
Proof.
  induction home as [|c home IH].
  - rewrite append_nil. by destruct rest.
  - rewrite append_cons. cbn. destruct (Ascii.ascii_dec c c); [exact IH | done].
Qed.

Lemma prefix_inv (home pwd : string) :
  String.prefix home pwd = true → ∃ rest, pwd = String.append home rest.
Proof.
  revert pwd. induction home as [|c home IH]; intros pwd.
  - intros _. by exists pwd.
  - destruct pwd as [|c' pwd]; [done|]. cbn.
    destruct (Ascii.ascii_dec c c') as [<-|]; [|done].
    intros [rest ->]%IH. by exists rest.
Qed.

Lemma substring_all (s : string) : String.substring 0 (String.length s) s = s.
Proof. induction s as [|c s IH]; cbn; [reflexivity | by rewrite IH]. Qed.

Lemma substring_append (home rest : string) :
  String.substring (String.length home)
    (String.length (String.append home rest) - String.length home)%nat
    (String.append home rest)
  = rest.
Proof.
  induction home as [|c home IH].
  - rewrite append_nil. cbn [String.length]. rewrite Nat.sub_0_r. apply substring_all.
  - rewrite append_cons. cbn. exact IH.
Qed.

(** X16: [getCurrentWorkingDirectory].  When [os.Getwd] fails the result is
    the empty string; when [os.UserHomeDir] fails it is the working
    directory, unchanged.  Otherwise a working directory that starts with
    the bytes of the home directory has them replaced by a tilde (also when
    the next byte is not a path separator), and any other working directory
    is returned unchanged. *)
Theorem getCurrentWorkingDirectory_spec :
  (∀ userHomeDir, getCurrentWorkingDirectory None userHomeDir = "")
  ∧ (∀ pwd, getCurrentWorkingDirectory (Some pwd) None = pwd)
  ∧ (∀ homeDir rest,
       getCurrentWorkingDirectory (Some (String.append homeDir rest)) (Some homeDir)
       = String.append "~" rest)
  ∧ (∀ homeDir pwd,
       (∀ rest, pwd ≠ String.append homeDir rest) →
       getCurrentWorkingDirectory (Some pwd) (Some homeDir) = pwd).
Proof.
  split; [reflexivity|]. split; [reflexivity|]. split.
  - intros homeDir rest. unfold getCurrentWorkingDirectory.
    by rewrite prefix_append, substring_append.
  - intros homeDir pwd Hno. unfold getCurrentWorkingDirectory.
    destruct (String.prefix homeDir pwd) eqn:Hprefix; [|reflexivity].
    apply prefix_inv in Hprefix as [rest ->]. by destruct (Hno rest).
Qed.

Lemma getCurrentWorkingDirectory_spec_witness :
  getCurrentWorkingDirectory (Some "/home/alice/src") (Some "/home/al") = "~ice/src"
  ∧ getCurrentWorkingDirectory (Some "/srv/data") (Some "/home/al") = "/srv/data".
Proof.
  destruct getCurrentWorkingDirectory_spec as (_ & _ & Hhome & Hother). split.
  - apply (Hhome "/home/al" "ice/src")%string.
  - apply Hother. intros rest. cbn. discriminate.
Defined.

(** ** The height of the vertical view *)

Lemma countNewlines_append (a b : string) :
  countNewlines (String.append a b) = countNewlines a + countNewlines b.
Proof.
  induction a as [|c a IH]; [reflexivity|].
  rewrite append_cons. cbn. rewrite IH. lia.
Qed.

Lemma countNewlines_pad (n : nat) (s : string) :
  countNewlines (pad n s) = countNewlines s + Z.of_nat n.
Proof.
  revert s. induction n as [|n IH]; intros s; cbn [pad]; [lia|].
  rewrite IH, countNewlines_append. cbn. lia.
Qed.

Lemma countNewlines_nonneg (s : string) : 0 <= countNewlines s.
Proof. induction s as [|c s IH]; cbn; [lia | destruct (Ascii.eqb c newline); lia]. Qed.

(** X17: the height of the content of the vertical view.  For a height
    that is not negative (and line counts that fit an [int]), the content
    that [verticalView] hands to the style has [m.height - 3] lines when the
    two parts fit into the available [m.height - 2] lines, one fewer than
    are available, and otherwise one line fewer than the two parts have
    together: the first line of the todo list is written on the last line of
    the top part. *)
Theorem verticalViewContent_height (height : Z) (topContent todoContent : string) :
  0 <= height <= GoInt.maxInt →
  countNewlines topContent + countNewlines todoContent <= GoInt.maxInt - 4 →
  let topHeight := countNewlines topContent + 1 in
  let todoHeight := countNewlines todoContent + 1 in
  countNewlines (verticalViewContent height topContent todoContent) + 1
  = Z.max (height - 3) (topHeight + todoHeight - 1).
Proof.
  intros Hheight Hfit topHeight todoHeight.
  pose proof (countNewlines_nonneg topContent) as Htop.
  pose proof (countNewlines_nonneg todoContent) as Htodo.
  unfold verticalViewContent, GoInt.sub, GoInt.add.
  assert (∀ z, GoInt.minInt <= z <= GoInt.maxInt → GoInt.wrap z = z) as Hwrap
    by (intros z Hz; by apply wrap_in_range).
  unfold GoInt.maxInt, GoInt.minInt in *.
  rewrite (Hwrap (height - 2)) by lia.
  rewrite (Hwrap (countNewlines topContent + 1)) by lia.
  rewrite (Hwrap (countNewlines todoContent + 1)) by lia.
  rewrite (Hwrap (height - 2 - _)) by lia.
  rewrite (Hwrap (height - 2 - _ - _)) by lia.
  rewrite countNewlines_append, countNewlines_pad.
  subst topHeight todoHeight. lia.
Qed.

Lemma verticalViewContent_height_witness :
  countNewlines (verticalViewContent 24 "title" "todo") + 1 = 21.
Proof.
  apply (verticalViewContent_height 24 "title" "todo");
    cbn; unfold GoInt.maxInt; lia.
Defined.

(** ** Events of the older shape in [sidebar.go] *)

(** X14: [sidebar.go] does not read the legacy usage.  An event with
    neither a self-usage nor an inclusive snapshot leaves every snapshot of
    the ledger of [sidebar.go] as it was, whatever its legacy field holds:
    the session snapshots, the root inclusive snapshot, the root session and
    hence the team totals are unchanged unless the active session moves. *)
Theorem legacy_ignored (m : SidebarGo.usageState) (e : TokenUsageEvent) :
  SelfUsage e = None → InclusiveUsage e = None →
  SidebarGo.sessions (SidebarGo.SetTokenUsage m (Some e)) = SidebarGo.sessions m
  ∧ SidebarGo.rootInclusive (SidebarGo.SetTokenUsage m (Some e)) = SidebarGo.rootInclusive m
  ∧ SidebarGo.rootSessionID (SidebarGo.SetTokenUsage m (Some e)) = SidebarGo.rootSessionID m
  ∧ (SessionID e = "" ∨ SessionID e = SidebarGo.activeSessionID m →
     SidebarGo.computeTeamTotals (SidebarGo.SetTokenUsage m (Some e))
     = SidebarGo.computeTeamTotals m).
Proof.
  intros Hself Hincl.
  pose proof (SidebarGo_sessions m e) as Hs.
  pose proof (SidebarGo_rootInclusive m e) as Hr.
  pose proof (SidebarGo_rootSessionID m e) as Hid.
  pose proof (SidebarGo_activeSessionID m e) as Ha.
  rewrite decide_False in Hs by (rewrite Hself; tauto).
  rewrite decide_False in Hr by (rewrite Hincl; tauto).
  rewrite decide_False in Hid by (rewrite Hincl; tauto).
  split; [exact Hs|]. split; [exact Hr|]. split; [exact Hid|].
  intros Hactive.
  assert (SidebarGo.activeSessionID (SidebarGo.SetTokenUsage m (Some e))
          = SidebarGo.activeSessionID m) as Ha'.
  { rewrite Ha. destruct (decide (SessionID e ≠ "")); [|reflexivity].
    by destruct Hactive. }
  unfold SidebarGo.computeTeamTotals, SidebarGo.currentSessionUsage.
  by rewrite Hs, Hr, Hid, Ha'.
Qed.

Lemma legacy_ignored_witness :
  SidebarGo.sessions (SidebarGo.SetTokenUsage SidebarGo.New (Some Examples.legacyEvent))
    = ∅
  ∧ SidebarGo.rootInclusive
      (SidebarGo.SetTokenUsage SidebarGo.New (Some Examples.legacyEvent)) = None.
Proof.
  destruct (legacy_ignored SidebarGo.New Examples.legacyEvent) as (Hs & Hr & _);
    [reflexivity | reflexivity |].
  split; [exact Hs | exact Hr].
Defined.

(** ** Who the root agent is *)

Lemma firstAgent_cons (event : option TokenUsageEvent)
    (events : list (option TokenUsageEvent)) :
  firstAgent (event :: events)
  = match event with
    | Some e => if decide (AgentName e ≠ "") then Some (AgentName e) else firstAgent events
    | None => firstAgent events
    end.
Proof.
  unfold firstAgent.
  destruct event as [e|]; cbn [omap list_omap fmap option_fmap option_map];
    [|reflexivity].
  rewrite filter_cons. by destruct (decide (AgentName e ≠ "")).
Qed.

Lemma rootAfter_first (root : string) (e : TokenUsageEvent) (later : option string) :
  (if decide (rootAfter root e = "") then default "" later else rootAfter root e)
  = if decide (root = "")
    then default "" (if decide (AgentName e ≠ "") then Some (AgentName e) else later)
    else root.
Proof.
  unfold rootAfter.
  destruct (decide (root = "")) as [->|Hroot].
  - destruct (decide (AgentName e ≠ "")) as [Hname|Hname].
    + rewrite (decide_True (P := _ ∧ _)) by done. by rewrite decide_False.
    + rewrite (decide_False (P := _ ∧ _)) by tauto. by rewrite decide_True.
  - rewrite (decide_False (P := _ ∧ _)) by tauto. by rewrite decide_False.
Qed.

(** X18: who the root agent is.  After any sequence of events, in either
    revision, [rootAgentName] is the name it had before when that was not
    empty, and otherwise the agent name of the first event that carries one
    (empty when none does): the first agent to report under a name is taken
    for the root agent. *)
Theorem root_agent_name (events : list (option TokenUsageEvent)) :
  (∀ m : SidebarGo.usageState,
     SidebarGo.rootAgentName (SidebarGo_record m events)
     = if decide (SidebarGo.rootAgentName m = "")
       then default "" (firstAgent events)
       else SidebarGo.rootAgentName m)
  ∧ (∀ m : Part001.usageState,
       Part001.rootAgentName (Part001_record m events)
       = if decide (Part001.rootAgentName m = "")
         then default "" (firstAgent events)
         else Part001.rootAgentName m).
Proof.
  split.
  - induction events as [|event events IH]; intros m.
    + cbn. by case_decide.
    + cbn [SidebarGo_record fold_left].
      fold (SidebarGo_record (SidebarGo.SetTokenUsage m event) events).
      rewrite IH, firstAgent_cons. destruct event as [e|]; [|reflexivity].
      rewrite SidebarGo_rootAgentName. apply rootAfter_first.
  - induction events as [|event events IH]; intros m.
    + cbn. by case_decide.
    + cbn [Part001_record fold_left].
      fold (Part001_record (Part001.SetTokenUsage m event) events).
      rewrite IH, firstAgent_cons. destruct event as [e|]; [|reflexivity].
      rewrite Part001_rootAgentName. apply rootAfter_first.
Qed.
